(** * Tour scheduling service: a shallow embedding of [app/models.py],
    [app/storage.py] and [app/service.py], with the payloads and endpoints
    of [app/errors.py], [app/schemas.py] and [app/main.py], and the
    properties of the booking engine proved over it.

    Conventions of the embedding.

    - An aware UTC [datetime] is an [instant]: the number of microseconds
      since 0001-01-01T00:00:00 UTC, so that Python's comparison of aware
      datetimes is the order of [Z].  Python's datetimes are bounded
      (years 1 to 9999); arithmetic that leaves the range raises
      [OverflowError], which the model keeps.
    - A [date] is the number of days since 0001-01-01.  The rate-limit
      store keys counters by [day.isoformat()], the fixed-width text
      [YYYY-MM-DD]; on Python's date range that text is in one-to-one,
      order-preserving correspondence with the date, so the model keys
      and compares by the day number itself.
    - A Python [dict] is an insertion-ordered association list.
    - The wall clock and [uuid4] are the environment: every reading of
      [datetime.now(timezone.utc)] and every random hex text is an explicit
      argument of the operation that takes it.
    - Exceptions do not roll the store back: an operation returns its
      outcome together with the store it leaves behind.
    - The store hands out its objects themselves, and the service changes a
      tour or a counter in place; it saves the object back at once, under
      the key it sits at, so a store of values that is updated at the save
      goes through the same states between calls. *)

From Stdlib Require Import ZArith List String Ascii Bool Lia Permutation Sorted.
Import ListNotations.
Local Open Scope string_scope.
Local Open Scope list_scope.
Local Open Scope Z_scope.

(* ------------------------------------------------------------------ *)
(** ** Python dictionaries *)

Class KeyEq (K : Type) := {
  keqb : K -> K -> bool;
  keqb_eq : forall a b, keqb a b = true <-> a = b
}.

#[global, refine] Instance string_KeyEq : KeyEq string := {| keqb := String.eqb |}.
Proof. intros a b. apply String.eqb_eq. Defined.

#[global, refine] Instance pair_KeyEq : KeyEq (string * Z) :=
  {| keqb := fun a b => String.eqb (fst a) (fst b) && Z.eqb (snd a) (snd b) |}.
Proof.
  intros [a1 a2] [b1 b2]; simpl. rewrite andb_true_iff, String.eqb_eq, Z.eqb_eq.
  split; [intros [-> ->]; reflexivity | intros H; inversion H; auto].
Defined.

Module Dict.
Section Dict.
Context {K V : Type} `{KeyEq K}.

Definition t := list (K * V).

Definition empty : t := [].

(** [d.get(k)] *)
Fixpoint get (d : t) (k : K) : option V :=
  match d with
  | [] => None
  | (k', v) :: r => if keqb k' k then Some v else get r k
  end.

(** [d[k] = v]: an existing key keeps its position, a new one is appended. *)
Fixpoint set (d : t) (k : K) (v : V) : t :=
  match d with
  | [] => [(k, v)]
  | (k', v') :: r => if keqb k' k then (k', v) :: r else (k', v') :: set r k v
  end.

(** [del d[k]]; the code deletes only keys it has just found, so the
    [KeyError] of a missing key is not modelled. *)
Fixpoint del (d : t) (k : K) : t :=
  match d with
  | [] => []
  | (k', v') :: r => if keqb k' k then del r k else (k', v') :: del r k
  end.

(** [d.keys()] and [d.values()], in insertion order. *)
Definition keys (d : t) : list K := map fst d.
Definition values (d : t) : list V := map snd d.
End Dict.
Arguments t : clear implicits.
End Dict.

(* ------------------------------------------------------------------ *)
(** ** Time *)

Abbreviation instant := Z (only parsing).
Abbreviation date := Z (only parsing).

Definition US_PER_SECOND : Z := 1000000.
Definition US_PER_HOUR : Z := 3600 * US_PER_SECOND.
Definition US_PER_DAY : Z := 24 * US_PER_HOUR.

(** [date.max.toordinal()]: the number of days from 0001-01-01 to 9999-12-31. *)
Definition MAXORDINAL : Z := 3652059.

(** The instants a Python [datetime] can hold. *)
Definition in_range (t : Z) : bool := (0 <=? t) && (t <? MAXORDINAL * US_PER_DAY).

(** A [datetime] as the caller passes it: its wall-clock reading and, when it
    is aware, the offset of its [tzinfo] from UTC (both in microseconds). *)
Record datetime := mk_datetime {
  wall : Z;
  tzinfo : option Z
}.

Definition timedelta_hours (h : Z) : Z := h * US_PER_HOUR.
Definition timedelta_days (d : Z) : Z := d * US_PER_DAY.

Arguments timedelta_hours : simpl never.
Arguments timedelta_days : simpl never.

(** [now.date()] of an aware UTC datetime. *)
Definition date_of (t : instant) : date := t / US_PER_DAY.

(** [datetime.combine(d, datetime.min.time(), tzinfo=timezone.utc)] *)
Definition combine_min (d : date) : instant := d * US_PER_DAY.

Arguments date_of : simpl never.
Arguments combine_min : simpl never.

(* ------------------------------------------------------------------ *)
(** ** [app/errors.py] and outcomes *)

Inductive error :=
| BadRequestError (message : string) (field : option string)
| ConflictError (message : string)
| NotFoundError (message : string)
| RateLimitError (message : string)
| OverflowError.

(** The [status_code] of each [AppError]; an exception that is none, such as
    [OverflowError], is answered by the framework with 500. *)
Definition status_code (e : error) : Z :=
  match e with
  | BadRequestError _ _ => 400
  | ConflictError _ => 409
  | NotFoundError _ => 404
  | RateLimitError _ => 429
  | OverflowError => 500
  end.

Inductive outcome (A : Type) :=
| Ok (a : A)
| Raise (e : error).
Arguments Ok {A} a.
Arguments Raise {A} e.

(** [dt + timedelta]: raises [OverflowError] outside the datetime range. *)
Definition timedelta_add (t : instant) (delta : Z) : outcome instant :=
  if in_range (t + delta) then Ok (t + delta) else Raise OverflowError.

(* ------------------------------------------------------------------ *)
(** ** [app/models.py] *)

Inductive TourStatus := BOOKED | CANCELLED.

Definition TourStatus_eqb (a b : TourStatus) : bool :=
  match a, b with
  | BOOKED, BOOKED | CANCELLED, CANCELLED => true
  | _, _ => false
  end.

Module Tour.
Record t := mk {
  id : string;
  property_id : string;
  customer_id : string;
  start_at : instant;
  end_at : instant;
  status : TourStatus;
  created_at : instant;
  updated_at : instant
}.

(** [Tour.cancel]; [clock] is the reading of [datetime.now(timezone.utc)]
    taken when the status really changes. *)
Definition cancel (self : t) (clock : instant) : t :=
  if negb (TourStatus_eqb (status self) CANCELLED)
  then mk (id self) (property_id self) (customer_id self)
          (start_at self) (end_at self) CANCELLED (created_at self) clock
  else self.
End Tour.

Module IdempotencyRecord.
Record t := mk {
  key : string;
  tour_id : string;
  fingerprint : string;
  created_at : instant;
  expires_at : instant
}.
End IdempotencyRecord.

Module RateLimitCounter.
Record t := mk {
  customer_id : string;
  day : date;
  count : Z
}.

Definition increment (self : t) : t :=
  mk (customer_id self) (day self) (count self + 1).
End RateLimitCounter.

(* ------------------------------------------------------------------ *)
(** ** Text: [str.join], [datetime.isoformat], truthiness *)

(** [sep.join(parts)] *)
Fixpoint join (sep : string) (parts : list string) : string :=
  match parts with
  | [] => EmptyString
  | [p] => p
  | p :: rest => (p ++ sep ++ join sep rest)%string
  end.

(** Python's truth value of a [str | None]: [None] and the empty text are
    false. *)
Definition truthy (s : option string) : bool :=
  match s with
  | Some (String _ _) => true
  | _ => false
  end.

Definition digit (n : Z) : ascii :=
  match n mod 10 with
  | 0 => "0" | 1 => "1" | 2 => "2" | 3 => "3" | 4 => "4"
  | 5 => "5" | 6 => "6" | 7 => "7" | 8 => "8" | _ => "9"
  end%char.

(** The last [width] decimal digits of [n], zero-padded ([%0<width>d]). *)
Fixpoint zpad (width : nat) (n : Z) : string :=
  match width with
  | O => EmptyString
  | S w => (zpad w (n / 10) ++ String (digit n) EmptyString)%string
  end.

Definition DAYS_IN_MONTH (month : Z) : Z :=
  match month with
  | 2 => 28
  | 4 | 6 | 9 | 11 => 30
  | _ => 31
  end.

Definition DAYS_BEFORE_MONTH (month : Z) : Z :=
  match month with
  | 1 => 0 | 2 => 31 | 3 => 59 | 4 => 90 | 5 => 120 | 6 => 151
  | 7 => 181 | 8 => 212 | 9 => 243 | 10 => 273 | 11 => 304 | _ => 334
  end.

(** [datetime._ord2ymd] of the standard library, on a day number counted
    from 0: the proleptic Gregorian (year, month, day). *)
Definition ord2ymd (n0 : Z) : Z * Z * Z :=
  let n400 := n0 / 146097 in
  let n := n0 mod 146097 in
  let n100 := n / 36524 in
  let n := n mod 36524 in
  let n4 := n / 1461 in
  let n := n mod 1461 in
  let n1 := n / 365 in
  let n := n mod 365 in
  let year := n400 * 400 + 1 + n100 * 100 + n4 * 4 + n1 in
  if (n1 =? 4) || (n100 =? 4) then (year - 1, 12, 31)
  else
    let leapyear := (n1 =? 3) && (negb (n4 =? 24) || (n100 =? 3)) in
    let month := Z.shiftr (n + 50) 5 in
    let preceding :=
      DAYS_BEFORE_MONTH month + (if (2 <? month) && leapyear then 1 else 0) in
    if n <? preceding then
      let month' := month - 1 in
      let preceding' :=
        preceding - (DAYS_IN_MONTH month'
                     + (if (month' =? 2) && leapyear then 1 else 0)) in
      (year, month', n - preceding' + 1)
    else (year, month, n - preceding + 1).

(** [dt.isoformat()] of an aware UTC datetime:
    [YYYY-MM-DDTHH:MM:SS[.ffffff]+00:00]. *)
Definition isoformat (t : instant) : string :=
  let '(y, m, d) := ord2ymd (t / US_PER_DAY) in
  let us := t mod US_PER_DAY in
  let hh := us / US_PER_HOUR in
  let mm := (us / (60 * US_PER_SECOND)) mod 60 in
  let ss := (us / US_PER_SECOND) mod 60 in
  let frac := us mod US_PER_SECOND in
  (zpad 4 y ++ "-" ++ zpad 2 m ++ "-" ++ zpad 2 d ++ "T"
   ++ zpad 2 hh ++ ":" ++ zpad 2 mm ++ ":" ++ zpad 2 ss
   ++ (if (frac =? 0)%Z then EmptyString else "." ++ zpad 6 frac)
   ++ "+00:00")%string.

(* ------------------------------------------------------------------ *)
(** ** [app/storage.py] *)

Record InMemoryTourStorage := mk_storage {
  _tours : Dict.t string Tour.t;
  _idempotency : Dict.t string IdempotencyRecord.t;
  _rate_limits : Dict.t (string * Z) RateLimitCounter.t
}.

(** [InMemoryTourStorage()] *)
Definition new_storage : InMemoryTourStorage :=
  mk_storage Dict.empty Dict.empty Dict.empty.

(** A method call: it runs on a store and leaves an outcome and a store.  A
    raised exception keeps whatever the call had already written. *)
Definition M (A : Type) : Type :=
  InMemoryTourStorage -> outcome A * InMemoryTourStorage.

Definition ret {A} (a : A) : M A := fun s => (Ok a, s).
Definition raise {A} (e : error) : M A := fun s => (Raise e, s).
Definition lift {A} (o : outcome A) : M A := fun s => (o, s).
Definition bind {A B} (m : M A) (k : A -> M B) : M B :=
  fun s =>
    match m s with
    | (Ok a, s') => k a s'
    | (Raise e, s') => (Raise e, s')
    end.

Notation "x <- m ;; k" := (bind m (fun x => k))
  (at level 61, m at next level, right associativity).
Notation "m ;;; k" := (bind m (fun _ => k))
  (at level 61, right associativity).

Module Storage.
Definition get_tour (tour_id : string) : M (option Tour.t) :=
  fun s => (Ok (Dict.get (_tours s) tour_id), s).

Definition save_tour (tour : Tour.t) : M unit :=
  fun s => (Ok tt, mk_storage (Dict.set (_tours s) (Tour.id tour) tour)
                              (_idempotency s) (_rate_limits s)).

Definition list_tours : M (list Tour.t) :=
  fun s => (Ok (Dict.values (_tours s)), s).

Definition upsert_rate_limit (counter : RateLimitCounter.t) : M unit :=
  let key := (RateLimitCounter.customer_id counter, RateLimitCounter.day counter) in
  fun s => (Ok tt, mk_storage (_tours s) (_idempotency s)
                              (Dict.set (_rate_limits s) key counter)).

Definition get_rate_limit (customer_id : string) (day_iso : date)
  : M (option RateLimitCounter.t) :=
  fun s => (Ok (Dict.get (_rate_limits s) (customer_id, day_iso)), s).

(** [clock] is the reading of [datetime.now(timezone.utc)] this method
    takes itself. *)
Definition get_idempotency_record (key : string) (clock : instant)
  : M (option IdempotencyRecord.t) :=
  fun s =>
    match Dict.get (_idempotency s) key with
    | Some record =>
        if IdempotencyRecord.expires_at record <=? clock
        then (Ok None, mk_storage (_tours s) (Dict.del (_idempotency s) key)
                                  (_rate_limits s))
        else (Ok (Some record), s)
    | None => (Ok None, s)
    end.

Definition save_idempotency_record (record : IdempotencyRecord.t) : M unit :=
  fun s => (Ok tt, mk_storage (_tours s)
                              (Dict.set (_idempotency s)
                                        (IdempotencyRecord.key record) record)
                              (_rate_limits s)).

Definition cleanup_rate_limits (now : instant) : M unit :=
  let threshold := date_of now in
  fun s =>
    let keys_to_drop :=
      filter (fun key : string * Z => snd key <? threshold)
             (Dict.keys (_rate_limits s)) in
    (Ok tt, mk_storage (_tours s) (_idempotency s)
                       (fold_left (fun d key => Dict.del d key) keys_to_drop
                                  (_rate_limits s))).
End Storage.

(* ------------------------------------------------------------------ *)
(** ** [app/service.py] *)

Definition ensure_utc (dt : datetime) (field : string) : outcome instant :=
  match tzinfo dt with
  | None => Raise (BadRequestError "timestamp must be timezone-aware" (Some field))
  | Some offset =>
      (* dt.astimezone(timezone.utc) *)
      if in_range (wall dt - offset) then Ok (wall dt - offset)
      else Raise OverflowError
  end.

Definition overlaps (start_a end_a start_b end_b : instant) : bool :=
  (start_a <? end_b) && (start_b <? end_a).

(** [list.sort(key=..., reverse=...)]: the stable sort; elements with equal
    keys keep their order, also when [reverse] is set. *)
Fixpoint insert_by {A} (le : A -> A -> bool) (x : A) (l : list A) : list A :=
  match l with
  | [] => [x]
  | y :: r => if le x y then x :: y :: r else y :: insert_by le x r
  end.

Definition key_le {A} (key : A -> Z) (reverse : bool) (a b : A) : bool :=
  if reverse then key b <=? key a else key a <=? key b.

Definition list_sort {A} (key : A -> Z) (reverse : bool) (l : list A) : list A :=
  fold_right (insert_by (key_le key reverse)) [] l.

(** [l[start:stop]] with Python's treatment of negative and oversized
    indices. *)
Definition clamp_index (i n : Z) : Z :=
  if i <? 0 then Z.max (i + n) 0 else Z.min i n.

Definition slice {A} (l : list A) (start stop : Z) : list A :=
  let n := Z.of_nat (List.length l) in
  let a := clamp_index start n in
  let b := clamp_index stop n in
  firstn (Z.to_nat (b - a)) (skipn (Z.to_nat a) l).

Module Service.
(** [uuid_hex] is the text of [uuid4().hex]. *)
Definition _generate_tour_id (uuid_hex : string) : string :=
  ("tour_" ++ substring 0 12 uuid_hex)%string.

Definition _fingerprint (property_id customer_id : string)
           (start_at end_at : instant) : string :=
  join "|" [property_id; customer_id; isoformat start_at; isoformat end_at].

Definition _get_or_create_rate_limit (customer_id : string) (day_key : date)
  : M RateLimitCounter.t :=
  counter <- Storage.get_rate_limit customer_id day_key ;;
  match counter with
  | Some counter => ret counter
  | None =>
      let counter := RateLimitCounter.mk customer_id day_key 0 in
      Storage.upsert_rate_limit counter ;;;
      ret counter
  end.

Fixpoint _ensure_no_overlap_loop (tours : list Tour.t) (property_id : string)
         (start_at end_at : instant) : outcome unit :=
  match tours with
  | [] => Ok tt
  | tour :: rest =>
      if negb (Tour.property_id tour =? property_id)%string
      then _ensure_no_overlap_loop rest property_id start_at end_at
      else if negb (TourStatus_eqb (Tour.status tour) BOOKED)
      then _ensure_no_overlap_loop rest property_id start_at end_at
      else if overlaps (Tour.start_at tour) (Tour.end_at tour) start_at end_at
      then Raise (ConflictError "overlapping tour for property")
      else _ensure_no_overlap_loop rest property_id start_at end_at
  end.

Definition _ensure_no_overlap (property_id : string) (start_at end_at : instant)
  : M unit :=
  tours <- Storage.list_tours ;;
  lift (_ensure_no_overlap_loop tours property_id start_at end_at).

(** [now] is the clock reading [create_tour] takes before it enters the
    lock, [now_lookup] the one [get_idempotency_record] takes inside it. *)
Definition create_tour (property_id customer_id : string)
           (start_at end_at : datetime) (idempotency_key : option string)
           (now now_lookup : instant) (uuid_hex : string)
  : M (Tour.t * bool) :=
  start_at_utc <- lift (ensure_utc start_at "start_at") ;;
  end_at_utc <- lift (ensure_utc end_at "end_at") ;;
  if start_at_utc >=? end_at_utc
  then raise (BadRequestError "end_at must be after start_at" (Some "end_at"))
  else
    let fingerprint :=
      _fingerprint property_id customer_id start_at_utc end_at_utc in
    record <-
      match idempotency_key with
      | Some (String _ _ as key) =>
          record <- Storage.get_idempotency_record key now_lookup ;;
          match record with
          | Some r =>
              if negb (IdempotencyRecord.fingerprint r =? fingerprint)%string
              then raise (ConflictError
                     "idempotency key already used with different parameters")
              else ret record
          | None => ret record
          end
      | _ => ret None
      end ;;
    existing <-
      match record with
      | Some r => Storage.get_tour (IdempotencyRecord.tour_id r)
      | None => ret None
      end ;;
    match existing with
    | Some existing => ret (existing, false)
    | None =>
        Storage.cleanup_rate_limits now ;;;
        let day_key := date_of now in
        counter <- _get_or_create_rate_limit customer_id day_key ;;
        if RateLimitCounter.count counter >=? 3
        then raise (RateLimitError "daily tour creation limit reached")
        else
          _ensure_no_overlap property_id start_at_utc end_at_utc ;;;
          let tour := Tour.mk (_generate_tour_id uuid_hex) property_id
                              customer_id start_at_utc end_at_utc BOOKED
                              now now in
          Storage.save_tour tour ;;;
          Storage.upsert_rate_limit (RateLimitCounter.increment counter) ;;;
          match idempotency_key with
          | Some (String _ _ as key) =>
              expires_at <- lift (timedelta_add now (timedelta_hours 24)) ;;
              Storage.save_idempotency_record
                (IdempotencyRecord.mk key (Tour.id tour) fingerprint now
                                      expires_at)
          | _ => ret tt
          end ;;;
          ret (tour, true)
    end.

Definition get_tour (tour_id : string) : M Tour.t :=
  tour <- Storage.get_tour tour_id ;;
  match tour with
  | None => raise (NotFoundError "tour not found")
  | Some tour => ret tour
  end.

Definition _matches_filters (tour : Tour.t) (property_id : option string)
           (date_filter : option date) : outcome bool :=
  if match property_id with
     | Some (String _ _ as p) => negb (Tour.property_id tour =? p)%string
     | _ => false
     end
  then Ok false
  else
    match date_filter with
    | Some d =>
        let day_start := combine_min d in
        match timedelta_add day_start (timedelta_days 1) with
        | Raise e => Raise e
        | Ok day_end =>
            if negb (overlaps (Tour.start_at tour) (Tour.end_at tour)
                              day_start day_end)
            then Ok false
            else Ok true
        end
    | None => Ok true
    end.

(** The comprehension [[tour for tour in tours if _matches_filters(...)]]. *)
Fixpoint filter_tours (tours : list Tour.t) (property_id : option string)
         (date_filter : option date) : outcome (list Tour.t) :=
  match tours with
  | [] => Ok []
  | tour :: rest =>
      match _matches_filters tour property_id date_filter with
      | Raise e => Raise e
      | Ok keep =>
          match filter_tours rest property_id date_filter with
          | Raise e => Raise e
          | Ok kept => Ok (if keep then tour :: kept else kept)
          end
      end
  end.

Definition list_tours (property_id : option string) (date_filter : option date)
           (sort : string) (page page_size : Z) : M (list Tour.t * Z) :=
  tours <- Storage.list_tours ;;
  filtered <- lift (filter_tours tours property_id date_filter) ;;
  let '(reverse, sort_field) :=
    match sort with
    | String "-" rest => (true, rest)
    | _ => (false, sort)
    end in
  if negb (sort_field =? "start_at")%string
  then raise (BadRequestError "unsupported sort field" (Some "sort"))
  else
    let filtered := list_sort Tour.start_at reverse filtered in
    let total := Z.of_nat (List.length filtered) in
    let start_index := (page - 1) * page_size in
    let end_index := start_index + page_size in
    let paginated := slice filtered start_index end_index in
    ret (paginated, total).

(** [clock] is the reading [Tour.cancel] takes when the status changes. *)
Definition cancel_tour (tour_id : string) (clock : instant) : M unit :=
  tour <- Storage.get_tour tour_id ;;
  match tour with
  | None => raise (NotFoundError "tour not found")
  | Some tour =>
      let tour := Tour.cancel tour clock in
      Storage.save_tour tour ;;;
      ret tt
  end.
End Service.

(* ------------------------------------------------------------------ *)
(** ** The four operations as one request handler ([app/main.py]) *)

Inductive request :=
| Create (property_id customer_id : string) (start_at end_at : datetime)
         (idempotency_key : option string) (now now_lookup : instant)
         (uuid_hex : string)
| Get (tour_id : string)
| List (property_id : option string) (date_filter : option date)
       (sort : string) (page page_size : Z)
| Cancel (tour_id : string) (clock : instant).

Inductive response :=
| Created (r : outcome (Tour.t * bool))
| Got (r : outcome Tour.t)
| Listed (r : outcome (list Tour.t * Z))
| Cancelled (r : outcome unit).

Definition handle (q : request) (S : InMemoryTourStorage)
  : response * InMemoryTourStorage :=
  match q with
  | Create pid cid sa ea key now nl uuid =>
      let (r, S') := Service.create_tour pid cid sa ea key now nl uuid S in
      (Created r, S')
  | Get tid => let (r, S') := Service.get_tour tid S in (Got r, S')
  | List pid d sort page size =>
      let (r, S') := Service.list_tours pid d sort page size S in (Listed r, S')
  | Cancel tid clock =>
      let (r, S') := Service.cancel_tour tid clock S in (Cancelled r, S')
  end.

Fixpoint run (qs : list request) (S : InMemoryTourStorage)
  : list response * InMemoryTourStorage :=
  match qs with
  | [] => ([], S)
  | q :: rest =>
      let (r, S1) := handle q S in
      let (rs, S2) := run rest S1 in
      (r :: rs, S2)
  end.

(* ------------------------------------------------------------------ *)
(** ** Payloads and endpoints ([app/errors.py], [app/schemas.py],
       [app/main.py]) *)

Module AppError.
Record t := mk {
  code : string;
  message : string;
  status_code : Z;
  field : option string
}.

(** [AppError.to_dict]: the ["field"] entry is written only for a field
    that is neither [None] nor the empty text. *)
Definition to_dict (self : t) : Dict.t string string :=
  let payload := [("code", code self); ("message", message self)] in
  match field self with
  | Some (String _ _ as f) => Dict.set payload "field" f
  | _ => payload
  end.
End AppError.

(** The [AppError] an exception is, as the [__init__] of its subclass fills
    it in; none for an exception of another class. *)
Definition as_app_error (e : error) : option AppError.t :=
  match e with
  | BadRequestError message field =>
      Some (AppError.mk "BAD_REQUEST" message 400 field)
  | ConflictError message => Some (AppError.mk "CONFLICT" message 409 None)
  | NotFoundError message => Some (AppError.mk "NOT_FOUND" message 404 None)
  | RateLimitError message => Some (AppError.mk "RATE_LIMIT" message 429 None)
  | OverflowError => None
  end.

(** [TourStatus.value] *)
Definition TourStatus_value (s : TourStatus) : string :=
  match s with
  | BOOKED => "BOOKED"
  | CANCELLED => "CANCELLED"
  end.

Module TourCreateRequest.
Record t := mk {
  property_id : string;
  customer_id : string;
  start_at : datetime;
  end_at : datetime
}.
End TourCreateRequest.

Module TourResponse.
Record t := mk {
  id : string;
  status : string;
  property_id : string;
  customer_id : string;
  start_at : instant;
  end_at : instant;
  created_at : instant;
  updated_at : instant
}.

Definition from_domain (tour : Tour.t) : t :=
  mk (Tour.id tour) (TourStatus_value (Tour.status tour))
     (Tour.property_id tour) (Tour.customer_id tour) (Tour.start_at tour)
     (Tour.end_at tour) (Tour.created_at tour) (Tour.updated_at tour).
End TourResponse.

Module ToursListResponse.
Record t := mk {
  items : list TourResponse.t;
  page : Z;
  page_size : Z;
  total : Z
}.
End ToursListResponse.

Module TourListQuery.
Record t := mk {
  property_id : option string;
  date : option Z;
  page : Z;
  page_size : Z;
  sort : string
}.

(** The bounds the fields declare: [page >= 1] and [1 <= page_size <= 100].
    The framework builds no query that breaks them. *)
Definition valid (q : t) : bool :=
  (1 <=? page q) && (1 <=? page_size q) && (page_size q <=? 100).
End TourListQuery.

Inductive content :=
| TourContent (body : TourResponse.t)
| ListContent (body : ToursListResponse.t)
| ErrorContent (body : Dict.t string string)
| NoContent.

(** What an endpoint hands to the framework: a response with its status code,
    or an exception that no handler of the application takes. *)
Inductive reply :=
| Response (status_code : Z) (body : content)
| Unhandled (e : error).

(** The exception handler registered for [AppError]. *)
Definition handle_app_error (exc : AppError.t) : reply :=
  Response (AppError.status_code exc) (ErrorContent (AppError.to_dict exc)).

(** An endpoint body that returned or raised. *)
Definition respond {A : Type} (returned : A -> reply) (r : outcome A) : reply :=
  match r with
  | Ok a => returned a
  | Raise e =>
      match as_app_error e with
      | Some exc => handle_app_error exc
      | None => Unhandled e
      end
  end.

Module Endpoint.
(** [POST /v1/tours]: 201 unless the service reports a replay. *)
Definition create_tour (payload : TourCreateRequest.t)
           (idempotency_key : option string) (now now_lookup : instant)
           (uuid_hex : string) (S : InMemoryTourStorage)
  : reply * InMemoryTourStorage :=
  let (r, S') :=
    Service.create_tour (TourCreateRequest.property_id payload)
                        (TourCreateRequest.customer_id payload)
                        (TourCreateRequest.start_at payload)
                        (TourCreateRequest.end_at payload)
                        idempotency_key now now_lookup uuid_hex S in
  (respond (fun '(tour, created) =>
              Response (if negb created then 200 else 201)
                       (TourContent (TourResponse.from_domain tour))) r,
   S').

(** [GET /v1/tours/{tour_id}] *)
Definition get_tour (tour_id : string) (S : InMemoryTourStorage)
  : reply * InMemoryTourStorage :=
  let (r, S') := Service.get_tour tour_id S in
  (respond (fun tour => Response 200 (TourContent (TourResponse.from_domain tour)))
           r, S').

(** [GET /v1/tours] *)
Definition list_tours (query : TourListQuery.t) (S : InMemoryTourStorage)
  : reply * InMemoryTourStorage :=
  let (r, S') :=
    Service.list_tours (TourListQuery.property_id query)
                       (TourListQuery.date query) (TourListQuery.sort query)
                       (TourListQuery.page query)
                       (TourListQuery.page_size query) S in
  (respond (fun '(tours, total) =>
              Response 200
                (ListContent
                   (ToursListResponse.mk (map TourResponse.from_domain tours)
                      (TourListQuery.page query)
                      (TourListQuery.page_size query) total))) r,
   S').

(** [DELETE /v1/tours/{tour_id}] *)
Definition cancel_tour (tour_id : string) (clock : instant)
           (S : InMemoryTourStorage) : reply * InMemoryTourStorage :=
  let (r, S') := Service.cancel_tour tour_id clock S in
  (respond (fun _ => Response 204 NoContent) r, S').
End Endpoint.

(* ================================================================== *)
(** * Vocabulary of the statements *)

(** The record [get_idempotency_record] would hand to a create call that
    supplies [key] and looks it up at [clock]: none for a missing or empty
    key, none once [expires_at <= clock]. *)
Definition live_record (S : InMemoryTourStorage) (key : option string)
           (clock : instant) : option IdempotencyRecord.t :=
  match key with
  | Some (String _ _ as k) =>
      match Dict.get (_idempotency S) k with
      | Some r => if IdempotencyRecord.expires_at r <=? clock then None else Some r
      | None => None
      end
  | _ => None
  end.

(** The count the quota check reads for a customer and a day: an absent
    counter counts 0. *)
Definition rl_count (S : InMemoryTourStorage) (customer : string) (d : date) : Z :=
  match Dict.get (_rate_limits S) (customer, d) with
  | Some c => RateLimitCounter.count c
  | None => 0
  end.

(** The store after the lookup of [key] found nothing live: an expired
    record of the key is gone. *)
Definition purged (S : InMemoryTourStorage) (key : option string)
  : InMemoryTourStorage :=
  match key with
  | Some (String _ _ as k) =>
      mk_storage (_tours S) (Dict.del (_idempotency S) k) (_rate_limits S)
  | _ => S
  end.

Definition cleanup (now : instant) (S : InMemoryTourStorage) : InMemoryTourStorage :=
  snd (Storage.cleanup_rate_limits now S).

Definition counter_of (S : InMemoryTourStorage) (customer : string) (d : date)
  : RateLimitCounter.t :=
  match Dict.get (_rate_limits S) (customer, d) with
  | Some c => c
  | None => RateLimitCounter.mk customer d 0
  end.

Definition ensure_counter (S : InMemoryTourStorage) (customer : string) (d : date)
  : InMemoryTourStorage :=
  match Dict.get (_rate_limits S) (customer, d) with
  | Some _ => S
  | None => mk_storage (_tours S) (_idempotency S)
                       (Dict.set (_rate_limits S) (customer, d)
                                 (RateLimitCounter.mk customer d 0))
  end.

(** The store a create call leaves when it gets as far as the quota check:
    past-day counters dropped, today's counter present. *)
Definition prepared (now : instant) (customer : string) (S : InMemoryTourStorage)
  : InMemoryTourStorage :=
  ensure_counter (cleanup now S) customer (date_of now).

Definition committed (tour : Tour.t) (counter : RateLimitCounter.t)
           (S : InMemoryTourStorage) : InMemoryTourStorage :=
  mk_storage (Dict.set (_tours S) (Tour.id tour) tour) (_idempotency S)
             (Dict.set (_rate_limits S)
                       (RateLimitCounter.customer_id counter,
                        RateLimitCounter.day counter)
                       (RateLimitCounter.increment counter)).

Definition with_record (r : IdempotencyRecord.t) (S : InMemoryTourStorage)
  : InMemoryTourStorage :=
  mk_storage (_tours S) (Dict.set (_idempotency S) (IdempotencyRecord.key r) r)
             (_rate_limits S).

(** Lines 47-51 of [service.py]: the lookup of the idempotency key. *)
Definition lookup_phase (idempotency_key : option string) (fingerprint : string)
           (now_lookup : instant) : M (option IdempotencyRecord.t) :=
  match idempotency_key with
  | Some (String _ _ as key) =>
      record <- Storage.get_idempotency_record key now_lookup ;;
      match record with
      | Some r =>
          if negb (IdempotencyRecord.fingerprint r =? fingerprint)%string
          then raise (ConflictError
                 "idempotency key already used with different parameters")
          else ret record
      | None => ret record
      end
  | _ => ret None
  end.

(** Lines 58-101: quota check, overlap check and commit. *)
Definition commit_phase (property_id customer_id : string)
           (start_at_utc end_at_utc : instant) (idempotency_key : option string)
           (fingerprint : string) (now : instant) (uuid_hex : string)
  : M (Tour.t * bool) :=
  Storage.cleanup_rate_limits now ;;;
  let day_key := date_of now in
  counter <- Service._get_or_create_rate_limit customer_id day_key ;;
  if RateLimitCounter.count counter >=? 3
  then raise (RateLimitError "daily tour creation limit reached")
  else
    Service._ensure_no_overlap property_id start_at_utc end_at_utc ;;;
    let tour := Tour.mk (Service._generate_tour_id uuid_hex) property_id
                        customer_id start_at_utc end_at_utc BOOKED now now in
    Storage.save_tour tour ;;;
    Storage.upsert_rate_limit (RateLimitCounter.increment counter) ;;;
    match idempotency_key with
    | Some (String _ _ as key) =>
        expires_at <- lift (timedelta_add now (timedelta_hours 24)) ;;
        Storage.save_idempotency_record
          (IdempotencyRecord.mk key (Tour.id tour) fingerprint now expires_at)
    | _ => ret tt
    end ;;;
    ret (tour, true).

(** A stored tour blocks a request for [[s, e)] on [pid]: same property, still
    booked, and overlapping as half-open intervals. *)
Definition blocks (pid : string) (s e : instant) (t : Tour.t) : Prop :=
  Tour.property_id t = pid /\ Tour.status t = BOOKED
  /\ Tour.start_at t < e /\ s < Tour.end_at t.

(** The store a successful commit leaves. *)
Definition created_store (key : option string) (fp : string) (now : instant)
           (tour : Tour.t) (customer : string) (S : InMemoryTourStorage)
  : InMemoryTourStorage :=
  let S2 := committed tour (counter_of (cleanup now S) customer (date_of now))
                      (prepared now customer S) in
  match key with
  | Some (String _ _ as k) =>
      with_record (IdempotencyRecord.mk k (Tour.id tour) fp now
                                        (now + timedelta_hours 24)) S2
  | _ => S2
  end.

(** The text holds no ["|"]. *)
Fixpoint no_pipe (s : string) : bool :=
  match s with
  | EmptyString => true
  | String c r => negb (Ascii.eqb c "|") && no_pipe r
  end.

Definition reachable (S : InMemoryTourStorage) : Prop :=
  exists qs, S = snd (run qs new_storage).

(** What every reachable store satisfies: entries sit under the key their
    value names, and an idempotency record points at a stored tour. *)
Record wf (S : InMemoryTourStorage) : Prop := {
  wf_tours : forall k t, Dict.get (_tours S) k = Some t -> Tour.id t = k;
  wf_idempotency : forall k r,
      Dict.get (_idempotency S) k = Some r ->
      IdempotencyRecord.key r = k
      /\ k <> EmptyString
      /\ Dict.get (_tours S) (IdempotencyRecord.tour_id r) <> None;
  wf_rate_limits : forall c d x,
      Dict.get (_rate_limits S) (c, d) = Some x ->
      RateLimitCounter.customer_id x = c /\ RateLimitCounter.day x = d
      /\ 0 <= RateLimitCounter.count x
}.

Definition cancelled_at (t : Tour.t) (clock : instant) : Tour.t :=
  Tour.mk (Tour.id t) (Tour.property_id t) (Tour.customer_id t)
          (Tour.start_at t) (Tour.end_at t) CANCELLED (Tour.created_at t) clock.

(** The identifier the call would mint is not in use: the assumption on the
    environment's [uuid4]. *)
Definition fresh_id (q : request) (S : InMemoryTourStorage) : Prop :=
  match q with
  | Create _ _ _ _ _ _ _ uuid =>
      Dict.get (_tours S) (Service._generate_tour_id uuid) = None
  | _ => True
  end.

Fixpoint fresh_ids (qs : list request) (S : InMemoryTourStorage) : Prop :=
  match qs with
  | [] => True
  | q :: rest => fresh_id q S /\ fresh_ids rest (snd (handle q S))
  end.

Definition is_create (q : request) : Prop :=
  match q with Create _ _ _ _ _ _ _ _ => True | _ => False end.


Definition failure (r : response) : option error :=
  match r with
  | Created (Raise err) | Got (Raise err) | Listed (Raise err)
  | Cancelled (Raise err) => Some err
  | _ => None
  end.

Definition idempotency_conflict : error :=
  ConflictError "idempotency key already used with different parameters".

(** The request is a create call that read the clock as [now]. *)
Definition create_at (q : request) (now : instant) : Prop :=
  match q with
  | Create _ _ _ _ _ now' _ _ => now' = now
  | _ => False
  end.

Definition lookup_at (q : request) (nl : instant) : Prop :=
  match q with
  | Create _ _ _ _ _ _ nl' _ => nl' = nl
  | _ => False
  end.

(** The request is a create call for this property and customer, with this
    key and these clock readings. *)
Definition create_with (q : request) (pid cid : string) (k : string)
           (now nl : instant) : Prop :=
  match q with
  | Create pid' cid' _ _ key now' nl' _ =>
      pid' = pid /\ cid' = cid /\ key = Some k /\ now' = now /\ nl' = nl
  | _ => False
  end.

(** What the listing keeps: the property filter applies when a non-empty
    property id is given, the date filter when a day is given. *)
Definition keeps (property_id : option string) (date_filter : option date)
           (t : Tour.t) : bool :=
  match property_id with
  | Some (String _ _ as p) => (Tour.property_id t =? p)%string
  | _ => true
  end
  && match date_filter with
     | Some d =>
         (Tour.start_at t <? (d + 1) * US_PER_DAY)
         && (d * US_PER_DAY <? Tour.end_at t)
     | None => true
     end.

(** A day of Python's [date] other than the last one, 9999-12-31. *)
Definition before_last_day (d : date) : Prop := 0 <= d < MAXORDINAL - 1.

Definition same_key (c : string) (d : date) (c' : string) (d' : date) : bool :=
  (c =? c')%string && (d =? d').

(** The answer is a fresh booking. *)
Definition created (r : outcome (Tour.t * bool)) : bool :=
  match r with
  | Ok (_, true) => true
  | _ => false
  end.

(** The request is a create call of customer [c] that read the clock on day
    [d], and it was answered with a fresh booking. *)
Definition booked_for (c : string) (d : date) (q : request) (r : response) : bool :=
  match q, r with
  | Create _ cid _ _ _ now _ _, Created o =>
      created o && same_key cid (date_of now) c d
  | _, _ => false
  end.

(** The number of fresh bookings of customer [c] on day [d] in a run. *)
Fixpoint bookings (c : string) (d : date) (qs : list request)
         (rs : list response) : Z :=
  match qs, rs with
  | q :: qs', r :: rs' =>
      (if booked_for c d q r then 1 else 0) + bookings c d qs' rs'
  | _, _ => 0
  end.


(** The order the listing sorts by: ascending in the key, descending when
    [reverse] is set. *)
Definition in_order {A : Type} (key : A -> Z) (reverse : bool) (a b : A) : Prop :=
  if reverse then key b <= key a else key a <= key b.

(** No two different stored tours of one property are booked for
    overlapping intervals. *)
Definition no_double_booking (S : InMemoryTourStorage) : Prop :=
  forall k1 k2 t1 t2,
    k1 <> k2 ->
    Dict.get (_tours S) k1 = Some t1 ->
    Dict.get (_tours S) k2 = Some t2 ->
    Tour.property_id t1 = Tour.property_id t2 ->
    Tour.status t1 = BOOKED -> Tour.status t2 = BOOKED ->
    overlaps (Tour.start_at t1) (Tour.end_at t1)
             (Tour.start_at t2) (Tour.end_at t2) = false.

(** What holds of every tour the service stores: a non-empty interval of
    representable instants, and no update before a cancellation. *)
Definition sound_tour (t : Tour.t) : Prop :=
  Tour.start_at t < Tour.end_at t
  /\ in_range (Tour.start_at t) = true /\ in_range (Tour.end_at t) = true
  /\ (Tour.status t = BOOKED -> Tour.updated_at t = Tour.created_at t).

(** The tours a listing ranges over: those the filters keep, sorted by
    [start_at], descending when [reverse] is set. *)
Definition listing (property_id : option string) (date_filter : option date)
           (reverse : bool) (S : InMemoryTourStorage) : list Tour.t :=
  list_sort Tour.start_at reverse
            (filter (keeps property_id date_filter) (Dict.values (_tours S))).

(** The two sort texts the listing accepts. *)
Definition sort_text (reverse : bool) : string :=
  if reverse then "-start_at" else "start_at".

(** The items of one page of a listing; none when the call fails. *)
Definition page_items (property_id : option string) (date_filter : option date)
           (sort : string) (page page_size : Z) (S : InMemoryTourStorage)
  : list Tour.t :=
  match fst (Service.list_tours property_id date_filter sort page page_size S) with
  | Ok (items, _) => items
  | Raise _ => []
  end.


(** Two aware datetimes that denote one instant. *)
Definition same_instant (a b : datetime) : Prop :=
  match tzinfo a, tzinfo b with
  | Some offset_a, Some offset_b => wall a - offset_a = wall b - offset_b
  | _, _ => False
  end.

(** Every idempotency record points at a stored tour and holds the
    fingerprint of that tour's own property, customer and interval. *)
Definition records_match (S : InMemoryTourStorage) : Prop :=
  forall k r,
    Dict.get (_idempotency S) k = Some r ->
    exists t,
      Dict.get (_tours S) (IdempotencyRecord.tour_id r) = Some t
      /\ IdempotencyRecord.fingerprint r
         = Service._fingerprint (Tour.property_id t) (Tour.customer_id t)
                                (Tour.start_at t) (Tour.end_at t).

(* ------------------------------------------------------------------ *)
(** ** The calendar, backwards *)

(** [datetime._is_leap] and [datetime._ymd2ord] of the standard library, the
    inverse of [ord2ymd] (with days counted from 0). *)
Definition is_leap (y : Z) : bool :=
  (y mod 4 =? 0) && (negb (y mod 100 =? 0) || (y mod 400 =? 0)).

Definition ymd2ord (y m d : Z) : Z :=
  365 * (y - 1) + (y - 1) / 4 - (y - 1) / 100 + (y - 1) / 400
  + DAYS_BEFORE_MONTH m + (if (2 <? m) && is_leap y then 1 else 0) + d - 1.

(** The month and the day that [ord2ymd] gives to day [r] of a year, counted
    from 0, of a leap year or not. *)
Definition md (leap : bool) (r : Z) : Z * Z :=
  let month := Z.shiftr (r + 50) 5 in
  let preceding :=
    DAYS_BEFORE_MONTH month + (if (2 <? month) && leap then 1 else 0) in
  if r <? preceding then
    let month' := month - 1 in
    let preceding' :=
      preceding - (DAYS_IN_MONTH month'
                   + (if (month' =? 2) && leap then 1 else 0)) in
    (month', r - preceding' + 1)
  else (month, r - preceding + 1).

(* ------------------------------------------------------------------ *)
(** ** Scenarios *)

(** An aware datetime given in UTC. *)
Definition utc (t : instant) : datetime := mk_datetime t (Some 0).

(** 2024-01-01T00:00:00Z, and offsets from it. *)
Definition T0 : instant := 738885 * US_PER_DAY.

Definition minutes (m : Z) : Z := m * 60 * US_PER_SECOND.

(** Four bookings made on 2024-01-01: three by customer [C1], on three
    properties, and one by [C2] on [P1] for 10:00-10:30. *)
Definition busy_day : list request :=
  [ Create "P2" "C1" (utc (T0 + minutes 600)) (utc (T0 + minutes 630)) None
           T0 T0 "10000000000000000000000000000000";
    Create "P3" "C1" (utc (T0 + minutes 600)) (utc (T0 + minutes 630)) None
           T0 T0 "20000000000000000000000000000000";
    Create "P4" "C1" (utc (T0 + minutes 600)) (utc (T0 + minutes 630)) None
           T0 T0 "30000000000000000000000000000000";
    Create "P1" "C2" (utc (T0 + minutes 600)) (utc (T0 + minutes 630)) None
           T0 T0 "40000000000000000000000000000000" ].

Definition busy_store : InMemoryTourStorage := snd (run busy_day new_storage).

Definition keyed_request (now nl : instant) (uuid : string) : request :=
  Create "P1" "C1" (utc (T0 + minutes 600)) (utc (T0 + minutes 630))
         (Some "K") now nl uuid.

Definition keyed_tour : Tour.t :=
  Tour.mk "tour_0123456789ab" "P1" "C1" (T0 + minutes 600) (T0 + minutes 630)
          BOOKED T0 T0.

Definition piped_first : request :=
  Create "a|b" "c" (utc (T0 + minutes 600)) (utc (T0 + minutes 630)) (Some "K")
         T0 T0 "0123456789abcdef0123456789abcdef".

Definition piped_second : request :=
  Create "a" "b|c" (utc (T0 + minutes 600)) (utc (T0 + minutes 630)) (Some "K")
         (T0 + minutes 1) (T0 + minutes 1) "fedcba9876543210fedcba9876543210".

Definition cancelled_keyed_store : InMemoryTourStorage :=
  snd (run [ keyed_request T0 T0 "0123456789abcdef0123456789abcdef";
             Cancel "tour_0123456789ab" (T0 + minutes 5) ]
           new_storage).

Definition blocked_request : request :=
  Create "P1" "C3" (utc (T0 + minutes 610)) (utc (T0 + minutes 640)) None
         T0 T0 "50000000000000000000000000000000".

Definition quota_day : list request :=
  [ Create "P1" "C1" (utc (T0 + minutes 600)) (utc (T0 + minutes 630)) None
           T0 T0 "10000000000000000000000000000000";
    Create "P2" "C1" (utc (T0 + minutes 600)) (utc (T0 + minutes 630)) None
           (T0 + minutes 1) (T0 + minutes 1) "20000000000000000000000000000000";
    Create "P3" "C1" (utc (T0 + minutes 600)) (utc (T0 + minutes 630)) None
           (T0 + minutes 2) (T0 + minutes 2) "30000000000000000000000000000000";
    Create "P4" "C1" (utc (T0 + minutes 600)) (utc (T0 + minutes 630)) None
           (T0 + minutes 3) (T0 + minutes 3) "40000000000000000000000000000000" ].

(* ================================================================== *)
(** * Properties *)

(** ** Dictionaries *)

Section DictFacts.
Context {K V : Type} `{KeyEq K}.
Implicit Types (d : Dict.t K V) (k : K) (v : V).

Lemma keqb_refl k : keqb k k = true.
Proof. apply keqb_eq; reflexivity. Qed.

Lemma keqb_neq k k' : k <> k' -> keqb k k' = false.
Proof.
  intros Hn. destruct (keqb k k') eqn:E; [|reflexivity].
  apply keqb_eq in E. contradiction.
Qed.

Lemma keqb_true k k' : keqb k k' = true -> k = k'.
Proof. apply keqb_eq. Qed.

Lemma get_set_same d k v : Dict.get (Dict.set d k v) k = Some v.
Proof.
  induction d as [|[k' v'] r IH]; simpl.
  - now rewrite keqb_refl.
  - destruct (keqb k' k) eqn:E; simpl; rewrite E; auto.
Qed.

Lemma get_set_other d k k' v :
  k <> k' -> Dict.get (Dict.set d k v) k' = Dict.get d k'.
Proof.
  intros Hn. induction d as [|[k0 v0] r IH]; simpl.
  - now rewrite keqb_neq.
  - destruct (keqb k0 k) eqn:E; simpl.
    + apply keqb_true in E; subst k0. now rewrite !(keqb_neq _ _ Hn).
    + now rewrite IH.
Qed.

Lemma get_del_same d k : Dict.get (Dict.del d k) k = None.
Proof.
  induction d as [|[k' v'] r IH]; simpl; auto.
  destruct (keqb k' k) eqn:E; simpl; auto. now rewrite E.
Qed.

Lemma get_del_other d k k' :
  k <> k' -> Dict.get (Dict.del d k) k' = Dict.get d k'.
Proof.
  intros Hn. induction d as [|[k0 v0] r IH]; simpl; auto.
  destruct (keqb k0 k) eqn:E; simpl.
  - apply keqb_true in E; subst k0. now rewrite keqb_neq.
  - now rewrite IH.
Qed.

Lemma set_get_noop d k v : Dict.get d k = Some v -> Dict.set d k v = d.
Proof.
  induction d as [|[k' v'] r IH]; simpl; [discriminate|].
  destruct (keqb k' k) eqn:E.
  - intros [= ->]. reflexivity.
  - intros Hg. now rewrite IH.
Qed.

Lemma del_absent d k : Dict.get d k = None -> Dict.del d k = d.
Proof.
  induction d as [|[k' v'] r IH]; simpl; auto.
  destruct (keqb k' k) eqn:E; [discriminate|].
  intros Hg. now rewrite IH.
Qed.

Lemma get_None_keys d k : Dict.get d k = None <-> ~ In k (Dict.keys d).
Proof.
  induction d as [|[k' v'] r IH]; simpl.
  - tauto.
  - destruct (keqb k' k) eqn:E.
    + apply keqb_true in E. split; [discriminate | intros Hn; exfalso; auto].
    + rewrite IH. split; [intros Hn [->|Hi]; [|auto] | tauto].
      now rewrite keqb_refl in E.
Qed.

Lemma get_Some_keys d k v : Dict.get d k = Some v -> In k (Dict.keys d).
Proof.
  intros G. destruct (get_None_keys d k) as [_ Hn].
  induction d as [|[k' v'] r IH]; simpl in *; [discriminate|].
  destruct (keqb k' k) eqn:E.
  - left. now apply keqb_true.
  - right. apply IH; auto.
    intros Hk. apply get_None_keys in Hk. congruence.
Qed.

Lemma values_set_fresh d k v :
  Dict.get d k = None -> Dict.values (Dict.set d k v) = Dict.values d ++ [v].
Proof.
  unfold Dict.values. induction d as [|[k' v'] r IH]; simpl; auto.
  destruct (keqb k' k) eqn:E; [discriminate|].
  intros Hg. simpl. now rewrite IH.
Qed.

Lemma get_fold_del (ks : list K) d k :
  Dict.get (fold_left (fun d key => Dict.del d key) ks d) k
  = if existsb (fun key => keqb key k) ks then None else Dict.get d k.
Proof.
  revert d. induction ks as [|k0 ks IH]; intros d; simpl; auto.
  rewrite IH. destruct (keqb k0 k) eqn:E; simpl.
  - apply keqb_true in E; subst k0. rewrite get_del_same.
    now destruct (existsb _ ks).
  - rewrite get_del_other; [reflexivity|].
    intros ->. now rewrite keqb_refl in E.
Qed.
End DictFacts.

(* ------------------------------------------------------------------ *)
(** ** The stages of [create_tour] *)

(** What a store holds, read without side effects. *)

Lemma create_tour_phases pid cid sa ea key now nl uuid :
  Service.create_tour pid cid sa ea key now nl uuid =
  (s <- lift (ensure_utc sa "start_at") ;;
   e <- lift (ensure_utc ea "end_at") ;;
   if s >=? e
   then raise (BadRequestError "end_at must be after start_at" (Some "end_at"))
   else
     record <- lookup_phase key (Service._fingerprint pid cid s e) nl ;;
     existing <- match record with
                 | Some r => Storage.get_tour (IdempotencyRecord.tour_id r)
                 | None => ret None
                 end ;;
     match existing with
     | Some existing => ret (existing, false)
     | None => commit_phase pid cid s e key (Service._fingerprint pid cid s e)
                            now uuid
     end).
Proof. reflexivity. Qed.

Lemma storage_eta S : mk_storage (_tours S) (_idempotency S) (_rate_limits S) = S.
Proof. now destruct S. Qed.

Lemma lookup_phase_spec key fp nl S :
  lookup_phase key fp nl S =
  match live_record S key nl with
  | Some r =>
      if negb (IdempotencyRecord.fingerprint r =? fp)%string
      then (Raise (ConflictError
              "idempotency key already used with different parameters"), S)
      else (Ok (Some r), S)
  | None => (Ok None, purged S key)
  end.
Proof.
  unfold lookup_phase, live_record, purged.
  destruct key as [[|a k]|]; try reflexivity.
  unfold bind, Storage.get_idempotency_record.
  destruct (Dict.get (_idempotency S) (String a k)) as [r|] eqn:G.
  - destruct (IdempotencyRecord.expires_at r <=? nl); [reflexivity|].
    now destruct (negb _).
  - rewrite (del_absent _ _ G), storage_eta. reflexivity.
Qed.

Lemma get_cleanup now S c d :
  Dict.get (_rate_limits (cleanup now S)) (c, d)
  = if d <? date_of now then None else Dict.get (_rate_limits S) (c, d).
Proof.
  unfold cleanup, Storage.cleanup_rate_limits; simpl.
  rewrite get_fold_del.
  destruct (existsb _ _) eqn:E.
  - apply existsb_exists in E. destruct E as [k0 [Hin Hk]].
    apply keqb_true in Hk; subst k0.
    apply filter_In in Hin. destruct Hin as [_ Hlt]. simpl in Hlt.
    now rewrite Hlt.
  - destruct (d <? date_of now) eqn:L; [|reflexivity].
    destruct (Dict.get (_rate_limits S) (c, d)) eqn:G; [|reflexivity].
    exfalso.
    assert (Hin := get_Some_keys _ _ _ G).
    assert (Hex : existsb (fun key => keqb key (c, d))
              (filter (fun key : string * Z => snd key <? date_of now)
                      (Dict.keys (_rate_limits S))) = true).
    { apply existsb_exists. exists (c, d). split; [|apply keqb_refl].
      apply filter_In. split; [exact Hin | exact L]. }
    congruence.
Qed.

Lemma get_or_create_spec c d S :
  Service._get_or_create_rate_limit c d S = (Ok (counter_of S c d), ensure_counter S c d).
Proof.
  unfold Service._get_or_create_rate_limit, counter_of, ensure_counter, bind,
    Storage.get_rate_limit, Storage.upsert_rate_limit, ret; simpl.
  now destruct (Dict.get (_rate_limits S) (c, d)).
Qed.

Lemma tours_cleanup now S : _tours (cleanup now S) = _tours S.
Proof. reflexivity. Qed.

Lemma idempotency_cleanup now S : _idempotency (cleanup now S) = _idempotency S.
Proof. reflexivity. Qed.

Lemma tours_ensure_counter S c d : _tours (ensure_counter S c d) = _tours S.
Proof. unfold ensure_counter. now destruct (Dict.get _ _). Qed.

Lemma idempotency_ensure_counter S c d :
  _idempotency (ensure_counter S c d) = _idempotency S.
Proof. unfold ensure_counter. now destruct (Dict.get _ _). Qed.

Lemma tours_prepared now c S : _tours (prepared now c S) = _tours S.
Proof. unfold prepared. now rewrite tours_ensure_counter. Qed.

Lemma idempotency_prepared now c S : _idempotency (prepared now c S) = _idempotency S.
Proof. unfold prepared. now rewrite idempotency_ensure_counter. Qed.

Lemma tours_purged S key : _tours (purged S key) = _tours S.
Proof. now destruct key as [[|? ?]|]. Qed.

Lemma rate_limits_purged S key : _rate_limits (purged S key) = _rate_limits S.
Proof. now destruct key as [[|? ?]|]. Qed.

(** The counter the quota check reads is the stored one: the cleanup before it
    only drops earlier days. *)
Lemma count_today now S c :
  RateLimitCounter.count (counter_of (cleanup now S) c (date_of now))
  = rl_count S c (date_of now).
Proof.
  unfold counter_of, rl_count. rewrite get_cleanup, Z.ltb_irrefl.
  now destruct (Dict.get _ _).
Qed.

Lemma commit_phase_spec pid cid s e key fp now uuid S :
  commit_phase pid cid s e key fp now uuid S =
  let S1 := prepared now cid S in
  let counter := counter_of (cleanup now S) cid (date_of now) in
  if RateLimitCounter.count counter >=? 3
  then (Raise (RateLimitError "daily tour creation limit reached"), S1)
  else
    match Service._ensure_no_overlap_loop (Dict.values (_tours S)) pid s e with
    | Raise err => (Raise err, S1)
    | Ok _ =>
        let tour := Tour.mk (Service._generate_tour_id uuid) pid cid s e
                            BOOKED now now in
        let S2 := committed tour counter S1 in
        match key with
        | Some (String _ _ as k) =>
            match timedelta_add now (timedelta_hours 24) with
            | Raise err => (Raise err, S2)
            | Ok expires_at =>
                (Ok (tour, true),
                 with_record (IdempotencyRecord.mk k (Tour.id tour) fp now
                                                   expires_at) S2)
            end
        | _ => (Ok (tour, true), S2)
        end
    end.
Proof.
  unfold commit_phase, bind.
  change (Storage.cleanup_rate_limits now S) with (Ok tt, cleanup now S).
  cbv iota beta. rewrite get_or_create_spec.
  change (ensure_counter (cleanup now S) cid (date_of now)) with (prepared now cid S).
  cbv zeta.
  destruct (RateLimitCounter.count _ >=? 3); [reflexivity|].
  unfold Service._ensure_no_overlap, bind, Storage.list_tours, lift.
  rewrite tours_prepared.
  destruct (Service._ensure_no_overlap_loop _ pid s e); [|reflexivity].
  destruct key as [[|c0 k]|]; try reflexivity.
  simpl. now destruct (timedelta_add now _).
Qed.

(** *** The overlap scan *)

Lemma TourStatus_eqb_eq a b : TourStatus_eqb a b = true <-> a = b.
Proof. destruct a, b; simpl; split; congruence. Qed.

Lemma overlaps_iff a b c d : overlaps a b c d = true <-> a < d /\ c < b.
Proof. unfold overlaps. rewrite andb_true_iff, !Z.ltb_lt. tauto. Qed.

Lemma ensure_no_overlap_loop_cases tours pid s e :
  (Service._ensure_no_overlap_loop tours pid s e
   = Raise (ConflictError "overlapping tour for property")
   /\ exists t, In t tours /\ blocks pid s e t)
  \/ (Service._ensure_no_overlap_loop tours pid s e = Ok tt
      /\ forall t, In t tours -> ~ blocks pid s e t).
Proof.
  induction tours as [|t r IH]; simpl.
  - right. split; [reflexivity | intros ? []].
  - assert (Hskip : ~ blocks pid s e t ->
      (Service._ensure_no_overlap_loop r pid s e
       = Raise (ConflictError "overlapping tour for property")
       /\ exists t0, In t0 (t :: r) /\ blocks pid s e t0)
      \/ (Service._ensure_no_overlap_loop r pid s e = Ok tt
          /\ forall t0, In t0 (t :: r) -> ~ blocks pid s e t0)).
    { intros Hn. destruct IH as [[E [t0 [Hi Hb]]]|[E Hall]].
      - left. split; [exact E|]. exists t0. split; [now right | exact Hb].
      - right. split; [exact E|]. intros t0 [<-|Hi]; auto. }
    destruct (Tour.property_id t =? pid)%string eqn:Ep; simpl.
    + destruct (TourStatus_eqb (Tour.status t) BOOKED) eqn:Es; simpl.
      * destruct (overlaps _ _ s e) eqn:Eo.
        -- left. split; [reflexivity|]. exists t. split; [now left|].
           apply String.eqb_eq in Ep. apply TourStatus_eqb_eq in Es.
           apply overlaps_iff in Eo. unfold blocks. tauto.
        -- apply Hskip. intros (_ & _ & H1 & H2).
           assert (overlaps (Tour.start_at t) (Tour.end_at t) s e = true)
             by (apply overlaps_iff; tauto).
           congruence.
      * apply Hskip. intros (_ & H1 & _). apply TourStatus_eqb_eq in H1. congruence.
    + apply Hskip. intros (H1 & _). apply String.eqb_eq in H1. congruence.
Qed.

(* ------------------------------------------------------------------ *)
(** ** Overlap conflicts (C1) *)

Lemma geb_false_of_lt a b : a < b -> (a >=? b) = false.
Proof. intros. rewrite Z.geb_leb. apply Z.leb_gt. exact H. Qed.

(** A create call that passed validation and found no live idempotency record
    runs the commit stage on the store the lookup left. *)
Lemma create_tour_fresh pid cid sa ea key now nl uuid s e S :
  ensure_utc sa "start_at" = Ok s ->
  ensure_utc ea "end_at" = Ok e ->
  s < e ->
  live_record S key nl = None ->
  Service.create_tour pid cid sa ea key now nl uuid S
  = commit_phase pid cid s e key (Service._fingerprint pid cid s e) now uuid
                 (purged S key).
Proof.
  intros Hs He Hlt Hlive. rewrite create_tour_phases.
  unfold bind at 1. unfold lift at 1. rewrite Hs.
  unfold bind at 1. unfold lift at 1. rewrite He.
  rewrite (geb_false_of_lt _ _ Hlt).
  unfold bind at 1. rewrite lookup_phase_spec, Hlive.
  reflexivity.
Qed.

(** C1, as the code has it.  For every create call that passes validation,
    finds no unexpired idempotency record for its key and whose customer is
    below the daily quota: the call fails with a conflict if and only if some
    stored tour has the same property, status Booked and a half-open overlap
    with the requested interval, and the conflict is then the overlap
    conflict.  Tours of other properties, cancelled tours and tours that only
    touch the requested interval are none of these, so they never cause it. *)
Theorem create_conflict_iff_overlap :
  forall S pid cid sa ea key now nl uuid s e,
    ensure_utc sa "start_at" = Ok s ->
    ensure_utc ea "end_at" = Ok e ->
    s < e ->
    live_record S key nl = None ->
    rl_count S cid (date_of now) < 3 ->
    ((exists msg, fst (Service.create_tour pid cid sa ea key now nl uuid S)
                  = Raise (ConflictError msg))
     <-> (exists t, In t (Dict.values (_tours S)) /\ blocks pid s e t))
    /\ (forall msg, fst (Service.create_tour pid cid sa ea key now nl uuid S)
                    = Raise (ConflictError msg) ->
                    msg = "overlapping tour for property").
Proof.
  intros S pid cid sa ea key now nl uuid s e Hs He Hlt Hlive Hq.
  rewrite (@create_tour_fresh pid cid sa ea key now nl uuid s e S Hs He Hlt Hlive).
  rewrite commit_phase_spec. cbv zeta.
  assert (Hc : (RateLimitCounter.count
                  (counter_of (cleanup now (purged S key)) cid (date_of now))
                >=? 3) = false).
  { rewrite count_today. unfold rl_count in *. rewrite rate_limits_purged.
    apply geb_false_of_lt. exact Hq. }
  rewrite Hc, tours_purged.
  destruct (ensure_no_overlap_loop_cases (Dict.values (_tours S)) pid s e)
    as [[E Hex]|[E Hall]]; rewrite E.
  - split.
    + split; [intros _; exact Hex | intros _; eexists; reflexivity].
    + simpl. intros msg [= <-]. reflexivity.
  - split; [split; [intros [msg Hm]; exfalso
                    | intros [t [Hi Hb]]; exfalso; exact (Hall t Hi Hb)]
           | intros msg Hm; exfalso];
      destruct key as [[|c0 k]|]; simpl in Hm; try discriminate;
      unfold timedelta_add in Hm; destruct (in_range _); simpl in Hm; discriminate.
Qed.

(** C1 fails as stated: [C1] asks, without an idempotency key, for 10:10-10:40
    on [P1], which overlaps the booked tour of [C2]; the call is refused for
    the quota, not with a conflict. *)
Lemma create_conflict_iff_overlap_counterexample :
  let call := Service.create_tour "P1" "C1" (utc (T0 + minutes 610))
                (utc (T0 + minutes 640)) None T0 T0
                "50000000000000000000000000000000" in
  fst (call busy_store) = Raise (RateLimitError "daily tour creation limit reached")
  /\ ~ ((exists msg, fst (call busy_store) = Raise (ConflictError msg))
        <-> (exists t, In t (Dict.values (_tours busy_store))
                       /\ blocks "P1" (T0 + minutes 610) (T0 + minutes 640) t)).
Proof.
  split; [vm_compute; reflexivity|].
  intros [_ Hback].
  destruct Hback as [msg Hm].
  - exists (Tour.mk "tour_400000000000" "P1" "C2" (T0 + minutes 600)
                    (T0 + minutes 630) BOOKED T0 T0).
    split; [vm_compute; tauto|].
    unfold blocks; simpl. repeat split; reflexivity.
  - vm_compute in Hm. discriminate.
Qed.

Lemma create_conflict_iff_overlap_witness :
  let S := busy_store in
  let s := T0 + minutes 610 in
  let e := T0 + minutes 640 in
  (ensure_utc (utc s) "start_at" = Ok s /\ ensure_utc (utc e) "end_at" = Ok e
   /\ s < e /\ live_record S None T0 = None /\ rl_count S "C3" (date_of T0) < 3)
  /\ ((exists msg, fst (Service.create_tour "P1" "C3" (utc s) (utc e) None T0 T0
                          "50000000000000000000000000000000" S)
                   = Raise (ConflictError msg))
      <-> (exists t, In t (Dict.values (_tours S)) /\ blocks "P1" s e t)).
Proof.
  cbv zeta.
  assert (H1 : ensure_utc (utc (T0 + minutes 610)) "start_at" = Ok (T0 + minutes 610))
    by reflexivity.
  assert (H2 : ensure_utc (utc (T0 + minutes 640)) "end_at" = Ok (T0 + minutes 640))
    by reflexivity.
  assert (H3 : T0 + minutes 610 < T0 + minutes 640) by reflexivity.
  assert (H4 : live_record busy_store None T0 = None) by reflexivity.
  assert (H5 : rl_count busy_store "C3" (date_of T0) < 3) by reflexivity.
  split; [tauto|].
  exact (proj1 (@create_conflict_iff_overlap busy_store "P1" "C3" _ _ None T0 T0
                  "50000000000000000000000000000000" _ _ H1 H2 H3 H4 H5)).
Defined.

(* ------------------------------------------------------------------ *)
(** ** What a create call does, case by case *)

Lemma create_tour_spec pid cid sa ea key now nl uuid S :
  Service.create_tour pid cid sa ea key now nl uuid S =
  match ensure_utc sa "start_at" with
  | Raise err => (Raise err, S)
  | Ok s =>
      match ensure_utc ea "end_at" with
      | Raise err => (Raise err, S)
      | Ok e =>
          if s >=? e
          then (Raise (BadRequestError "end_at must be after start_at"
                                       (Some "end_at")), S)
          else
            let fp := Service._fingerprint pid cid s e in
            match live_record S key nl with
            | Some r =>
                if negb (IdempotencyRecord.fingerprint r =? fp)%string
                then (Raise (ConflictError
                        "idempotency key already used with different parameters"),
                      S)
                else
                  match Dict.get (_tours S) (IdempotencyRecord.tour_id r) with
                  | Some existing => (Ok (existing, false), S)
                  | None => commit_phase pid cid s e key fp now uuid S
                  end
            | None => commit_phase pid cid s e key fp now uuid (purged S key)
            end
      end
  end.
Proof.
  rewrite create_tour_phases.
  unfold bind at 1. unfold lift at 1.
  destruct (ensure_utc sa "start_at") as [s|err]; [|reflexivity].
  unfold bind at 1. unfold lift at 1.
  destruct (ensure_utc ea "end_at") as [e|err]; [|reflexivity].
  destruct (s >=? e); [reflexivity|].
  unfold bind at 1. rewrite lookup_phase_spec. cbv zeta.
  destruct (live_record S key nl) as [r|]; [|reflexivity].
  destruct (negb _); [reflexivity|].
  unfold bind, Storage.get_tour.
  now destruct (Dict.get (_tours S) (IdempotencyRecord.tour_id r)).
Qed.

Lemma timedelta_add_Ok t d x : timedelta_add t d = Ok x -> x = t + d.
Proof. unfold timedelta_add. destruct (in_range _); congruence. Qed.

Lemma timedelta_add_Raise t d err : timedelta_add t d = Raise err -> err = OverflowError.
Proof. unfold timedelta_add. destruct (in_range _); congruence. Qed.

Lemma commit_phase_Ok pid cid s e key fp now uuid S t b S1 :
  commit_phase pid cid s e key fp now uuid S = (Ok (t, b), S1) ->
  b = true
  /\ t = Tour.mk (Service._generate_tour_id uuid) pid cid s e BOOKED now now
  /\ rl_count S cid (date_of now) < 3
  /\ (forall t', In t' (Dict.values (_tours S)) -> ~ blocks pid s e t')
  /\ S1 = created_store key fp now t cid S.
Proof.
  rewrite commit_phase_spec. cbv zeta. rewrite count_today.
  destruct (rl_count S cid (date_of now) >=? 3) eqn:Hq; [discriminate|].
  rewrite Z.geb_leb in Hq. apply Z.leb_gt in Hq.
  destruct (ensure_no_overlap_loop_cases (Dict.values (_tours S)) pid s e)
    as [[E _]|[E Hall]]; rewrite E; [discriminate|].
  unfold created_store.
  destruct key as [[|c0 k]|].
  - intros [= <- <- <-]. auto.
  - destruct (timedelta_add now (timedelta_hours 24)) as [x|err] eqn:Ex;
      [|discriminate].
    apply timedelta_add_Ok in Ex. subst x.
    intros [= <- <- <-]. auto 6.
  - intros [= <- <- <-]. auto.
Qed.

(** Every error a failing commit stage raises. *)
Lemma commit_phase_Raise pid cid s e key fp now uuid S err S1 :
  commit_phase pid cid s e key fp now uuid S = (Raise err, S1) ->
  (err = RateLimitError "daily tour creation limit reached"
   /\ 3 <= rl_count S cid (date_of now) /\ S1 = prepared now cid S)
  \/ (err = ConflictError "overlapping tour for property"
      /\ rl_count S cid (date_of now) < 3
      /\ (exists t, In t (Dict.values (_tours S)) /\ blocks pid s e t)
      /\ S1 = prepared now cid S)
  \/ (err = OverflowError
      /\ truthy key = true
      /\ in_range (now + timedelta_hours 24) = false
      /\ S1 = committed (Tour.mk (Service._generate_tour_id uuid) pid cid s e
                                 BOOKED now now)
                        (counter_of (cleanup now S) cid (date_of now))
                        (prepared now cid S)).
Proof.
  rewrite commit_phase_spec. cbv zeta. rewrite count_today.
  destruct (rl_count S cid (date_of now) >=? 3) eqn:Hq.
  - rewrite Z.geb_leb in Hq. apply Z.leb_le in Hq.
    intros [= <- <-]. left. auto.
  - rewrite Z.geb_leb in Hq. apply Z.leb_gt in Hq.
    destruct (ensure_no_overlap_loop_cases (Dict.values (_tours S)) pid s e)
      as [[E Hex]|[E Hall]]; rewrite E.
    + intros [= <- <-]. right; left. auto.
    + destruct key as [[|c0 k]|]; try discriminate.
      unfold timedelta_add.
      destruct (in_range (now + timedelta_hours 24)) eqn:Er; [discriminate|].
      intros [= <- <-]. right; right. auto.
Qed.

(* ------------------------------------------------------------------ *)
(** ** Idempotent replay (C2) *)

Lemma tours_created_store key fp now t c S :
  _tours (created_store key fp now t c S) = Dict.set (_tours S) (Tour.id t) t.
Proof.
  unfold created_store, committed, with_record.
  destruct key as [[|c0 k]|]; simpl; now rewrite tours_prepared.
Qed.

Lemma idempotency_created_store c0 k fp now t c S :
  _idempotency (created_store (Some (String c0 k)) fp now t c S)
  = Dict.set (_idempotency S) (String c0 k)
             (IdempotencyRecord.mk (String c0 k) (Tour.id t) fp now
                                   (now + timedelta_hours 24)).
Proof.
  unfold created_store, committed, with_record. simpl.
  now rewrite idempotency_prepared.
Qed.

(** After a create with key [k] has committed, the same request with the same
    key is answered from the record as long as the lookup precedes the expiry. *)
Lemma replay_once pid cid sa ea c0 k now nl uuid S t S1 now' nl' uuid' :
  Service.create_tour pid cid sa ea (Some (String c0 k)) now nl uuid S
  = (Ok (t, true), S1) ->
  nl' < now + timedelta_hours 24 ->
  Service.create_tour pid cid sa ea (Some (String c0 k)) now' nl' uuid' S1
  = (Ok (t, false), S1).
Proof.
  intros Hfirst Hnl.
  rewrite create_tour_spec in Hfirst. rewrite create_tour_spec.
  destruct (ensure_utc sa "start_at") as [s|]; [|discriminate].
  destruct (ensure_utc ea "end_at") as [e|]; [|discriminate].
  destruct (s >=? e); [discriminate|]. cbv zeta in *.
  set (fp := Service._fingerprint pid cid s e) in *.
  assert (Hc : exists S0, S1 = created_store (Some (String c0 k)) fp now t cid S0).
  { destruct (live_record S (Some (String c0 k)) nl) as [r|].
    - destruct (negb _); [discriminate|].
      destruct (Dict.get (_tours S) (IdempotencyRecord.tour_id r));
        [discriminate|].
      apply commit_phase_Ok in Hfirst. destruct Hfirst as (_ & _ & _ & _ & ->).
      eexists; reflexivity.
    - apply commit_phase_Ok in Hfirst. destruct Hfirst as (_ & _ & _ & _ & ->).
      eexists; reflexivity. }
  destruct Hc as [S0 ->].
  unfold live_record. rewrite idempotency_created_store, get_set_same.
  cbn [IdempotencyRecord.expires_at IdempotencyRecord.fingerprint
       IdempotencyRecord.tour_id].
  destruct (now + timedelta_hours 24 <=? nl') eqn:Hx;
    [apply Z.leb_le in Hx; lia|].
  rewrite String.eqb_refl. cbn [negb].
  now rewrite tours_created_store, get_set_same.
Qed.

(** C2, as the code has it.  When a create call that supplies a non-empty
    idempotency key succeeds with [wasCreated = true], every later call with
    the same key and the same parameters whose lookup precedes the expiry of
    the record (24 hours after the first call's clock reading) returns the very
    same tour with [wasCreated = false] and leaves the store exactly as the
    first call left it: no quota is consumed and the overlap check, which the
    first booking itself would fail, does not run. *)
Theorem idempotent_replay :
  forall pid cid sa ea c0 k now nl uuid S t S1
         (retries : list (instant * instant * string)),
    Service.create_tour pid cid sa ea (Some (String c0 k)) now nl uuid S
    = (Ok (t, true), S1) ->
    Forall (fun r => snd (fst r) < now + timedelta_hours 24) retries ->
    run (map (fun r => Create pid cid sa ea (Some (String c0 k))
                              (fst (fst r)) (snd (fst r)) (snd r)) retries) S1
    = (map (fun _ => Created (Ok (t, false))) retries, S1).
Proof.
  intros pid cid sa ea c0 k now nl uuid S t S1 retries Hfirst Hall.
  induction Hall as [|[[now' nl'] uuid'] rest Hnl _ IH]; simpl; [reflexivity|].
  simpl in Hnl. rewrite (replay_once _ _ _ _ _ _ _ _ _ _ _ _ now' nl' uuid' Hfirst Hnl), IH. reflexivity.
Qed.

(** C2 fails as stated: the same request with the same key, sent again when
    the record of the first call has expired, is treated as new and collides
    with the booking the first call made. *)
Lemma idempotent_replay_counterexample :
  fst (run [ keyed_request T0 T0 "0123456789abcdef0123456789abcdef";
             keyed_request (T0 + timedelta_hours 24) (T0 + timedelta_hours 24)
                           "fedcba9876543210fedcba9876543210" ]
           new_storage)
  = [ Created (Ok (keyed_tour, true));
      Created (Raise (ConflictError "overlapping tour for property")) ].
Proof. vm_compute. reflexivity. Qed.

Lemma idempotent_replay_witness :
  let S1 := snd (run [keyed_request T0 T0 "0123456789abcdef0123456789abcdef"]
                     new_storage) in
  let retries := [ (T0 + minutes 1, T0 + minutes 1, "a");
                   (T0 + minutes 1439, T0 + minutes 1439, "b") ] in
  run (map (fun r => keyed_request (fst (fst r)) (snd (fst r)) (snd r)) retries) S1
  = (map (fun _ => Created (Ok (keyed_tour, false))) retries, S1).
Proof.
  cbv zeta.
  refine (@idempotent_replay "P1" "C1" (utc (T0 + minutes 600))
            (utc (T0 + minutes 630)) "K"%char EmptyString T0 T0
            "0123456789abcdef0123456789abcdef" new_storage keyed_tour _
            [ (T0 + minutes 1, T0 + minutes 1, "a");
              (T0 + minutes 1439, T0 + minutes 1439, "b") ] _ _).
  - vm_compute. reflexivity.
  - repeat constructor.
Defined.

(* ------------------------------------------------------------------ *)
(** ** The ISO-8601 text of an instant *)

Lemma md_spec leap r :
  0 <= r <= 364 ->
  let '(m, d) := md leap r in
  1 <= m <= 12 /\ 1 <= d <= 31
  /\ DAYS_BEFORE_MONTH m + (if (2 <? m) && leap then 1 else 0) + d - 1 = r
  /\ (m = 12 -> d = 31 -> leap = false).
Proof.
  intros Hr. unfold md. rewrite Z.shiftr_div_pow2 by lia.
  change (2 ^ 5) with 32.
  assert (Hm : 1 <= (r + 50) / 32 <= 12).
  { split; [apply Z.div_le_lower_bound; lia|].
    assert ((r + 50) / 32 < 13) by (apply Z.div_lt_upper_bound; lia). lia. }
  set (month := (r + 50) / 32) in *.
  assert (Hr' : 32 * month <= r + 50 < 32 * month + 32).
  { unfold month. pose proof (Z.mul_div_le (r + 50) 32 ltac:(lia)).
    pose proof (Z.mul_succ_div_gt (r + 50) 32 ltac:(lia)). lia. }
  clearbody month.
  assert (Hc : month = 1 \/ month = 2 \/ month = 3 \/ month = 4 \/ month = 5
               \/ month = 6 \/ month = 7 \/ month = 8 \/ month = 9
               \/ month = 10 \/ month = 11 \/ month = 12) by lia.
  destruct leap;
  repeat (destruct Hc as [->|Hc]); try subst month;
    repeat match goal with
           | |- context [Z.pos ?a - 1] =>
               let v := eval vm_compute in (Z.pos a - 1) in
               change (Z.pos a - 1) with v
           end;
    cbn [DAYS_BEFORE_MONTH DAYS_IN_MONTH Z.ltb Z.eqb Z.compare Pos.compare
         Pos.compare_cont Pos.eqb andb];
    match goal with |- context [r <? ?p] => destruct (r <? p) eqn:E end;
    (apply Z.ltb_lt in E || apply Z.ltb_ge in E);
    cbn [DAYS_BEFORE_MONTH DAYS_IN_MONTH Z.ltb Z.eqb Z.compare Pos.compare
         Pos.compare_cont Pos.eqb andb];
    repeat split; try lia; try (intros; discriminate).
Qed.

Lemma ord2ymd_md n0 :
  ord2ymd n0 =
  let a := n0 / 146097 in
  let na := n0 mod 146097 in
  let b := na / 36524 in
  let nb := na mod 36524 in
  let c := nb / 1461 in
  let nc := nb mod 1461 in
  let e := nc / 365 in
  let r := nc mod 365 in
  let year := a * 400 + 1 + b * 100 + c * 4 + e in
  if (e =? 4) || (b =? 4) then (year - 1, 12, 31)
  else
    let '(m, d) := md ((e =? 3) && (negb (c =? 24) || (b =? 3))) r in
    (year, m, d).
Proof.
  unfold ord2ymd, md. cbv zeta.
  destruct (_ || _); [reflexivity|].
  now destruct (_ <? _).
Qed.

Lemma is_leap_decomp a b c e :
  0 <= b <= 3 -> 0 <= c <= 24 -> 0 <= e <= 3 ->
  is_leap (a * 400 + 1 + b * 100 + c * 4 + e)
  = (e =? 3) && (negb (c =? 24) || (b =? 3)).
Proof.
  intros Hb Hc He. unfold is_leap.
  destruct (Z.eqb_spec ((a * 400 + 1 + b * 100 + c * 4 + e) mod 4) 0) as [H4|H4];
  destruct (Z.eqb_spec ((a * 400 + 1 + b * 100 + c * 4 + e) mod 100) 0) as [H100|H100];
  destruct (Z.eqb_spec ((a * 400 + 1 + b * 100 + c * 4 + e) mod 400) 0) as [H400|H400];
  destruct (Z.eqb_spec e 3) as [E3|E3];
  destruct (Z.eqb_spec c 24) as [C24|C24];
  destruct (Z.eqb_spec b 3) as [B3|B3];
  cbn; try reflexivity; exfalso;
  revert H4 H100 H400; Z.div_mod_to_equations; lia.
Qed.

Lemma ymd2ord_ord2ymd n :
  0 <= n ->
  let '(y, m, d) := ord2ymd n in
  ymd2ord y m d = n /\ 1 <= m <= 12 /\ 1 <= d <= 31
  /\ 1 <= y /\ (n < 3652059 -> y <= 9999).
Proof.
  intros Hn. rewrite ord2ymd_md. cbv zeta.
  pose proof (Z.div_mod n 146097 ltac:(lia)) as E1.
  pose proof (Z.mod_pos_bound n 146097 ltac:(lia)) as B1.
  assert (A0 : 0 <= n / 146097) by (apply Z.div_pos; lia).
  set (a := n / 146097) in *. set (na := n mod 146097) in *.
  pose proof (Z.div_mod na 36524 ltac:(lia)) as E2.
  pose proof (Z.mod_pos_bound na 36524 ltac:(lia)) as B2.
  assert (A1 : 0 <= na / 36524) by (apply Z.div_pos; lia).
  set (b := na / 36524) in *. set (nb := na mod 36524) in *.
  pose proof (Z.div_mod nb 1461 ltac:(lia)) as E3.
  pose proof (Z.mod_pos_bound nb 1461 ltac:(lia)) as B3.
  assert (A2 : 0 <= nb / 1461) by (apply Z.div_pos; lia).
  set (c := nb / 1461) in *. set (nc := nb mod 1461) in *.
  pose proof (Z.div_mod nc 365 ltac:(lia)) as E4.
  pose proof (Z.mod_pos_bound nc 365 ltac:(lia)) as B4.
  assert (A3 : 0 <= nc / 365) by (apply Z.div_pos; lia).
  set (e := nc / 365) in *. set (r := nc mod 365) in *.
  clearbody a na b nb c nc e r.
  assert (Hb : b <= 4) by lia.
  assert (Hc : c <= 24) by lia.
  assert (He : e <= 4) by lia.
  destruct (Z.eqb_spec e 4) as [E4'|E4'].
  - (* last day of a leap year *)
    cbn [orb]. subst e. assert (r = 0) by lia. subst r.
    assert (c <= 23) by lia. assert (b <= 3) by lia.
    unfold ymd2ord.
    replace (a * 400 + 1 + b * 100 + c * 4 + 4 - 1)
      with ((a * 400 + 1 + b * 100 + (c + 1) * 4 + 0) - 1) by ring.
    assert (L : is_leap (a * 400 + 1 + b * 100 + (c + 1) * 4 + 0 - 1) = true).
    { unfold is_leap.
      destruct (Z.eqb_spec ((a * 400 + 1 + b * 100 + (c + 1) * 4 + 0 - 1) mod 4) 0) as [H4|H4];
      destruct (Z.eqb_spec ((a * 400 + 1 + b * 100 + (c + 1) * 4 + 0 - 1) mod 100) 0) as [H100|H100];
      cbn; try reflexivity; exfalso; revert H4 H100; Z.div_mod_to_equations; lia. }
    rewrite L. cbn [DAYS_BEFORE_MONTH Z.ltb Z.compare Pos.compare Pos.compare_cont andb].
    repeat split; try lia.
    Z.div_mod_to_equations; lia.
  - destruct (Z.eqb_spec b 4) as [B4'|B4'].
    + cbn [orb]. subst b. assert (nb = 0) by lia. subst nb.
      assert (c = 0) by lia. subst c. assert (nc = 0) by lia. subst nc.
      assert (e = 0) by lia. subst e.
      unfold ymd2ord.
      assert (L : is_leap (a * 400 + 1 + 4 * 100 + 0 * 4 + 0 - 1) = true).
      { unfold is_leap.
        destruct (Z.eqb_spec ((a * 400 + 1 + 4 * 100 + 0 * 4 + 0 - 1) mod 4) 0) as [H4|H4];
        destruct (Z.eqb_spec ((a * 400 + 1 + 4 * 100 + 0 * 4 + 0 - 1) mod 400) 0) as [H400|H400];
        cbn; rewrite ?orb_true_r; try reflexivity; exfalso; revert H4 H400;
        Z.div_mod_to_equations; lia. }
      rewrite L. cbn [DAYS_BEFORE_MONTH Z.ltb Z.compare Pos.compare Pos.compare_cont andb].
      repeat split; try lia.
      Z.div_mod_to_equations; lia.
    + cbn [orb].
      assert (Hb3 : 0 <= b <= 3) by lia. assert (He3 : 0 <= e <= 3) by lia.
      assert (Hc24 : 0 <= c <= 24) by lia.
      pose proof (md_spec ((e =? 3) && (negb (c =? 24) || (b =? 3))) r ltac:(lia))
        as Hmd.
      destruct (md _ r) as [m d].
      destruct Hmd as (Hm & Hd & Hsum & _).
      unfold ymd2ord. rewrite (is_leap_decomp a b c e Hb3 Hc24 He3).
      repeat split; try lia.
      revert Hsum. generalize (if (2 <? m) && ((e =? 3) && (negb (c =? 24) || (b =? 3))) then 1 else 0).
      intros z Hsum. Z.div_mod_to_equations; lia.
Qed.

Lemma ord2ymd_inj n n' :
  0 <= n -> 0 <= n' -> ord2ymd n = ord2ymd n' -> n = n'.
Proof.
  intros Hn Hn' E.
  pose proof (ymd2ord_ord2ymd n Hn) as H.
  pose proof (ymd2ord_ord2ymd n' Hn') as H'.
  rewrite E in H. destruct (ord2ymd n') as [[y m] d].
  destruct H as [H _], H' as [H' _]. congruence.
Qed.

Lemma length_append a b :
  String.length (a ++ b)%string = (String.length a + String.length b)%nat.
Proof. induction a as [|c a IH]; simpl; [reflexivity | now rewrite IH]. Qed.

Lemma length_zpad w n : String.length (zpad w n) = w.
Proof.
  revert n. induction w as [|w IH]; intros n; simpl; [reflexivity|].
  rewrite length_append, IH. simpl. lia.
Qed.

Lemma append_inj_len a a' b b' :
  String.length a = String.length a' ->
  (a ++ b)%string = (a' ++ b')%string -> a = a' /\ b = b'.
Proof.
  revert a'. induction a as [|c a IH]; intros [|c' a']; simpl; try discriminate.
  - auto.
  - intros [= Hl] [= -> E]. destruct (IH a' Hl E) as [-> ->]. auto.
Qed.

Lemma digit_inj x y : digit x = digit y -> x mod 10 = y mod 10.
Proof.
  unfold digit.
  pose proof (Z.mod_pos_bound x 10 ltac:(lia)) as Hx.
  pose proof (Z.mod_pos_bound y 10 ltac:(lia)) as Hy.
  set (u := x mod 10) in *. set (v := y mod 10) in *. clearbody u v.
  assert (Hu : u = 0 \/ u = 1 \/ u = 2 \/ u = 3 \/ u = 4 \/ u = 5 \/ u = 6
               \/ u = 7 \/ u = 8 \/ u = 9) by lia.
  assert (Hv : v = 0 \/ v = 1 \/ v = 2 \/ v = 3 \/ v = 4 \/ v = 5 \/ v = 6
               \/ v = 7 \/ v = 8 \/ v = 9) by lia.
  repeat (destruct Hu as [->|Hu]); try subst u;
    repeat (destruct Hv as [->|Hv]); try subst v;
    intros E; try reflexivity; discriminate E.
Qed.

Lemma zpad_inj w : forall n n',
  0 <= n < 10 ^ Z.of_nat w -> 0 <= n' < 10 ^ Z.of_nat w ->
  zpad w n = zpad w n' -> n = n'.
Proof.
  induction w as [|w IH]; intros n n' Hn Hn' E.
  - change (10 ^ Z.of_nat 0) with 1 in *. lia.
  - rewrite Nat2Z.inj_succ, Z.pow_succ_r in Hn, Hn' by lia.
    simpl in E.
    apply append_inj_len in E; [|now rewrite !length_zpad].
    destruct E as [E1 E2]. injection E2 as E2. apply digit_inj in E2.
    assert (n / 10 = n' / 10).
    { apply IH; [| |exact E1]; split;
        (apply Z.div_pos; lia) || (apply Z.div_lt_upper_bound; lia). }
    rewrite (Z.div_mod n 10), (Z.div_mod n' 10) by lia. congruence.
Qed.

Lemma strip_char c a b :
  (String c EmptyString ++ a)%string = (String c EmptyString ++ b)%string -> a = b.
Proof. simpl. now intros [= ->]. Qed.

Opaque zpad.

Lemma string_cons_inj c (a b : string) : String c a = String c b -> a = b.
Proof. now intros [= ->]. Qed.

Lemma frac_suffix_inj f f' :
  0 <= f < 1000000 -> 0 <= f' < 1000000 ->
  ((if (f =? 0)%Z then EmptyString else "." ++ zpad 6 f) ++ "+00:00")%string
  = ((if (f' =? 0)%Z then EmptyString else "." ++ zpad 6 f') ++ "+00:00")%string ->
  f = f'.
Proof.
  intros Hf Hf'.
  destruct (Z.eqb_spec f 0) as [F|F]; destruct (Z.eqb_spec f' 0) as [F'|F'];
    simpl; intros E.
  - congruence.
  - discriminate E.
  - discriminate E.
  - apply string_cons_inj in E.
    apply append_inj_len in E; [|now rewrite !length_zpad].
    destruct E as [E _].
    apply zpad_inj in E; [exact E | |]; change (10 ^ Z.of_nat 6) with 1000000; lia.
Qed.

Lemma isoformat_inj t t' :
  in_range t = true -> in_range t' = true ->
  isoformat t = isoformat t' -> t = t'.
Proof.
  unfold in_range. intros Ht Ht' E.
  apply andb_true_iff in Ht as [H0 H1]. apply andb_true_iff in Ht' as [H0' H1'].
  apply Z.leb_le in H0, H0'. apply Z.ltb_lt in H1, H1'.
  assert (HD : US_PER_DAY = 86400000000) by reflexivity.
  assert (Hn : 0 <= t / US_PER_DAY < MAXORDINAL).
  { split; [apply Z.div_pos; lia | apply Z.div_lt_upper_bound; lia]. }
  assert (Hn' : 0 <= t' / US_PER_DAY < MAXORDINAL).
  { split; [apply Z.div_pos; lia | apply Z.div_lt_upper_bound; lia]. }
  pose proof (ymd2ord_ord2ymd _ (proj1 Hn)) as S.
  pose proof (ymd2ord_ord2ymd _ (proj1 Hn')) as S'.
  pose proof (ord2ymd_inj (t / US_PER_DAY) (t' / US_PER_DAY) (proj1 Hn) (proj1 Hn'))
    as Hinj.
  unfold isoformat in E.
  destruct (ord2ymd (t / US_PER_DAY)) as [[y m] d].
  destruct (ord2ymd (t' / US_PER_DAY)) as [[y' m'] d'].
  destruct S as (_ & Hm & Hd & Hy1 & Hy2). specialize (Hy2 (proj2 Hn)).
  destruct S' as (_ & Hm' & Hd' & Hy1' & Hy2'). specialize (Hy2' (proj2 Hn')).
  pose proof (Z.mod_pos_bound t US_PER_DAY ltac:(lia)) as Hu.
  pose proof (Z.mod_pos_bound t' US_PER_DAY ltac:(lia)) as Hu'.
  set (us := t mod US_PER_DAY) in *. set (us' := t' mod US_PER_DAY) in *.
  apply append_inj_len in E; [|now rewrite !length_zpad].
  destruct E as [Ey E]. apply strip_char in E.
  apply append_inj_len in E; [|now rewrite !length_zpad].
  destruct E as [Em E]. apply strip_char in E.
  apply append_inj_len in E; [|now rewrite !length_zpad].
  destruct E as [Ed E]. apply strip_char in E.
  apply append_inj_len in E; [|now rewrite !length_zpad].
  destruct E as [Ehh E]. apply strip_char in E.
  apply append_inj_len in E; [|now rewrite !length_zpad].
  destruct E as [Emm E]. apply strip_char in E.
  apply append_inj_len in E; [|now rewrite !length_zpad].
  destruct E as [Ess E].
  assert (HS : US_PER_SECOND = 1000000) by reflexivity.
  assert (HH : US_PER_HOUR = 3600000000) by reflexivity.
  rewrite HS, HH in *.
  apply zpad_inj in Ey; [|change (10 ^ Z.of_nat 4) with 10000; lia ..].
  apply zpad_inj in Em; [|change (10 ^ Z.of_nat 2) with 100; lia ..].
  apply zpad_inj in Ed; [|change (10 ^ Z.of_nat 2) with 100; lia ..].
  assert (Hday : t / US_PER_DAY = t' / US_PER_DAY) by (apply Hinj; congruence).
  apply zpad_inj in Ehh;
    [|change (10 ^ Z.of_nat 2) with 100;
      split; [apply Z.div_pos; lia | apply Z.div_lt_upper_bound; lia] ..].
  apply zpad_inj in Emm;
    [|change (10 ^ Z.of_nat 2) with 100;
      match goal with |- 0 <= ?x mod 60 < _ =>
        pose proof (Z.mod_pos_bound x 60 ltac:(lia)); lia end ..].
  apply zpad_inj in Ess;
    [|change (10 ^ Z.of_nat 2) with 100;
      match goal with |- 0 <= ?x mod 60 < _ =>
        pose proof (Z.mod_pos_bound x 60 ltac:(lia)); lia end ..].
  assert (Efrac : us mod 1000000 = us' mod 1000000).
  { apply frac_suffix_inj; [| |exact E];
      match goal with |- 0 <= ?x mod ?k < _ =>
        pose proof (Z.mod_pos_bound x k ltac:(lia)); lia end. }
  assert (Eus : us = us').
  { clear E. revert Ehh Emm Ess Efrac. clearbody us us'.
    Z.div_mod_to_equations. lia. }
  rewrite (Z.div_mod t US_PER_DAY), (Z.div_mod t' US_PER_DAY) by lia.
  fold us us'. congruence.
Qed.

Transparent zpad.

(* ------------------------------------------------------------------ *)
(** ** Reuse of a key with other parameters (C3) *)

Lemma no_pipe_app a b : no_pipe (a ++ b) = no_pipe a && no_pipe b.
Proof.
  induction a as [|c r IH]; simpl; [reflexivity|].
  now rewrite IH, andb_assoc.
Qed.

Lemma no_pipe_digit n : negb (Ascii.eqb (digit n) "|") = true.
Proof.
  unfold digit. destruct (n mod 10) as [|p|p]; try reflexivity.
  do 4 (try destruct p; try reflexivity).
Qed.

Lemma no_pipe_zpad w n : no_pipe (zpad w n) = true.
Proof.
  revert n. induction w as [|w IH]; intros n; simpl; [reflexivity|].
  rewrite no_pipe_app, IH. simpl. now rewrite no_pipe_digit.
Qed.

Lemma no_pipe_isoformat t : no_pipe (isoformat t) = true.
Proof.
  unfold isoformat. destruct (ord2ymd _) as [[y m] d].
  destruct (_ =? 0);
    repeat (rewrite no_pipe_app || rewrite no_pipe_zpad); reflexivity.
Qed.

(** Two pipe-free texts followed by a pipe: the first pipe tells where each
    ends. *)
Lemma split_at_pipe a a' b b' :
  no_pipe a = true -> no_pipe a' = true ->
  (a ++ "|" ++ b)%string = (a' ++ "|" ++ b')%string ->
  a = a' /\ b = b'.
Proof.
  revert a'. induction a as [|c r IH]; intros [|c' r']; simpl; intros Ha Ha' E.
  - injection E as ->. auto.
  - injection E as <- _. discriminate.
  - injection E as -> _. discriminate.
  - injection E as -> E.
    apply andb_true_iff in Ha as [_ Ha]. apply andb_true_iff in Ha' as [_ Ha'].
    destruct (IH r' Ha Ha' E) as [-> ->]. auto.
Qed.

Lemma fingerprint_shape pid cid s e :
  Service._fingerprint pid cid s e
  = (pid ++ "|" ++ cid ++ "|" ++ isoformat s ++ "|" ++ isoformat e)%string.
Proof. reflexivity. Qed.

(** Where the property and customer ids hold no pipe, the fingerprint tells
    the four components apart. *)
Lemma fingerprint_inj pid cid s e pid' cid' s' e' :
  no_pipe pid = true -> no_pipe cid = true ->
  no_pipe pid' = true -> no_pipe cid' = true ->
  Service._fingerprint pid cid s e = Service._fingerprint pid' cid' s' e' ->
  pid = pid' /\ cid = cid' /\ isoformat s = isoformat s'
  /\ isoformat e = isoformat e'.
Proof.
  intros Hp Hc Hp' Hc'. rewrite !fingerprint_shape. intros E.
  apply split_at_pipe in E as [-> E]; auto.
  apply split_at_pipe in E as [-> E]; auto.
  apply split_at_pipe in E as [-> ->]; auto using no_pipe_isoformat.
Qed.

Lemma ensure_utc_in_range dt field s : ensure_utc dt field = Ok s -> in_range s = true.
Proof.
  unfold ensure_utc. destruct (tzinfo dt); [|discriminate].
  destruct (in_range (wall dt - z)) eqn:E; [|discriminate].
  now intros [= <-].
Qed.

(** Where the property and customer ids hold no pipe, equal fingerprints mean
    equal requests. *)
Lemma fingerprint_inj_instants pid cid s e pid' cid' s' e' :
  no_pipe pid = true -> no_pipe cid = true ->
  no_pipe pid' = true -> no_pipe cid' = true ->
  in_range s = true -> in_range e = true ->
  in_range s' = true -> in_range e' = true ->
  Service._fingerprint pid cid s e = Service._fingerprint pid' cid' s' e' ->
  (pid, cid, s, e) = (pid', cid', s', e').
Proof.
  intros Hp Hc Hp' Hc' Hs He Hs' He' E.
  destruct (fingerprint_inj _ _ _ _ _ _ _ _ Hp Hc Hp' Hc' E) as (-> & -> & Es & Ee).
  apply isoformat_inj in Es; [|assumption ..].
  apply isoformat_inj in Ee; [|assumption ..].
  now subst.
Qed.

(** C3, as the code has it.  A create call that passes validation and reuses a
    key whose unexpired record holds another fingerprint than the call's own
    fails with the idempotency conflict and touches nothing: it returns no
    existing tour and creates none.  The fingerprint is the pipe-delimited
    concatenation of propertyId, customerId and the ISO-8601 texts of the
    normalized start and end.  Two requests whose property and customer ids
    hold no pipe have the same fingerprint only if they agree on propertyId,
    customerId and both normalized instants. *)
Theorem reused_key_conflict :
  (forall S key nl r pid cid sa ea now uuid s e,
      live_record S key nl = Some r ->
      ensure_utc sa "start_at" = Ok s ->
      ensure_utc ea "end_at" = Ok e ->
      s < e ->
      IdempotencyRecord.fingerprint r <> Service._fingerprint pid cid s e ->
      Service.create_tour pid cid sa ea key now nl uuid S
      = (Raise (ConflictError
                  "idempotency key already used with different parameters"), S))
  /\ (forall pid cid s e,
        Service._fingerprint pid cid s e
        = (pid ++ "|" ++ cid ++ "|" ++ isoformat s ++ "|" ++ isoformat e)%string)
  /\ (forall pid cid s e pid0 cid0 s0 e0,
        no_pipe pid = true -> no_pipe cid = true ->
        no_pipe pid0 = true -> no_pipe cid0 = true ->
        in_range s = true -> in_range e = true ->
        in_range s0 = true -> in_range e0 = true ->
        (pid, cid, s, e) <> (pid0, cid0, s0, e0) ->
        Service._fingerprint pid cid s e <> Service._fingerprint pid0 cid0 s0 e0).
Proof.
  split; [|split].
  - intros S key nl r pid cid sa ea now uuid s e Hlive Hs He Hlt Hdiff.
    rewrite create_tour_spec, Hs, He, (geb_false_of_lt _ _ Hlt). cbv zeta.
    rewrite Hlive.
    destruct (IdempotencyRecord.fingerprint r
              =? Service._fingerprint pid cid s e)%string eqn:E; [|reflexivity].
    apply String.eqb_eq in E. contradiction.
  - reflexivity.
  - intros pid cid s e pid0 cid0 s0 e0 Hp Hc Hp0 Hc0 Hs He Hs0 He0 Hdiff E.
    apply Hdiff. now apply fingerprint_inj_instants.
Qed.

(** C3 fails as stated: the second call reuses the key ["K"] for another
    property and another customer, yet its fingerprint is the same text
    ["a|b|c|..."], so it is answered with the tour of the first call. *)
Lemma reused_key_conflict_counterexample :
  fst (run [piped_first; piped_second] new_storage)
  = [ Created (Ok (Tour.mk "tour_0123456789ab" "a|b" "c" (T0 + minutes 600)
                           (T0 + minutes 630) BOOKED T0 T0, true));
      Created (Ok (Tour.mk "tour_0123456789ab" "a|b" "c" (T0 + minutes 600)
                           (T0 + minutes 630) BOOKED T0 T0, false)) ].
Proof. vm_compute. reflexivity. Qed.

Lemma reused_key_conflict_witness :
  let S := snd (run [keyed_request T0 T0 "0123456789abcdef0123456789abcdef"]
                    new_storage) in
  Service.create_tour "P1" "C2" (utc (T0 + minutes 600)) (utc (T0 + minutes 630))
                      (Some "K") (T0 + minutes 1) (T0 + minutes 1)
                      "fedcba9876543210fedcba9876543210" S
  = (Raise (ConflictError
              "idempotency key already used with different parameters"), S).
Proof.
  cbv zeta.
  refine (proj1 reused_key_conflict _ (Some "K") (T0 + minutes 1)
            (IdempotencyRecord.mk "K" "tour_0123456789ab"
               (Service._fingerprint "P1" "C1" (T0 + minutes 600) (T0 + minutes 630))
               T0 (T0 + timedelta_hours 24))
            "P1" "C2" _ _ _ _ (T0 + minutes 600) (T0 + minutes 630) _ _ _ _ _).
  - vm_compute. reflexivity.
  - reflexivity.
  - reflexivity.
  - reflexivity.
  - vm_compute. intros E. discriminate E.
Defined.

(* ------------------------------------------------------------------ *)
(** ** Reachable stores *)

Section DictFacts2.
Context {K V : Type} `{KeyEq K}.
Implicit Types (d : Dict.t K V) (k : K) (v : V).

Lemma keq_dec k k' : {k = k'} + {k <> k'}.
Proof.
  destruct (keqb k k') eqn:E.
  - left. now apply keqb_true.
  - right. intros ->. now rewrite keqb_refl in E.
Qed.

Lemma get_set d k k' v :
  Dict.get (Dict.set d k v) k' = if keqb k k' then Some v else Dict.get d k'.
Proof.
  destruct (keq_dec k k') as [<-|Hn].
  - now rewrite get_set_same, keqb_refl.
  - now rewrite get_set_other, keqb_neq.
Qed.

Lemma get_del d k k' :
  Dict.get (Dict.del d k) k' = if keqb k k' then None else Dict.get d k'.
Proof.
  destruct (keq_dec k k') as [<-|Hn].
  - now rewrite get_del_same, keqb_refl.
  - now rewrite get_del_other, keqb_neq.
Qed.

Lemma get_set_kept d k k' v :
  Dict.get d k' <> None -> Dict.get (Dict.set d k v) k' <> None.
Proof. rewrite get_set. now destruct (keqb k k'). Qed.
End DictFacts2.

Lemma wf_new_storage : wf new_storage.
Proof. split; simpl; discriminate. Qed.

Lemma wf_purged S key : wf S -> wf (purged S key).
Proof.
  intros [W1 W2 W3]. destruct key as [[|c0 k]|]; try (now split).
  split; simpl; auto.
  intros k' r. rewrite get_del. destruct (keqb _ k'); [discriminate|]. auto.
Qed.

Lemma wf_cleanup now S : wf S -> wf (cleanup now S).
Proof.
  intros [W1 W2 W3]. split; auto.
  intros c d x. rewrite get_cleanup. destruct (d <? date_of now); [discriminate|].
  auto.
Qed.

Lemma wf_ensure_counter S c d : wf S -> wf (ensure_counter S c d).
Proof.
  intros [W1 W2 W3]. unfold ensure_counter.
  destruct (Dict.get (_rate_limits S) (c, d)) eqn:G; [now split|].
  split; simpl; auto.
  intros c' d' x. rewrite get_set.
  destruct (keqb _ (c', d')) eqn:E; [|auto].
  apply keqb_true in E. injection E as <- <-. intros [= <-].
  cbn. repeat split; reflexivity || discriminate.
Qed.

Lemma counter_of_nonneg S c d : wf S -> 0 <= RateLimitCounter.count (counter_of S c d).
Proof.
  intros W. unfold counter_of.
  destruct (Dict.get (_rate_limits S) (c, d)) eqn:G; [|cbn; lia].
  apply (wf_rate_limits _ W _ _ _ G).
Qed.

Lemma wf_prepared now c S : wf S -> wf (prepared now c S).
Proof. intros W. apply wf_ensure_counter, wf_cleanup, W. Qed.

Lemma wf_committed t x S :
  0 <= RateLimitCounter.count x -> wf S -> wf (committed t x S).
Proof.
  intros Hx [W1 W2 W3]. split; simpl.
  - intros k t'. rewrite get_set.
    destruct (keqb (Tour.id t) k) eqn:E; [|auto].
    apply keqb_true in E. now intros [= <-].
  - intros k r G. destruct (W2 k r G) as (Hk & Hne & Hin).
    split; [exact Hk|]. split; [exact Hne|]. now apply get_set_kept.
  - intros c d y. rewrite get_set.
    destruct (keqb _ (c, d)) eqn:E; [|auto].
    apply keqb_true in E. injection E as <- <-. intros [= <-].
    cbn. repeat split. lia.
Qed.

Lemma wf_with_record r S :
  IdempotencyRecord.key r <> EmptyString ->
  Dict.get (_tours S) (IdempotencyRecord.tour_id r) <> None ->
  wf S -> wf (with_record r S).
Proof.
  intros Hne Hin [W1 W2 W3]. split; simpl; auto.
  intros k r'. rewrite get_set.
  destruct (keqb (IdempotencyRecord.key r) k) eqn:E; [|auto].
  apply keqb_true in E. intros [= <-]. subst k. auto.
Qed.

Lemma wf_created_store key fp now t c S : wf S -> wf (created_store key fp now t c S).
Proof.
  intros W. unfold created_store.
  assert (W2 : wf (committed t (counter_of (cleanup now S) c (date_of now))
                             (prepared now c S)))
    by (apply wf_committed;
        [apply counter_of_nonneg, wf_cleanup, W | apply wf_prepared, W]).
  destruct key as [[|c0 k]|]; auto.
  apply wf_with_record; [discriminate| |exact W2].
  simpl. rewrite get_set_same. discriminate.
Qed.

Lemma wf_commit_phase pid cid s e key fp now uuid S :
  wf S -> wf (snd (commit_phase pid cid s e key fp now uuid S)).
Proof.
  intros W. destruct (commit_phase pid cid s e key fp now uuid S) as [[[t b]|err] S1] eqn:E.
  - apply commit_phase_Ok in E. destruct E as (_ & _ & _ & _ & ->).
    now apply wf_created_store.
  - apply commit_phase_Raise in E.
    destruct E as [(_ & _ & ->)|[(_ & _ & _ & ->)|(_ & _ & _ & ->)]]; simpl;
      auto using wf_prepared.
    apply wf_committed;
      [apply counter_of_nonneg, wf_cleanup, W | apply wf_prepared, W].
Qed.

Lemma wf_create_tour pid cid sa ea key now nl uuid S :
  wf S -> wf (snd (Service.create_tour pid cid sa ea key now nl uuid S)).
Proof.
  intros W. rewrite create_tour_spec.
  destruct (ensure_utc sa "start_at"); [|exact W].
  destruct (ensure_utc ea "end_at"); [|exact W].
  destruct (_ >=? _); [exact W|]. cbv zeta.
  destruct (live_record S key nl).
  - destruct (negb _); [exact W|].
    destruct (Dict.get _ _); [exact W|]. now apply wf_commit_phase.
  - now apply wf_commit_phase, wf_purged.
Qed.

(** [cancel_tour], case by case. *)
Lemma cancel_tour_spec tour_id clock S :
  Service.cancel_tour tour_id clock S =
  match Dict.get (_tours S) tour_id with
  | None => (Raise (NotFoundError "tour not found"), S)
  | Some t =>
      (Ok tt, mk_storage (Dict.set (_tours S) (Tour.id (Tour.cancel t clock))
                                   (Tour.cancel t clock))
                         (_idempotency S) (_rate_limits S))
  end.
Proof.
  unfold Service.cancel_tour, bind, Storage.get_tour, Storage.save_tour.
  now destruct (Dict.get (_tours S) tour_id).
Qed.

Lemma id_cancel t clock : Tour.id (Tour.cancel t clock) = Tour.id t.
Proof. unfold Tour.cancel. now destruct (negb _). Qed.

Lemma wf_cancel_tour tour_id clock S :
  wf S -> wf (snd (Service.cancel_tour tour_id clock S)).
Proof.
  intros W. rewrite cancel_tour_spec.
  destruct (Dict.get (_tours S) tour_id) as [t|] eqn:G; [|exact W].
  destruct W as [W1 W2 W3]. split; simpl; auto.
  - intros k t'. rewrite get_set.
    destruct (keqb _ k) eqn:E; [|auto].
    apply keqb_true in E. now intros [= <-].
  - intros k r Gr. destruct (W2 k r Gr) as (Hk & Hne & Hin).
    split; [exact Hk|]. split; [exact Hne|]. now apply get_set_kept.
Qed.

Lemma get_tour_store tour_id S : snd (Service.get_tour tour_id S) = S.
Proof.
  unfold Service.get_tour, bind, Storage.get_tour.
  now destruct (Dict.get (_tours S) tour_id).
Qed.

Lemma list_tours_store pid d sort page size S :
  snd (Service.list_tours pid d sort page size S) = S.
Proof.
  unfold Service.list_tours, bind, Storage.list_tours, lift.
  destruct (Service.filter_tours _ pid d); [|reflexivity].
  destruct sort as [|c r]; [reflexivity|].
  destruct (Ascii.eqb c "-") eqn:E.
  - apply Ascii.eqb_eq in E. subst c. now destruct (negb _).
  - destruct c as [[] [] [] [] [] [] [] []]; try discriminate E;
      now destruct (negb _).
Qed.

Lemma snd_handle q S :
  snd (handle q S) =
  match q with
  | Create pid cid sa ea key now nl uuid =>
      snd (Service.create_tour pid cid sa ea key now nl uuid S)
  | Get _ | List _ _ _ _ _ => S
  | Cancel tid clock => snd (Service.cancel_tour tid clock S)
  end.
Proof.
  destruct q as [pid cid sa ea key now nl uuid|tid|pid d sort page size|tid clock];
    simpl.
  - now destruct (Service.create_tour _ _ _ _ _ _ _ _ _).
  - rewrite <- (get_tour_store tid S) at 2. now destruct (Service.get_tour _ _).
  - rewrite <- (list_tours_store pid d sort page size S) at 2.
    now destruct (Service.list_tours _ _ _ _ _ _).
  - now destruct (Service.cancel_tour _ _ _).
Qed.

Lemma wf_handle q S : wf S -> wf (snd (handle q S)).
Proof.
  intros W. rewrite snd_handle.
  destruct q; auto using wf_create_tour, wf_cancel_tour.
Qed.

Lemma snd_run_cons q qs S : snd (run (q :: qs) S) = snd (run qs (snd (handle q S))).
Proof.
  simpl. destruct (handle q S) as [r S1]. simpl.
  now destruct (run qs S1).
Qed.

Lemma wf_run qs S : wf S -> wf (snd (run qs S)).
Proof.
  revert S. induction qs as [|q qs IH]; intros S W; [exact W|].
  rewrite snd_run_cons. apply IH, wf_handle, W.
Qed.

Lemma reachable_wf S : reachable S -> wf S.
Proof. intros [qs ->]. apply wf_run, wf_new_storage. Qed.

Lemma snd_run_app qs qs' S : snd (run (qs ++ qs') S) = snd (run qs' (snd (run qs S))).
Proof.
  revert S. induction qs as [|q qs IH]; intros S; [reflexivity|].
  simpl app. now rewrite !snd_run_cons, IH.
Qed.

Lemma reachable_run qs S : reachable S -> reachable (snd (run qs S)).
Proof. intros [qs0 ->]. exists (qs0 ++ qs). now rewrite snd_run_app. Qed.

(* ------------------------------------------------------------------ *)
(** ** Cancellation (C6) *)


Lemma cancel_cancelled t clock :
  Tour.status t = CANCELLED -> Tour.cancel t clock = t.
Proof. unfold Tour.cancel. now intros ->. Qed.

Lemma status_cancel t clock : Tour.status (Tour.cancel t clock) = CANCELLED.
Proof. unfold Tour.cancel. now destruct (Tour.status t) eqn:E. Qed.



(* ------------------------------------------------------------------ *)
(** ** The life of a tour (C7) *)

(** The tours map after a create call: untouched, or extended by the new
    booked tour under the generated id. *)
Lemma create_tour_tours pid cid sa ea key now nl uuid S :
  _tours (snd (Service.create_tour pid cid sa ea key now nl uuid S)) = _tours S
  \/ exists s e,
      _tours (snd (Service.create_tour pid cid sa ea key now nl uuid S))
      = Dict.set (_tours S) (Service._generate_tour_id uuid)
                 (Tour.mk (Service._generate_tour_id uuid) pid cid s e
                          BOOKED now now).
Proof.
  assert (Hc : forall s e fp S0,
    _tours S0 = _tours S ->
    _tours (snd (commit_phase pid cid s e key fp now uuid S0)) = _tours S
    \/ exists s' e',
        _tours (snd (commit_phase pid cid s e key fp now uuid S0))
        = Dict.set (_tours S) (Service._generate_tour_id uuid)
                   (Tour.mk (Service._generate_tour_id uuid) pid cid s' e'
                            BOOKED now now)).
  { intros s e fp S0 H0.
    destruct (commit_phase pid cid s e key fp now uuid S0) as [[[t b]|err] S1] eqn:E.
    - apply commit_phase_Ok in E. destruct E as (_ & -> & _ & _ & ->).
      right. exists s, e. simpl snd. now rewrite tours_created_store, H0.
    - apply commit_phase_Raise in E.
      destruct E as [(_ & _ & ->)|[(_ & _ & _ & ->)|(_ & _ & _ & ->)]]; simpl snd.
      + left. now rewrite tours_prepared.
      + left. now rewrite tours_prepared.
      + right. exists s, e. unfold committed. simpl.
        now rewrite tours_prepared, H0. }
  rewrite create_tour_spec.
  destruct (ensure_utc sa "start_at") as [s|]; [|now left].
  destruct (ensure_utc ea "end_at") as [e|]; [|now left].
  destruct (_ >=? _); [now left|]. cbv zeta.
  destruct (live_record S key nl).
  - destruct (negb _); [now left|].
    destruct (Dict.get _ _); [now left|]. now apply Hc.
  - apply Hc, tours_purged.
Qed.







(* ------------------------------------------------------------------ *)
(** ** Replay of a cancelled booking (C10) *)

(** C10.  A create call that passes validation and whose key resolves to an
    unexpired record with the call's fingerprint, pointing at a tour that has
    been cancelled, returns that cancelled tour with [wasCreated = false] and
    leaves the store untouched: no replacement booking, no conflict, no quota
    used.  The cancelled tour does not stand in the way of the interval: the
    same request without a key is booked, as soon as the customer has quota
    left and no other tour blocks the interval. *)
Theorem replay_returns_cancelled :
  forall S pid cid sa ea key now nl uuid s e r t,
    ensure_utc sa "start_at" = Ok s ->
    ensure_utc ea "end_at" = Ok e ->
    s < e ->
    live_record S key nl = Some r ->
    IdempotencyRecord.fingerprint r = Service._fingerprint pid cid s e ->
    Dict.get (_tours S) (IdempotencyRecord.tour_id r) = Some t ->
    Tour.status t = CANCELLED ->
    Service.create_tour pid cid sa ea key now nl uuid S = (Ok (t, false), S)
    /\ (forall now' nl' uuid',
          rl_count S cid (date_of now') < 3 ->
          (forall t', In t' (Dict.values (_tours S)) -> t' <> t ->
                      ~ blocks pid s e t') ->
          fst (Service.create_tour pid cid sa ea None now' nl' uuid' S)
          = Ok (Tour.mk (Service._generate_tour_id uuid') pid cid s e BOOKED
                        now' now', true)).
Proof.
  intros S pid cid sa ea key now nl uuid s e r t Hs He Hlt Hlive Hfp Hget Hst.
  split.
  - rewrite create_tour_spec, Hs, He, (geb_false_of_lt _ _ Hlt). cbv zeta.
    rewrite Hlive, Hfp, String.eqb_refl. cbn [negb]. now rewrite Hget.
  - intros now' nl' uuid' Hq Hfree.
    rewrite create_tour_spec, Hs, He, (geb_false_of_lt _ _ Hlt). cbv zeta.
    cbn [live_record purged]. rewrite commit_phase_spec. cbv zeta.
    rewrite count_today, (geb_false_of_lt _ _ Hq).
    destruct (ensure_no_overlap_loop_cases (Dict.values (_tours S)) pid s e)
      as [[E [t' [Hin Hb]]]|[E _]]; rewrite E; [|reflexivity].
    exfalso. destruct (Tour.status t') eqn:Hst'.
    + apply (Hfree t' Hin); [|exact Hb]. intros ->. congruence.
    + destruct Hb as (_ & Hb & _). congruence.
Qed.

Lemma replay_returns_cancelled_witness :
  Service.create_tour "P1" "C1" (utc (T0 + minutes 600)) (utc (T0 + minutes 630))
                      (Some "K") (T0 + minutes 7) (T0 + minutes 7)
                      "fedcba9876543210fedcba9876543210" cancelled_keyed_store
  = (Ok (cancelled_at keyed_tour (T0 + minutes 5), false), cancelled_keyed_store)
  /\ fst (Service.create_tour "P1" "C1" (utc (T0 + minutes 600))
                              (utc (T0 + minutes 630)) None (T0 + minutes 7)
                              (T0 + minutes 7)
                              "fedcba9876543210fedcba9876543210"
                              cancelled_keyed_store)
     = Ok (Tour.mk "tour_fedcba987654" "P1" "C1" (T0 + minutes 600)
                   (T0 + minutes 630) BOOKED (T0 + minutes 7) (T0 + minutes 7),
           true).
Proof.
  refine ((fun H => conj (proj1 H)
                         (proj2 H (T0 + minutes 7) (T0 + minutes 7)
                                "fedcba9876543210fedcba9876543210" _ _))
            (replay_returns_cancelled cancelled_keyed_store "P1" "C1"
               (utc (T0 + minutes 600)) (utc (T0 + minutes 630)) (Some "K")
               (T0 + minutes 7) (T0 + minutes 7)
               "fedcba9876543210fedcba9876543210"
               (T0 + minutes 600) (T0 + minutes 630)
               (IdempotencyRecord.mk "K" "tour_0123456789ab"
                  (Service._fingerprint "P1" "C1" (T0 + minutes 600)
                                        (T0 + minutes 630))
                  T0 (T0 + timedelta_hours 24))
               (cancelled_at keyed_tour (T0 + minutes 5))
               _ _ _ _ _ _ _)).
  - reflexivity.
  - intros t' Hin Hn. vm_compute in Hin. destruct Hin as [<-|[]].
    elim Hn. reflexivity.
  - reflexivity.
  - reflexivity.
  - reflexivity.
  - vm_compute. reflexivity.
  - reflexivity.
  - vm_compute. reflexivity.
  - reflexivity.
Defined.

(* ------------------------------------------------------------------ *)
(** ** What a failing operation leaves behind (C5) *)

Lemma ensure_utc_Raise dt field err :
  ensure_utc dt field = Raise err ->
  err = BadRequestError "timestamp must be timezone-aware" (Some field)
  \/ err = OverflowError.
Proof.
  unfold ensure_utc. destruct (tzinfo dt); [|intros [= <-]; now left].
  destruct (in_range _); [discriminate | intros [= <-]; now right].
Qed.

(** A failing create call either failed before the quota stage, on an unchanged
    store, or in the commit stage, entered on the store the key lookup left. *)
Lemma create_tour_Raise pid cid sa ea key now nl uuid S err S1 :
  Service.create_tour pid cid sa ea key now nl uuid S = (Raise err, S1) ->
  (S1 = S
   /\ ((exists m f, err = BadRequestError m f) \/ err = OverflowError
       \/ err = idempotency_conflict))
  \/ (exists s e S0,
        (S0 = S \/ (S0 = purged S key /\ live_record S key nl = None))
        /\ commit_phase pid cid s e key (Service._fingerprint pid cid s e) now
                        uuid S0 = (Raise err, S1)).
Proof.
  rewrite create_tour_spec.
  destruct (ensure_utc sa "start_at") as [s|err0] eqn:Es.
  2:{ intros [= <- <-]. left. split; [reflexivity|].
      destruct (ensure_utc_Raise _ _ _ Es) as [->| ->]; eauto. }
  destruct (ensure_utc ea "end_at") as [e|err0] eqn:Ee.
  2:{ intros [= <- <-]. left. split; [reflexivity|].
      destruct (ensure_utc_Raise _ _ _ Ee) as [->| ->]; eauto. }
  destruct (s >=? e).
  { intros [= <- <-]. left. split; [reflexivity|]. eauto. }
  cbv zeta. destruct (live_record S key nl) as [r|] eqn:L.
  - destruct (negb _).
    + intros [= <- <-]. left. split; [reflexivity|]. auto.
    + destruct (Dict.get _ _); [discriminate|].
      intros Hc. right. exists s, e, S. auto.
  - intros Hc. right. exists s, e, (purged S key). auto.
Qed.

Lemma rl_count_prepared now c S c' d' :
  rl_count (prepared now c S) c' d'
  = if d' <? date_of now then 0 else rl_count S c' d'.
Proof.
  unfold prepared, ensure_counter, rl_count.
  destruct (Dict.get (_rate_limits (cleanup now S)) (c, date_of now)) eqn:G.
  - rewrite get_cleanup. now destruct (d' <? date_of now).
  - cbn [_rate_limits].
    destruct (keq_dec ((c, date_of now) : string * Z) (c', d')) as [Heq|Hne].
    + injection Heq as <- <-. rewrite get_set_same.
      rewrite get_cleanup, Z.ltb_irrefl in G. rewrite Z.ltb_irrefl.
      now rewrite G.
    + rewrite (get_set_other _ _ _ _ Hne), get_cleanup.
      now destruct (d' <? date_of now).
Qed.

Lemma rl_count_purged S key c d : rl_count (purged S key) c d = rl_count S c d.
Proof. unfold rl_count. now rewrite rate_limits_purged. Qed.

Lemma idempotency_purged_sub S key k r :
  Dict.get (_idempotency (purged S key)) k = Some r ->
  Dict.get (_idempotency S) k = Some r.
Proof.
  destruct key as [[|c0 k0]|]; simpl; auto.
  rewrite get_del. now destruct (keqb _ k).
Qed.

Lemma live_record_ext S1 S2 key clock :
  _idempotency S1 = _idempotency S2 ->
  live_record S1 key clock = live_record S2 key clock.
Proof. unfold live_record. now intros ->. Qed.

(** Purging the record of a key that has no live record at [nl] changes no
    lookup made at [nl] or later. *)
Lemma live_record_purged S key nl k clock :
  live_record S key nl = None -> nl <= clock ->
  live_record (purged S key) (Some k) clock = live_record S (Some k) clock.
Proof.
  intros L Hle. destruct key as [[|c0 k0]|]; try reflexivity.
  destruct k as [|c1 k1]; [reflexivity|].
  unfold live_record in *. cbn [purged _idempotency]. rewrite get_del.
  destruct (keqb (String c0 k0) (String c1 k1)) eqn:E; [|reflexivity].
  apply keqb_true in E. rewrite <- E.
  destruct (Dict.get (_idempotency S) (String c0 k0)) as [r|]; [|reflexivity].
  destruct (IdempotencyRecord.expires_at r <=? nl) eqn:X; [|discriminate].
  apply Z.leb_le in X.
  destruct (IdempotencyRecord.expires_at r <=? clock) eqn:Y; [reflexivity|].
  apply Z.leb_gt in Y. lia.
Qed.

(** C5, as the code has it.  An operation that fails with one of the service's
    errors leaves the tours map exactly as it was, writes or alters no
    idempotency record and raises no rate-limit count.  A failing get, list or
    cancel, and a create that fails validation or with the idempotency
    conflict, leave the whole store exactly as it was.  A create that fails
    rate-limited or with the overlap conflict has done its housekeeping first,
    and only that: the expired record of its own key is gone, which changes no
    later lookup; counters of days before today are gone; and a counter with
    count 0 stands for (customer, today), so every count of today or later
    reads as before. *)
Theorem failure_effects :
  forall S q err,
    failure (fst (handle q S)) = Some err ->
    err <> OverflowError ->
    _tours (snd (handle q S)) = _tours S
    /\ (forall k r, Dict.get (_idempotency (snd (handle q S))) k = Some r ->
                    Dict.get (_idempotency S) k = Some r)
    /\ (forall k nl clock, lookup_at q nl -> nl <= clock ->
          live_record (snd (handle q S)) (Some k) clock
          = live_record S (Some k) clock)
    /\ (forall c d,
          rl_count (snd (handle q S)) c d = rl_count S c d
          \/ (rl_count (snd (handle q S)) c d = 0
              /\ exists now, create_at q now /\ d < date_of now))
    /\ (~ is_create q \/ (exists m f, err = BadRequestError m f)
        \/ err = idempotency_conflict ->
        snd (handle q S) = S).
Proof.
  intros S q err Hf Hne.
  destruct q as [pid cid sa ea key now nl uuid|tid|pid d sort page size|tid clock].
  - (* create *)
    unfold handle in *.
    destruct (Service.create_tour pid cid sa ea key now nl uuid S) as [r S1] eqn:E.
    cbn [fst snd failure] in *. destruct r as [?|err0]; [discriminate|].
    injection Hf as ->.
    destruct (create_tour_Raise _ _ _ _ _ _ _ _ _ _ _ E)
      as [[-> _]|(s & e & S0 & HS0 & Hc)].
    { repeat split; auto. }
    apply commit_phase_Raise in Hc.
    assert (HS1 : S1 = prepared now cid S0 /\ err <> idempotency_conflict
                  /\ forall m f, err <> BadRequestError m f).
    { destruct Hc as [(-> & _ & ->)|[(-> & _ & _ & ->)|(-> & _)]];
        [repeat split; discriminate | repeat split; discriminate | congruence]. }
    destruct HS1 as (-> & Hni & Hnb). clear Hc.
    assert (Ht : _tours S0 = _tours S)
      by (destruct HS0 as [->|[-> _]]; [reflexivity | apply tours_purged]).
    repeat split.
    + now rewrite tours_prepared.
    + intros k r. rewrite idempotency_prepared.
      destruct HS0 as [->|[-> _]]; [auto | apply idempotency_purged_sub].
    + intros k nl' clock <- Hle.
      rewrite (live_record_ext (prepared now cid S0) S0)
        by apply idempotency_prepared.
      destruct HS0 as [->|[-> L]]; [reflexivity|].
      now apply live_record_purged with (nl := nl).
    + intros c d. rewrite rl_count_prepared.
      assert (Hr : rl_count S0 c d = rl_count S c d)
        by (destruct HS0 as [->|[-> _]]; [reflexivity | apply rl_count_purged]).
      destruct (d <? date_of now) eqn:L.
      * right. split; [reflexivity|]. exists now. split; [reflexivity|].
        now apply Z.ltb_lt.
      * now left.
    + intros [Hn|[(m & f & ->)| ->]];
        [elim Hn; exact I | elim (Hnb m f); reflexivity | elim Hni; reflexivity].
  - (* get *)
    rewrite snd_handle. repeat split; auto; try (intros; contradiction).
  - (* list *)
    rewrite snd_handle. repeat split; auto; try (intros; contradiction).
  - (* cancel *)
    assert (HS : snd (handle (Cancel tid clock) S) = S).
    { rewrite snd_handle. simpl in Hf.
      rewrite cancel_tour_spec in *.
      destruct (Dict.get (_tours S) tid); [discriminate | reflexivity]. }
    rewrite HS. repeat split; auto; try (intros; contradiction).
Qed.

(** C5 fails as stated: a create of customer [C3] that fails with the overlap
    conflict has already stored a counter for ([C3], today), so the rate-limit
    map is not what it was. *)
Lemma failure_effects_counterexample :
  failure (fst (handle blocked_request busy_store))
  = Some (ConflictError "overlapping tour for property")
  /\ _rate_limits (snd (handle blocked_request busy_store))
     = _rate_limits busy_store
       ++ [(("C3", date_of T0), RateLimitCounter.mk "C3" (date_of T0) 0)]
  /\ snd (handle blocked_request busy_store) <> busy_store.
Proof.
  split; [vm_compute; reflexivity|].
  split; [vm_compute; reflexivity|].
  intros H.
  apply (f_equal (fun s => List.length (_rate_limits s))) in H.
  vm_compute in H. discriminate H.
Qed.

Lemma failure_effects_witness :
  failure (fst (handle blocked_request busy_store))
  = Some (ConflictError "overlapping tour for property")
  /\ _tours (snd (handle blocked_request busy_store)) = _tours busy_store.
Proof.
  assert (H1 : failure (fst (handle blocked_request busy_store))
               = Some (ConflictError "overlapping tour for property"))
    by (vm_compute; reflexivity).
  assert (H2 : ConflictError "overlapping tour for property" <> OverflowError)
    by discriminate.
  split; [exact H1|].
  exact (proj1 (failure_effects busy_store blocked_request _ H1 H2)).
Defined.

(* ------------------------------------------------------------------ *)
(** ** Idempotency records (C9) *)

(** The idempotency map after a create call on a reachable store: untouched;
    or, the key having no live record, without the key's expired record and,
    when the call succeeds, with the new record under the key. *)
Lemma create_tour_idempotency pid cid sa ea key now nl uuid S :
  wf S ->
  _idempotency (snd (Service.create_tour pid cid sa ea key now nl uuid S))
  = _idempotency S
  \/ (live_record S key nl = None
      /\ (_idempotency (snd (Service.create_tour pid cid sa ea key now nl uuid S))
          = _idempotency (purged S key)
          \/ exists c0 k t,
               key = Some (String c0 k)
               /\ fst (Service.create_tour pid cid sa ea key now nl uuid S)
                  = Ok (t, true)
               /\ _idempotency
                    (snd (Service.create_tour pid cid sa ea key now nl uuid S))
                  = Dict.set (_idempotency (purged S key)) (String c0 k)
                      (IdempotencyRecord.mk (String c0 k) (Tour.id t)
                         (Service._fingerprint pid cid (Tour.start_at t)
                                               (Tour.end_at t))
                         now (now + timedelta_hours 24)))).
Proof.
  intros W. rewrite create_tour_spec.
  destruct (ensure_utc sa "start_at") as [s|]; [|now left].
  destruct (ensure_utc ea "end_at") as [e|]; [|now left].
  destruct (_ >=? _); [now left|]. cbv zeta.
  destruct (live_record S key nl) as [r|] eqn:L.
  - destruct (negb _); [now left|].
    destruct (Dict.get (_tours S) (IdempotencyRecord.tour_id r)) eqn:G;
      [now left|].
    exfalso. unfold live_record in L.
    destruct key as [[|c0 k]|]; try discriminate.
    destruct (Dict.get (_idempotency S) (String c0 k)) as [r0|] eqn:G0;
      [|discriminate].
    destruct (_ <=? nl); [discriminate|]. injection L as ->.
    destruct (wf_idempotency _ W _ _ G0) as (_ & _ & Hin). congruence.
  - right. split; [reflexivity|].
    destruct (commit_phase pid cid s e key (Service._fingerprint pid cid s e)
                now uuid (purged S key)) as [[[t b]|err] S1] eqn:E.
    + apply commit_phase_Ok in E. destruct E as (-> & -> & _ & _ & ->).
      cbn [fst snd]. unfold created_store. destruct key as [[|c0 k]|].
      * left. unfold committed. cbn [_idempotency].
        now rewrite idempotency_prepared.
      * right. exists c0, k. eexists. split; [reflexivity|].
        split; [reflexivity|]. unfold with_record, committed.
        cbn [_idempotency IdempotencyRecord.key Tour.id Tour.start_at Tour.end_at].
        now rewrite idempotency_prepared.
      * left. unfold committed. cbn [_idempotency].
        now rewrite idempotency_prepared.
    + apply commit_phase_Raise in E. left. cbn [snd].
      destruct E as [(_ & _ & ->)|[(_ & _ & _ & ->)|(_ & _ & _ & ->)]];
        unfold committed; cbn [_idempotency]; now rewrite idempotency_prepared.
Qed.

Lemma handle_idempotency q S :
  ~ is_create q -> _idempotency (snd (handle q S)) = _idempotency S.
Proof.
  intros Hn. rewrite snd_handle. destruct q; try reflexivity.
  - elim Hn. exact I.
  - rewrite cancel_tour_spec. now destruct (Dict.get _ _).
Qed.

Lemma handle_idempotency_cases S q :
  wf S ->
  _idempotency (snd (handle q S)) = _idempotency S
  \/ exists pid cid sa ea key now nl uuid,
       q = Create pid cid sa ea key now nl uuid
       /\ live_record S key nl = None
       /\ (_idempotency (snd (handle q S)) = _idempotency (purged S key)
           \/ exists c0 k t,
                key = Some (String c0 k)
                /\ fst (handle q S) = Created (Ok (t, true))
                /\ _idempotency (snd (handle q S))
                   = Dict.set (_idempotency (purged S key)) (String c0 k)
                       (IdempotencyRecord.mk (String c0 k) (Tour.id t)
                          (Service._fingerprint pid cid (Tour.start_at t)
                                                (Tour.end_at t))
                          now (now + timedelta_hours 24))).
Proof.
  intros W.
  destruct q as [pid cid sa ea key now nl uuid|tid|pid d sort page size|tid clock].
  2-4: left; apply handle_idempotency; intros [].
  pose proof (create_tour_idempotency pid cid sa ea key now nl uuid S W) as Hc.
  unfold handle.
  destruct (Service.create_tour pid cid sa ea key now nl uuid S) as [r S1].
  cbn [fst snd] in *.
  destruct Hc as [Hc|[L Hc]]; [now left|].
  right. exists pid, cid, sa, ea, key, now, nl, uuid.
  split; [reflexivity|]. split; [exact L|].
  destruct Hc as [Hc|(c0 & k & t & -> & -> & Hc)]; [now left|].
  right. exists c0, k, t. auto.
Qed.

(** C9.  On a reachable store:
    - a record that is in the store after a request and was not there before,
      under that key and with that content, was written by a create call that
      supplied the key, found no live record for it and succeeded with
      [wasCreated = true]; it carries the call's fingerprint and the new tour's
      id, and [expires_at = created_at + 24 hours];
    - a stored record stays as it is through every request, except a create
      call that supplies its key at a lookup time at or past its expiry, so no
      request changes the fingerprint of a record;
    - a lookup compares [expires_at] with the clock: a record with
      [expires_at <= clock] is answered as absent and removed, any other is
      handed out and the store is untouched;
    - a create call that supplies a key whose record has expired does exactly
      what it does on the store without that record: same outcome and same
      store left behind, or the same validation failure with either store
      left as it was. *)
Theorem idempotency_record_lifecycle :
  forall S,
    reachable S ->
    (forall q k r',
        Dict.get (_idempotency (snd (handle q S))) k = Some r' ->
        Dict.get (_idempotency S) k <> Some r' ->
        exists pid cid now nl t,
          create_with q pid cid k now nl
          /\ live_record S (Some k) nl = None
          /\ fst (handle q S) = Created (Ok (t, true))
          /\ r' = IdempotencyRecord.mk k (Tour.id t)
                    (Service._fingerprint pid cid (Tour.start_at t)
                                          (Tour.end_at t))
                    now (now + timedelta_hours 24)
          /\ IdempotencyRecord.expires_at r'
             = IdempotencyRecord.created_at r' + timedelta_hours 24)
    /\ (forall q k r,
          Dict.get (_idempotency S) k = Some r ->
          Dict.get (_idempotency (snd (handle q S))) k = Some r
          \/ exists pid cid now nl,
               create_with q pid cid k now nl
               /\ IdempotencyRecord.expires_at r <= nl)
    /\ (forall k clock,
          Storage.get_idempotency_record k clock S
          = match Dict.get (_idempotency S) k with
            | Some r =>
                if IdempotencyRecord.expires_at r <=? clock
                then (Ok None,
                      mk_storage (_tours S) (Dict.del (_idempotency S) k)
                                 (_rate_limits S))
                else (Ok (Some r), S)
            | None => (Ok None, S)
            end)
    /\ (forall pid cid sa ea c0 k now nl uuid r,
          Dict.get (_idempotency S) (String c0 k) = Some r ->
          IdempotencyRecord.expires_at r <= nl ->
          let S' := mk_storage (_tours S)
                               (Dict.del (_idempotency S) (String c0 k))
                               (_rate_limits S) in
          let R := Service.create_tour pid cid sa ea (Some (String c0 k))
                                       now nl uuid S in
          let R' := Service.create_tour pid cid sa ea (Some (String c0 k))
                                        now nl uuid S' in
          R = R' \/ (exists err, R = (Raise err, S) /\ R' = (Raise err, S'))).
Proof.
  intros S HR. apply reachable_wf in HR.
  split; [|split; [|split]].
  - intros q k r' G' Hnew.
    destruct (handle_idempotency_cases S q HR)
      as [Hq|(pid & cid & sa & ea & key & now & nl & uuid & -> & L & Hq)].
    { rewrite Hq in G'. contradiction. }
    destruct Hq as [Hq|(c0 & k0 & t & -> & Hfst & Hq)].
    { rewrite Hq in G'. apply idempotency_purged_sub in G'. contradiction. }
    rewrite Hq, get_set in G'.
    destruct (keqb (String c0 k0) k) eqn:E.
    + apply keqb_true in E. subst k. injection G' as <-.
      exists pid, cid, now, nl, t. cbn. auto 10.
    + apply idempotency_purged_sub in G'. contradiction.
  - intros q k r G.
    destruct (handle_idempotency_cases S q HR)
      as [Hq|(pid & cid & sa & ea & key & now & nl & uuid & -> & L & Hq)].
    { left. now rewrite Hq. }
    destruct (wf_idempotency _ HR _ _ G) as (_ & Hne & _).
    destruct k as [|c1 k1]; [contradiction|].
    assert (Hdec : key = Some (String c1 k1) \/ key <> Some (String c1 k1)).
    { destruct key as [k0|]; [|right; discriminate].
      destruct (string_dec k0 (String c1 k1)) as [->|Hn];
        [now left | right; congruence]. }
    destruct Hdec as [->|Hk].
    + right. exists pid, cid, now, nl. split; [cbn; auto|].
      unfold live_record in L. rewrite G in L.
      destruct (IdempotencyRecord.expires_at r <=? nl) eqn:X; [|discriminate].
      now apply Z.leb_le.
    + left.
      assert (Hp : Dict.get (_idempotency (purged S key)) (String c1 k1) = Some r).
      { destruct key as [[|c0 k0]|]; try exact G.
        cbn [purged _idempotency]. rewrite get_del_other; [exact G|].
        congruence. }
      destruct Hq as [Hq|(c0 & k0 & t & -> & _ & Hq)]; rewrite Hq; [exact Hp|].
      rewrite get_set_other; [exact Hp | congruence].
  - intros k clock. reflexivity.
  - intros pid cid sa ea c0 k now nl uuid r G X. cbv zeta.
    rewrite !create_tour_spec.
    destruct (ensure_utc sa "start_at") as [s|]; [|right; eauto].
    destruct (ensure_utc ea "end_at") as [e|]; [|right; eauto].
    destruct (_ >=? _); [right; eauto|]. left. cbv zeta.
    assert (L1 : live_record S (Some (String c0 k)) nl = None).
    { unfold live_record. rewrite G.
      apply Z.leb_le in X. now rewrite X. }
    assert (L2 : live_record
                   (mk_storage (_tours S)
                               (Dict.del (_idempotency S) (String c0 k))
                               (_rate_limits S))
                   (Some (String c0 k)) nl = None).
    { unfold live_record. cbn [_idempotency]. now rewrite get_del_same. }
    rewrite L1, L2. cbn [purged _tours _idempotency _rate_limits].
    now rewrite (del_absent _ _ (get_del_same _ _)).
Qed.

(** A record written at [T0] and looked up again 25 hours later. *)
Lemma idempotency_record_lifecycle_witness :
  let S := snd (run [keyed_request T0 T0 "0123456789abcdef0123456789abcdef"]
                    new_storage) in
  reachable S
  /\ Storage.get_idempotency_record "K" (T0 + timedelta_hours 25) S
     = (Ok None, mk_storage (_tours S) [] (_rate_limits S))
  /\ Storage.get_idempotency_record "K" (T0 + timedelta_hours 23) S
     = (Ok (Some (IdempotencyRecord.mk "K" "tour_0123456789ab"
                    (Service._fingerprint "P1" "C1" (T0 + minutes 600)
                                          (T0 + minutes 630))
                    T0 (T0 + timedelta_hours 24))), S).
Proof.
  cbv zeta.
  assert (HR : reachable
                 (snd (run [keyed_request T0 T0 "0123456789abcdef0123456789abcdef"]
                           new_storage)))
    by (eexists; reflexivity).
  split; [exact HR|].
  pose proof (proj1 (proj2 (proj2 (idempotency_record_lifecycle _ HR)))) as H.
  split.
  - rewrite (H "K" (T0 + timedelta_hours 25)). vm_compute. reflexivity.
  - rewrite (H "K" (T0 + timedelta_hours 23)). vm_compute. reflexivity.
Defined.

(* ------------------------------------------------------------------ *)
(** ** Listing (C8) *)

Section SortFacts.
Context {A : Type} (key : A -> Z) (reverse : bool).

Lemma key_le_true a b : key_le key reverse a b = true -> in_order key reverse a b.
Proof. unfold key_le, in_order. destruct reverse; apply Z.leb_le. Qed.

Lemma key_le_false a b : key_le key reverse a b = false -> in_order key reverse b a.
Proof.
  unfold key_le, in_order. destruct reverse; intros H%Z.leb_gt; lia.
Qed.

Lemma insert_by_perm x l :
  Permutation (insert_by (key_le key reverse) x l) (x :: l).
Proof.
  induction l as [|y r IH]; simpl; [reflexivity|].
  destruct (key_le key reverse x y); [reflexivity|].
  rewrite IH. apply perm_swap.
Qed.

Lemma list_sort_perm l : Permutation (list_sort key reverse l) l.
Proof.
  induction l as [|x l IH]; simpl; [reflexivity|].
  rewrite insert_by_perm. now constructor.
Qed.

Lemma insert_by_HdRel y x l :
  in_order key reverse y x -> HdRel (in_order key reverse) y l ->
  HdRel (in_order key reverse) y (insert_by (key_le key reverse) x l).
Proof.
  intros Hyx Hl. destruct l as [|z r]; simpl; [now constructor|].
  destruct (key_le key reverse x z); constructor; auto.
  now inversion Hl.
Qed.

Lemma insert_by_sorted x l :
  Sorted (in_order key reverse) l ->
  Sorted (in_order key reverse) (insert_by (key_le key reverse) x l).
Proof.
  induction l as [|y r IH]; simpl; intros Hs.
  - repeat constructor.
  - destruct (key_le key reverse x y) eqn:E.
    + constructor; [exact Hs|]. constructor. now apply key_le_true.
    + inversion Hs as [|? ? Hr Hhd]; subst.
      constructor; [now apply IH|].
      apply insert_by_HdRel; [now apply key_le_false | exact Hhd].
Qed.

Lemma list_sort_sorted l : Sorted (in_order key reverse) (list_sort key reverse l).
Proof.
  induction l as [|x l IH]; simpl; [constructor|].
  now apply insert_by_sorted.
Qed.
End SortFacts.

Lemma skipn_all_Z {A} (l : list A) (n : nat) :
  (List.length l <= n)%nat -> skipn n l = [].
Proof. intros. now apply skipn_all2. Qed.

(** For a page and a page size of at least 1, the slice the listing takes is
    the [page_size] elements after the first [(page - 1) * page_size]. *)
Lemma slice_page {A} (l : list A) (page page_size : Z) :
  1 <= page -> 1 <= page_size ->
  slice l ((page - 1) * page_size) ((page - 1) * page_size + page_size)
  = firstn (Z.to_nat page_size) (skipn (Z.to_nat ((page - 1) * page_size)) l).
Proof.
  intros Hp Hs. unfold slice, clamp_index.
  set (start := (page - 1) * page_size).
  assert (H0 : 0 <= start) by (unfold start; nia).
  set (n := Z.of_nat (List.length l)).
  destruct (start <? 0) eqn:E1; [apply Z.ltb_lt in E1; lia|].
  destruct (start + page_size <? 0) eqn:E2; [apply Z.ltb_lt in E2; lia|].
  destruct (Z_lt_le_dec start n) as [Hlt|Hge].
  - rewrite (Z.min_l start n) by lia.
    destruct (Z_le_gt_dec (start + page_size) n) as [Hle|Hgt].
    + rewrite Z.min_l by lia. f_equal. lia.
    + rewrite Z.min_r by lia.
      rewrite !firstn_all2; [reflexivity| |]; rewrite length_skipn; unfold n in *; lia.
  - rewrite !Z.min_r by lia. replace (n - n) with 0 by lia.
    rewrite (skipn_all_Z l (Z.to_nat start)) by (unfold n in *; lia).
    simpl. now destruct (Z.to_nat page_size).
Qed.

Lemma day_end_in_range d :
  before_last_day d ->
  timedelta_add (combine_min d) (timedelta_days 1) = Ok ((d + 1) * US_PER_DAY).
Proof.
  unfold before_last_day, timedelta_add, combine_min, timedelta_days, in_range.
  intros [H0 H1].
  replace (d * US_PER_DAY + 1 * US_PER_DAY) with ((d + 1) * US_PER_DAY) by ring.
  assert (HD : 0 < US_PER_DAY) by reflexivity.
  destruct (0 <=? (d + 1) * US_PER_DAY) eqn:E1; [|apply Z.leb_gt in E1; nia].
  destruct ((d + 1) * US_PER_DAY <? MAXORDINAL * US_PER_DAY) eqn:E2;
    [reflexivity | apply Z.ltb_ge in E2; nia].
Qed.

Lemma matches_filters_keeps t pid df :
  (forall d, df = Some d -> before_last_day d) ->
  Service._matches_filters t pid df = Ok (keeps pid df t).
Proof.
  intros Hd. unfold Service._matches_filters, keeps.
  assert (Hdate :
    match df with
    | Some d =>
        match timedelta_add (combine_min d) (timedelta_days 1) with
        | Ok day_end =>
            if negb (overlaps (Tour.start_at t) (Tour.end_at t)
                              (combine_min d) day_end)
            then Ok false else Ok true
        | Raise e => Raise e
        end
    | None => Ok true
    end
    = Ok match df with
         | Some d => (Tour.start_at t <? (d + 1) * US_PER_DAY)
                     && (d * US_PER_DAY <? Tour.end_at t)
         | None => true
         end).
  { destruct df as [d|]; [|reflexivity].
    rewrite (day_end_in_range d (Hd d eq_refl)). unfold overlaps, combine_min.
    now destruct (_ && _). }
  destruct pid as [[|c p]|]; cbn [andb]; try exact Hdate.
  destruct (Tour.property_id t =? String c p)%string; cbn [negb andb];
    [exact Hdate | reflexivity].
Qed.

Lemma filter_tours_keeps tours pid df :
  (forall d, df = Some d -> before_last_day d) ->
  Service.filter_tours tours pid df = Ok (filter (keeps pid df) tours).
Proof.
  intros Hd. induction tours as [|t r IH]; simpl; [reflexivity|].
  now rewrite (matches_filters_keeps t pid df Hd), IH.
Qed.

Lemma list_tours_spec pid df sort page size S :
  Service.list_tours pid df sort page size S =
  match Service.filter_tours (Dict.values (_tours S)) pid df with
  | Raise err => (Raise err, S)
  | Ok filtered =>
      let '(reverse, sort_field) :=
        match sort with
        | String "-" rest => (true, rest)
        | _ => (false, sort)
        end in
      if negb (sort_field =? "start_at")%string
      then (Raise (BadRequestError "unsupported sort field" (Some "sort")), S)
      else
        let sorted := list_sort Tour.start_at reverse filtered in
        (Ok (slice sorted ((page - 1) * size) ((page - 1) * size + size),
             Z.of_nat (List.length sorted)), S)
  end.
Proof.
  unfold Service.list_tours, bind, Storage.list_tours, lift.
  destruct (Service.filter_tours _ pid df) as [filtered|]; [|reflexivity].
  destruct (match sort with
            | String "-" rest => (true, rest)
            | _ => (false, sort)
            end) as [reverse sort_field].
  now destruct (negb _).
Qed.

Lemma sort_field_other sort :
  sort <> "start_at" -> sort <> "-start_at" ->
  exists reverse sort_field,
    match sort with
    | String "-" rest => (true, rest)
    | _ => (false, sort)
    end = (reverse, sort_field)
    /\ (sort_field =? "start_at")%string = false.
Proof.
  intros H1 H2. destruct sort as [|c rest].
  - exists false, EmptyString. now split.
  - destruct (Ascii.eqb c "-") eqn:E.
    + apply Ascii.eqb_eq in E. subst c. exists true, rest. split; [reflexivity|].
      apply String.eqb_neq. intros ->. now apply H2.
    + exists false, (String c rest). split.
      * destruct c as [[] [] [] [] [] [] [] []]; try reflexivity. discriminate E.
      * now apply String.eqb_neq.
Qed.

(** C8, as the code has it.  For a page and a page size of at least 1 and a
    date filter, if given, other than the last day of the calendar: the
    listing keeps exactly the tours that match the property id, when one is
    given and is not the empty text, and whose interval half-open-overlaps
    [[D 00:00, D+1 00:00)) when a day [D] is given; it sorts them by
    [start_at], ascending for ["start_at"] and descending for ["-start_at"];
    it returns positions [[(page-1)*size, (page-1)*size + size)) of the sorted
    list; [total] is the number of kept tours; any other sort text fails with
    the bad-request naming [sort]; and the store is untouched. *)
Theorem list_tours_filter_sort_page :
  forall S pid df page size,
    1 <= page -> 1 <= size ->
    (forall d, df = Some d -> before_last_day d) ->
    (forall reverse,
        let kept := filter (keeps pid df) (Dict.values (_tours S)) in
        let sorted := list_sort Tour.start_at reverse kept in
        Service.list_tours pid df (if reverse then "-start_at" else "start_at")
                           page size S
        = (Ok (firstn (Z.to_nat size)
                      (skipn (Z.to_nat ((page - 1) * size)) sorted),
               Z.of_nat (List.length kept)), S)
        /\ Permutation sorted kept
        /\ Sorted (in_order Tour.start_at reverse) sorted)
    /\ (forall sort,
          sort <> "start_at" -> sort <> "-start_at" ->
          Service.list_tours pid df sort page size S
          = (Raise (BadRequestError "unsupported sort field" (Some "sort")), S)).
Proof.
  intros S pid df page size Hp Hs Hd. split.
  - intros reverse. cbv zeta. split; [|split].
    + rewrite list_tours_spec, (filter_tours_keeps _ pid df Hd).
      destruct reverse; cbn [negb String.eqb Ascii.eqb Bool.eqb]; cbv zeta;
        rewrite (Permutation_length (list_sort_perm Tour.start_at _ _));
        now rewrite slice_page.
    + apply list_sort_perm.
    + apply list_sort_sorted.
  - intros sort H1 H2.
    rewrite list_tours_spec, (filter_tours_keeps _ pid df Hd).
    destruct (sort_field_other sort H1 H2) as (reverse & sf & -> & ->).
    reflexivity.
Qed.

(** C8 fails as stated: asked for the empty property id, the listing applies no
    property filter and returns all four tours, none of which has that id. *)
Lemma list_tours_filter_sort_page_counterexample :
  (exists items,
      fst (Service.list_tours (Some EmptyString) None "start_at" 1 20 busy_store)
      = Ok (items, 4)
      /\ map Tour.property_id items = ["P2"; "P3"; "P4"; "P1"])
  /\ filter (fun t => (Tour.property_id t =? EmptyString)%string)
            (Dict.values (_tours busy_store)) = [].
Proof.
  split; [|vm_compute; reflexivity].
  eexists. split; vm_compute; reflexivity.
Qed.

(** On the last day of the calendar the end of the day is past the largest
    datetime, and the listing raises [OverflowError]. *)
Lemma list_tours_last_day_overflows :
  fst (Service.list_tours None (Some (MAXORDINAL - 1)) "start_at" 1 20 busy_store)
  = Raise OverflowError.
Proof. vm_compute. reflexivity. Qed.

Lemma list_tours_filter_sort_page_witness :
  exists items,
    Service.list_tours (Some "P1") (Some (date_of T0)) "-start_at" 1 20 busy_store
    = (Ok (items, 1), busy_store)
    /\ map Tour.id items = ["tour_400000000000"].
Proof.
  assert (H1 : 1 <= 1) by reflexivity.
  assert (H2 : 1 <= 20) by discriminate.
  assert (H3 : forall d, Some (date_of T0) = Some d -> before_last_day d).
  { intros d [= <-]. split; [discriminate | reflexivity]. }
  pose proof (proj1 (proj1 (list_tours_filter_sort_page busy_store (Some "P1")
                              (Some (date_of T0)) 1 20 H1 H2 H3) true)) as H.
  cbv zeta in H. eexists. split; [exact H|].
  vm_compute. reflexivity.
Defined.

(* ------------------------------------------------------------------ *)
(** ** The daily quota (C4) *)

Lemma counter_of_fields S c d :
  wf S ->
  RateLimitCounter.customer_id (counter_of S c d) = c
  /\ RateLimitCounter.day (counter_of S c d) = d.
Proof.
  intros W. unfold counter_of.
  destruct (Dict.get (_rate_limits S) (c, d)) eqn:G; [|now split].
  destruct (wf_rate_limits _ W _ _ _ G) as (H1 & H2 & _). now split.
Qed.

Lemma rl_count_committed t now c S c' d' :
  wf S ->
  rl_count (committed t (counter_of (cleanup now S) c (date_of now))
                      (prepared now c S)) c' d'
  = if same_key c (date_of now) c' d'
    then rl_count S c (date_of now) + 1
    else if d' <? date_of now then 0 else rl_count S c' d'.
Proof.
  intros W.
  destruct (counter_of_fields (cleanup now S) c (date_of now) (wf_cleanup now S W))
    as [Hc Hd].
  unfold committed, rl_count at 1. cbn [_rate_limits]. rewrite Hc, Hd, get_set.
  change (keqb (c, date_of now) (c', d')) with (same_key c (date_of now) c' d').
  destruct (same_key c (date_of now) c' d').
  - cbn [RateLimitCounter.increment RateLimitCounter.count].
    now rewrite count_today.
  - apply rl_count_prepared.
Qed.

Lemma rl_count_with_record r S c d : rl_count (with_record r S) c d = rl_count S c d.
Proof. reflexivity. Qed.

Lemma rl_count_created_store key fp now t c S c' d' :
  wf S ->
  rl_count (created_store key fp now t c S) c' d'
  = if same_key c (date_of now) c' d'
    then rl_count S c (date_of now) + 1
    else if d' <? date_of now then 0 else rl_count S c' d'.
Proof.
  intros W. unfold created_store.
  destruct key as [[|c0 k]|]; try rewrite rl_count_with_record;
    now apply rl_count_committed.
Qed.

(** What a create call does to the counts, in three cases: nothing; the
    housekeeping alone; the housekeeping and one more for (customer, today),
    which was below 3.  Only in the last case can the answer be a fresh
    booking. *)
Lemma create_tour_counts pid cid sa ea key now nl uuid S :
  wf S ->
  let R := Service.create_tour pid cid sa ea key now nl uuid S in
  (created (fst R) = false
   /\ forall c d, rl_count (snd R) c d = rl_count S c d)
  \/ (created (fst R) = false
      /\ forall c d, rl_count (snd R) c d
                     = if d <? date_of now then 0 else rl_count S c d)
  \/ (rl_count S cid (date_of now) < 3
      /\ (created (fst R) = true
          \/ (fst R = Raise OverflowError
              /\ in_range (now + timedelta_hours 24) = false))
      /\ forall c d, rl_count (snd R) c d
                     = if same_key cid (date_of now) c d
                       then rl_count S cid (date_of now) + 1
                       else if d <? date_of now then 0 else rl_count S c d).
Proof.
  intros W. cbv zeta.
  assert (Hc : forall s e fp S0,
    wf S0 -> (forall c d, rl_count S0 c d = rl_count S c d) ->
    let R := commit_phase pid cid s e key fp now uuid S0 in
    (created (fst R) = false
     /\ forall c d, rl_count (snd R) c d
                    = if d <? date_of now then 0 else rl_count S c d)
    \/ (rl_count S cid (date_of now) < 3
        /\ (created (fst R) = true
            \/ (fst R = Raise OverflowError
                /\ in_range (now + timedelta_hours 24) = false))
        /\ forall c d, rl_count (snd R) c d
                       = if same_key cid (date_of now) c d
                         then rl_count S cid (date_of now) + 1
                         else if d <? date_of now then 0 else rl_count S c d)).
  { intros s e fp S0 W0 H0. cbv zeta.
    destruct (commit_phase pid cid s e key fp now uuid S0) as [[[t b]|err] S1] eqn:E.
    - apply commit_phase_Ok in E. destruct E as (-> & _ & Hq & _ & ->).
      right. rewrite H0 in Hq. split; [exact Hq|]. split; [now left|].
      intros c d. cbn [snd]. rewrite rl_count_created_store by exact W0.
      now rewrite !H0.
    - pose proof E as E'. apply commit_phase_Raise in E.
      destruct E as [(-> & _ & ->)|[(-> & _ & _ & ->)|(-> & _ & Hr & ->)]].
      + left. split; [reflexivity|]. intros c d. cbn [snd].
        now rewrite rl_count_prepared, H0.
      + left. split; [reflexivity|]. intros c d. cbn [snd].
        now rewrite rl_count_prepared, H0.
      + right. split.
        * rewrite commit_phase_spec in E'. cbv zeta in E'.
          rewrite count_today, H0 in E'.
          destruct (rl_count S cid (date_of now) >=? 3) eqn:Hq; [discriminate|].
          rewrite Z.geb_leb in Hq. now apply Z.leb_gt in Hq.
        * split; [right; now split|]. intros c d. cbn [snd].
          rewrite rl_count_committed by exact W0. now rewrite !H0. }
  rewrite create_tour_spec.
  destruct (ensure_utc sa "start_at") as [s|]; [|left; now split].
  destruct (ensure_utc ea "end_at") as [e|]; [|left; now split].
  destruct (_ >=? _); [left; now split|]. cbv zeta.
  destruct (live_record S key nl).
  - destruct (negb _); [left; now split|].
    destruct (Dict.get _ _); [left; now split|].
    right. now apply Hc.
  - right. apply Hc; [now apply wf_purged|]. intros c d. apply rl_count_purged.
Qed.




Lemma rl_count_handle_other q S c d :
  ~ is_create q -> rl_count (snd (handle q S)) c d = rl_count S c d.
Proof.
  intros Hn. rewrite snd_handle. destruct q; try reflexivity.
  - elim Hn. exact I.
  - rewrite cancel_tour_spec. now destruct (Dict.get _ _).
Qed.




(** The order of the clock readings matters: when the clock of a later call
    reads an earlier day than that of a call served before it, whose cleanup
    has dropped the counters of that day, the customer gets a fourth booking
    stamped with the earlier day. *)
Lemma quota_needs_ordered_clock :
  let late := [ Create "P9" "C2" (utc (T0 + minutes 600)) (utc (T0 + minutes 630))
                       None (T0 + timedelta_days 1) (T0 + timedelta_days 1)
                       "90000000000000000000000000000000";
                Create "P4" "C1" (utc (T0 + minutes 600)) (utc (T0 + minutes 630))
                       None (T0 + minutes 3) (T0 + minutes 3)
                       "40000000000000000000000000000000" ] in
  bookings "C1" (date_of T0) (firstn 3 quota_day ++ late)
           (fst (run (firstn 3 quota_day ++ late) new_storage)) = 4.
Proof. vm_compute. reflexivity. Qed.


(* ================================================================== *)
(** * Further properties of the code *)

(** ** Dictionaries as lists of entries *)

Section DictEntries.
Context {K V : Type} `{KeyEq K}.
Implicit Types (d : Dict.t K V) (k : K) (v : V).

Lemma get_In d k v : Dict.get d k = Some v -> In (k, v) d.
Proof.
  induction d as [|[k' v'] r IH]; simpl; [discriminate|].
  destruct (keqb k' k) eqn:E.
  - intros [= ->]. apply keqb_true in E. subst. now left.
  - intros G. right. auto.
Qed.

Lemma get_In_values d k v : Dict.get d k = Some v -> In v (Dict.values d).
Proof. intros G. apply get_In in G. apply (in_map snd) in G. exact G. Qed.

Lemma keys_set d k v :
  Dict.keys (Dict.set d k v)
  = match Dict.get d k with
    | Some _ => Dict.keys d
    | None => Dict.keys d ++ [k]
    end.
Proof.
  unfold Dict.keys.
  induction d as [|[k' v'] r IH]; simpl; [reflexivity|].
  destruct (keqb k' k) eqn:E; simpl; [reflexivity|].
  rewrite IH. now destruct (Dict.get r k).
Qed.

Lemma nodup_keys_set d k v :
  NoDup (Dict.keys d) -> NoDup (Dict.keys (Dict.set d k v)).
Proof.
  intros N. rewrite keys_set. destruct (Dict.get d k) eqn:G; [exact N|].
  apply get_None_keys in G.
  apply (Permutation_NoDup (l := k :: Dict.keys d)).
  - apply Permutation_cons_append.
  - now constructor.
Qed.

Lemma In_get d k v : NoDup (Dict.keys d) -> In (k, v) d -> Dict.get d k = Some v.
Proof.
  induction d as [|[k' v'] r IH]; simpl; [intros _ []|].
  intros N [E|I].
  - inversion E; subst. now rewrite keqb_refl.
  - inversion N as [|? ? Hn N']; subst.
    destruct (keqb k' k) eqn:E.
    + apply keqb_true in E; subst. exfalso. apply Hn.
      apply (in_map fst) in I. exact I.
    + auto.
Qed.

Lemma In_values_get d x :
  NoDup (Dict.keys d) -> In x (Dict.values d) -> exists k, Dict.get d k = Some x.
Proof.
  intros N I. apply in_map_iff in I. destruct I as [[k v] [E I]].
  simpl in E; subst v. exists k. now apply In_get.
Qed.

Lemma In_set d k v kv : In kv (Dict.set d k v) -> kv = (k, v) \/ In kv d.
Proof.
  induction d as [|[k' v'] r IH]; simpl.
  - intros [<-|[]]. now left.
  - destruct (keqb k' k) eqn:E; simpl.
    + intros [<-|I]; [left; apply keqb_true in E; now subst | right; now right].
    + intros [<-|I]; [right; now left|].
      destruct (IH I); [now left | right; now right].
Qed.

Lemma length_set d k v :
  List.length (Dict.set d k v)
  = match Dict.get d k with
    | Some _ => List.length d
    | None => S (List.length d)
    end.
Proof.
  induction d as [|[k' v'] r IH]; simpl; [reflexivity|].
  destruct (keqb k' k); simpl; [reflexivity|].
  rewrite IH. now destruct (Dict.get r k).
Qed.
End DictEntries.

(** ** Invariants of the stores the service builds *)

Lemma reachable_new_storage : reachable new_storage.
Proof. exists []. reflexivity. Qed.

Lemma reachable_handle q S : reachable S -> reachable (snd (handle q S)).
Proof.
  intros R. apply (reachable_run [q]) in R.
  rewrite snd_run_cons in R. exact R.
Qed.

(** A property of the empty store that every request keeps holds of every
    reachable store. *)
Lemma reachable_invariant (P : InMemoryTourStorage -> Prop) :
  P new_storage ->
  (forall q S, reachable S -> P S -> P (snd (handle q S))) ->
  forall S, reachable S -> P S.
Proof.
  intros P0 Pstep.
  assert (G : forall qs S, reachable S -> P S -> P (snd (run qs S))).
  { induction qs as [|q qs IH]; intros S R HP; [exact HP|].
    rewrite snd_run_cons. apply IH; [now apply reachable_handle | now apply Pstep]. }
  intros S [qs ->]. apply G; [apply reachable_new_storage | exact P0].
Qed.

(** What the commit stage does to the tours: nothing, or it saves the new
    tour after the quota check and the overlap scan let it through. *)
Lemma commit_phase_saves pid cid s e key fp now uuid S :
  _tours (snd (commit_phase pid cid s e key fp now uuid S)) = _tours S
  \/ (rl_count S cid (date_of now) < 3
      /\ (forall t', In t' (Dict.values (_tours S)) -> ~ blocks pid s e t')
      /\ _tours (snd (commit_phase pid cid s e key fp now uuid S))
         = Dict.set (_tours S) (Service._generate_tour_id uuid)
                    (Tour.mk (Service._generate_tour_id uuid) pid cid s e
                             BOOKED now now)).
Proof.
  rewrite commit_phase_spec. cbv zeta. rewrite count_today.
  destruct (rl_count S cid (date_of now) >=? 3) eqn:Hq.
  - left. apply tours_prepared.
  - rewrite Z.geb_leb in Hq. apply Z.leb_gt in Hq.
    destruct (ensure_no_overlap_loop_cases (Dict.values (_tours S)) pid s e)
      as [[E _]|[E Hall]]; rewrite E.
    + left. apply tours_prepared.
    + right. split; [exact Hq|]. split; [exact Hall|].
      destruct key as [[|c0 k]|];
        [| destruct (timedelta_add now (timedelta_hours 24)) |];
        simpl; now rewrite tours_prepared.
Qed.

Lemma create_tour_saves pid cid sa ea key now nl uuid S :
  _tours (snd (Service.create_tour pid cid sa ea key now nl uuid S)) = _tours S
  \/ exists s e,
       ensure_utc sa "start_at" = Ok s /\ ensure_utc ea "end_at" = Ok e
       /\ s < e
       /\ rl_count S cid (date_of now) < 3
       /\ (forall t', In t' (Dict.values (_tours S)) -> ~ blocks pid s e t')
       /\ _tours (snd (Service.create_tour pid cid sa ea key now nl uuid S))
          = Dict.set (_tours S) (Service._generate_tour_id uuid)
                     (Tour.mk (Service._generate_tour_id uuid) pid cid s e
                              BOOKED now now).
Proof.
  rewrite create_tour_spec.
  destruct (ensure_utc sa "start_at") as [s|err] eqn:Es; [|now left].
  destruct (ensure_utc ea "end_at") as [e|err] eqn:Ee; [|now left].
  destruct (s >=? e) eqn:Hse; [now left|].
  rewrite Z.geb_leb in Hse. apply Z.leb_gt in Hse.
  cbv zeta.
  assert (Hc : forall S0,
             _tours S0 = _tours S ->
             (forall c d, rl_count S0 c d = rl_count S c d) ->
             _tours (snd (commit_phase pid cid s e key
                            (Service._fingerprint pid cid s e) now uuid S0))
             = _tours S
             \/ exists s0 e0,
                  Ok s = Ok s0 /\ Ok e = Ok e0 /\ s0 < e0
                  /\ rl_count S cid (date_of now) < 3
                  /\ (forall t', In t' (Dict.values (_tours S)) ->
                                 ~ blocks pid s0 e0 t')
                  /\ _tours (snd (commit_phase pid cid s e key
                                    (Service._fingerprint pid cid s e) now
                                    uuid S0))
                     = Dict.set (_tours S) (Service._generate_tour_id uuid)
                                (Tour.mk (Service._generate_tour_id uuid) pid
                                         cid s0 e0 BOOKED now now)).
  { intros S0 Ht Hr.
    destruct (commit_phase_saves pid cid s e key
                (Service._fingerprint pid cid s e) now uuid S0)
      as [E|(Hq & Hall & E)].
    - left. now rewrite E.
    - right. exists s, e. rewrite <- Hr, <- Ht. auto 7. }
  destruct (live_record S key nl) as [r|].
  - destruct (negb _); [now left|].
    destruct (Dict.get (_tours S) (IdempotencyRecord.tour_id r)); [now left|].
    apply Hc; auto.
  - apply Hc; [apply tours_purged | intros; apply rl_count_purged].
Qed.

Lemma cancel_fields t clock :
  Tour.property_id (Tour.cancel t clock) = Tour.property_id t
  /\ Tour.customer_id (Tour.cancel t clock) = Tour.customer_id t
  /\ Tour.start_at (Tour.cancel t clock) = Tour.start_at t
  /\ Tour.end_at (Tour.cancel t clock) = Tour.end_at t
  /\ Tour.created_at (Tour.cancel t clock) = Tour.created_at t.
Proof. unfold Tour.cancel. destruct (negb _); simpl; auto. Qed.

Lemma nodup_handle q S :
  NoDup (Dict.keys (_tours S)) -> NoDup (Dict.keys (_tours (snd (handle q S)))).
Proof.
  intros N. rewrite snd_handle. destruct q as [pid cid sa ea key now nl uuid| | |tid clock].
  - destruct (create_tour_tours pid cid sa ea key now nl uuid S) as [E|[s [e E]]];
      rewrite E; [exact N | now apply nodup_keys_set].
  - exact N.
  - exact N.
  - rewrite cancel_tour_spec. destruct (Dict.get (_tours S) tid); simpl;
      [now apply nodup_keys_set | exact N].
Qed.

Lemma reachable_nodup S : reachable S -> NoDup (Dict.keys (_tours S)).
Proof.
  intros R.
  apply (reachable_invariant (fun S => NoDup (Dict.keys (_tours S))));
    [constructor | intros q S0 _; apply nodup_handle | exact R].
Qed.

Lemma sound_handle q S :
  (forall k t, Dict.get (_tours S) k = Some t -> sound_tour t) ->
  forall k t, Dict.get (_tours (snd (handle q S))) k = Some t -> sound_tour t.
Proof.
  intros Hs k t. rewrite snd_handle.
  destruct q as [pid cid sa ea key now nl uuid| | |tid clock]; try apply Hs.
  - destruct (create_tour_saves pid cid sa ea key now nl uuid S)
      as [E|(s & e & Es & Ee & Hse & _ & _ & E)]; rewrite E; [apply Hs|].
    rewrite get_set. destruct (keqb _ k); [|apply Hs].
    intros [= <-]. unfold sound_tour; simpl.
    apply ensure_utc_in_range in Es. apply ensure_utc_in_range in Ee. auto.
  - rewrite cancel_tour_spec.
    destruct (Dict.get (_tours S) tid) as [t0|] eqn:G; simpl; [|apply Hs].
    rewrite get_set. destruct (keqb _ k); [|apply Hs].
    intros [= <-]. destruct (Hs _ _ G) as (H1 & H2 & H3 & _).
    destruct (cancel_fields t0 clock) as (_ & _ & E1 & E2 & _).
    unfold sound_tour. rewrite E1, E2, status_cancel.
    repeat split; auto. discriminate.
Qed.

Lemma no_double_booking_handle q S :
  wf S -> no_double_booking S -> no_double_booking (snd (handle q S)).
Proof.
  intros W Hn. rewrite snd_handle.
  destruct q as [pid cid sa ea key now nl uuid| | |tid clock]; try exact Hn.
  - destruct (create_tour_saves pid cid sa ea key now nl uuid S)
      as [E|(s & e & _ & _ & Hse & _ & Hall & E)];
      unfold no_double_booking; rewrite E; [exact Hn|].
    intros k1 k2 t1 t2 Hk. rewrite !get_set.
    destruct (keqb _ k1) eqn:E1; destruct (keqb _ k2) eqn:E2.
    + apply keqb_true in E1. apply keqb_true in E2. congruence.
    + intros [= <-] G2 Hp _ Hb. simpl in *.
      destruct (overlaps s e _ _) eqn:O; [exfalso|reflexivity].
      apply overlaps_iff in O. apply (Hall t2 (get_In_values _ _ _ G2)).
      unfold blocks. intuition.
    + intros G1 [= <-] Hp Hb _. simpl in *.
      destruct (overlaps _ _ s e) eqn:O; [exfalso|reflexivity].
      apply overlaps_iff in O. apply (Hall t1 (get_In_values _ _ _ G1)).
      unfold blocks. intuition.
    + apply Hn. exact Hk.
  - rewrite cancel_tour_spec.
    destruct (Dict.get (_tours S) tid) as [t0|] eqn:G; simpl; [|exact Hn].
    unfold no_double_booking; simpl.
    intros k1 k2 t1 t2 Hk. rewrite !get_set.
    destruct (keqb _ k1) eqn:E1.
    { intros [= <-] _ _ Hb. rewrite status_cancel in Hb. discriminate. }
    destruct (keqb _ k2) eqn:E2.
    { intros _ [= <-] _ _ Hb. rewrite status_cancel in Hb. discriminate. }
    apply Hn. exact Hk.
Qed.

Lemma reachable_no_double_booking S : reachable S -> no_double_booking S.
Proof.
  intros R.
  apply (reachable_invariant no_double_booking); [| |exact R].
  - intros k1 k2 t1 t2 _ G. discriminate G.
  - intros q S0 R0 Hn.
    apply no_double_booking_handle; [now apply reachable_wf | exact Hn].
Qed.

Lemma reachable_sound S k t :
  reachable S -> Dict.get (_tours S) k = Some t -> sound_tour t.
Proof.
  intros R. revert k t.
  apply (reachable_invariant
           (fun S => forall k t, Dict.get (_tours S) k = Some t -> sound_tour t));
    [| |exact R].
  - intros k t G. discriminate G.
  - intros q S0 _ Hs. now apply sound_handle.
Qed.

(** X1.  In every store the service can reach, two different stored tours of
    one property that are both booked never overlap, and every stored tour
    has a non-empty interval of representable instants and, while it is
    booked, the update time it was created with. *)
Theorem no_double_booking_reachable :
  forall S, reachable S ->
    no_double_booking S
    /\ (forall k t, Dict.get (_tours S) k = Some t -> sound_tour t).
Proof.
  intros S R. split.
  - now apply reachable_no_double_booking.
  - intros k t. now apply reachable_sound.
Qed.

Lemma no_double_booking_reachable_witness :
  reachable busy_store
  /\ no_double_booking busy_store
  /\ (forall k t, Dict.get (_tours busy_store) k = Some t -> sound_tour t).
Proof.
  assert (R : reachable busy_store) by (exists busy_day; reflexivity).
  split; [exact R|]. exact (no_double_booking_reachable busy_store R).
Defined.

(** ** Every way a create call returns *)

Lemma create_tour_Ok pid cid sa ea key now nl uuid S t b S1 :
  Service.create_tour pid cid sa ea key now nl uuid S = (Ok (t, b), S1) ->
  exists s e,
    ensure_utc sa "start_at" = Ok s /\ ensure_utc ea "end_at" = Ok e /\ s < e
    /\ ((b = false /\ S1 = S
         /\ exists r,
              live_record S key nl = Some r
              /\ IdempotencyRecord.fingerprint r
                 = Service._fingerprint pid cid s e
              /\ Dict.get (_tours S) (IdempotencyRecord.tour_id r) = Some t)
        \/ (b = true
            /\ t = Tour.mk (Service._generate_tour_id uuid) pid cid s e
                           BOOKED now now
            /\ rl_count S cid (date_of now) < 3
            /\ (forall t', In t' (Dict.values (_tours S)) -> ~ blocks pid s e t')
            /\ exists S0,
                 (S0 = S \/ (S0 = purged S key /\ live_record S key nl = None))
                 /\ S1 = created_store key (Service._fingerprint pid cid s e)
                                       now t cid S0)).
Proof.
  rewrite create_tour_spec.
  destruct (ensure_utc sa "start_at") as [s|err] eqn:Es; [|discriminate].
  destruct (ensure_utc ea "end_at") as [e|err] eqn:Ee; [|discriminate].
  destruct (s >=? e) eqn:Hse; [discriminate|].
  rewrite Z.geb_leb in Hse. apply Z.leb_gt in Hse.
  cbv zeta. intros E. exists s, e. do 3 (split; [auto|]).
  destruct (live_record S key nl) as [r|] eqn:L.
  - destruct (IdempotencyRecord.fingerprint r
              =? Service._fingerprint pid cid s e)%string eqn:F;
      simpl in E; [|discriminate].
    apply String.eqb_eq in F.
    destruct (Dict.get (_tours S) (IdempotencyRecord.tour_id r)) as [t0|] eqn:G.
    + injection E as <- <- <-. left. do 2 (split; [reflexivity|]).
      exists r. auto.
    + apply commit_phase_Ok in E. destruct E as (-> & -> & Hq & Hall & ->).
      right. do 4 (split; [auto|]). exists S. auto.
  - apply commit_phase_Ok in E. destruct E as (-> & -> & Hq & Hall & ->).
    rewrite rl_count_purged in Hq. rewrite tours_purged in Hall.
    right. do 4 (split; [auto|]). exists (purged S key). auto.
Qed.

(** ** Reading back what was written ([TourService.get_tour]) *)

Lemma get_tour_spec tour_id S :
  Service.get_tour tour_id S =
  match Dict.get (_tours S) tour_id with
  | Some t => (Ok t, S)
  | None => (Raise (NotFoundError "tour not found"), S)
  end.
Proof.
  unfold Service.get_tour, bind, Storage.get_tour, raise, ret.
  now destruct (Dict.get (_tours S) tour_id).
Qed.

(** X2.  On a reachable store, [get_tour] of an identifier that is not stored
    fails with not-found and changes nothing; after a create call returned a
    tour, fresh or replayed, [get_tour] of its identifier returns that very
    tour; after a successful cancel, [get_tour] returns the tour with status
    cancelled. *)
Theorem get_tour_reads_back :
  forall S, reachable S ->
    (forall k, Dict.get (_tours S) k = None ->
               Service.get_tour k S = (Raise (NotFoundError "tour not found"), S))
    /\ (forall pid cid sa ea key now nl uuid t b S1,
          Service.create_tour pid cid sa ea key now nl uuid S = (Ok (t, b), S1) ->
          Service.get_tour (Tour.id t) S1 = (Ok t, S1))
    /\ (forall k clock S1,
          Service.cancel_tour k clock S = (Ok tt, S1) ->
          exists t, Service.get_tour k S1 = (Ok t, S1)
                    /\ Tour.id t = k /\ Tour.status t = CANCELLED).
Proof.
  intros S R. assert (W := reachable_wf S R). split; [|split].
  - intros k G. rewrite get_tour_spec, G. reflexivity.
  - intros pid cid sa ea key now nl uuid t b S1 E.
    rewrite get_tour_spec.
    apply create_tour_Ok in E.
    destruct E as (s & e & _ & _ & _ & [(-> & -> & r & _ & _ & G)
                                       |(-> & Ht & _ & _ & S0 & HS0 & ->)]).
    + rewrite <- (wf_tours S W _ _ G) in G. now rewrite G.
    + rewrite tours_created_store, get_set_same. reflexivity.
  - intros k clock S1. rewrite cancel_tour_spec.
    destruct (Dict.get (_tours S) k) as [t|] eqn:G; [|discriminate].
    intros [= <-]. exists (Tour.cancel t clock).
    rewrite get_tour_spec; simpl.
    rewrite id_cancel, (wf_tours S W _ _ G), get_set_same, status_cancel.
    auto.
Qed.

Lemma get_tour_reads_back_witness :
  reachable busy_store
  /\ Service.get_tour "tour_999999999999" busy_store
     = (Raise (NotFoundError "tour not found"), busy_store).
Proof.
  assert (R : reachable busy_store) by (exists busy_day; reflexivity).
  split; [exact R|].
  apply (proj1 (get_tour_reads_back busy_store R)). reflexivity.
Defined.

(** ** The rate-limit counters *)

Lemma rl_count_nonneg S c d : wf S -> 0 <= rl_count S c d.
Proof.
  intros W. unfold rl_count.
  destruct (Dict.get (_rate_limits S) (c, d)) as [x|] eqn:G; [|lia].
  apply (wf_rate_limits S W) in G. tauto.
Qed.

Lemma quota_bound_handle q S :
  wf S -> (forall c d, rl_count S c d <= 3) ->
  forall c d, rl_count (snd (handle q S)) c d <= 3.
Proof.
  intros W Hb c d.
  destruct q as [pid cid sa ea key now nl uuid| | |];
    try (rewrite rl_count_handle_other; [apply Hb | simpl; tauto]).
  rewrite snd_handle.
  destruct (create_tour_counts pid cid sa ea key now nl uuid S W)
    as [[_ E]|[[_ E]|(Hq & _ & E)]]; rewrite E.
  - apply Hb.
  - destruct (d <? date_of now); [lia | apply Hb].
  - destruct (same_key cid (date_of now) c d); [lia|].
    destruct (d <? date_of now); [lia | apply Hb].
Qed.

(** X3.  In every reachable store a rate-limit counter sits under the
    customer and the day it names, and its count is between 0 and 3: no
    sequence of requests, whatever the clock does, drives a stored count past
    the limit. *)
Theorem counters_bounded :
  forall S, reachable S ->
    (forall c d, 0 <= rl_count S c d <= 3)
    /\ (forall c d x, Dict.get (_rate_limits S) (c, d) = Some x ->
          RateLimitCounter.customer_id x = c /\ RateLimitCounter.day x = d
          /\ 0 <= RateLimitCounter.count x <= 3).
Proof.
  intros S R. assert (W := reachable_wf S R).
  assert (B : forall c d, rl_count S c d <= 3).
  { apply (reachable_invariant (fun S => forall c d, rl_count S c d <= 3));
      [| |exact R].
    - intros c d. unfold rl_count. simpl. lia.
    - intros q S0 R0 H0. apply quota_bound_handle; [now apply reachable_wf | exact H0]. }
  split.
  - intros c d. split; [now apply rl_count_nonneg | apply B].
  - intros c d x G. destruct (wf_rate_limits S W _ _ _ G) as (H1 & H2 & H3).
    specialize (B c d). unfold rl_count in B. rewrite G in B. auto.
Qed.

Lemma counters_bounded_witness :
  reachable busy_store
  /\ rl_count busy_store "C1" (date_of T0) = 3
  /\ (forall c d, 0 <= rl_count busy_store c d <= 3).
Proof.
  assert (R : reachable busy_store) by (exists busy_day; reflexivity).
  split; [exact R|]. split; [reflexivity|].
  exact (proj1 (counters_bounded busy_store R)).
Defined.

(** ** [cleanup_rate_limits] as a filter *)

Section DictFilter.
Context {K V : Type} `{KeyEq K}.
Implicit Types (d : Dict.t K V) (k : K) (v : V).

Lemma keqb_sym k k' : keqb k k' = keqb k' k.
Proof.
  destruct (keqb k k') eqn:E.
  - apply keqb_true in E. subst. symmetry. apply keqb_refl.
  - destruct (keqb k' k) eqn:E'; [|reflexivity].
    apply keqb_true in E'. subst. now rewrite keqb_refl in E.
Qed.

Lemma del_filter d k :
  Dict.del d k = filter (fun kv => negb (keqb k (fst kv))) d.
Proof.
  induction d as [|[k' v'] r IH]; simpl; [reflexivity|].
  rewrite (keqb_sym k k'). destruct (keqb k' k); simpl; now rewrite IH.
Qed.

Lemma filter_andb {A} (f g : A -> bool) (l : list A) :
  filter f (filter g l) = filter (fun x => g x && f x) l.
Proof.
  induction l as [|x r IH]; simpl; [reflexivity|].
  destruct (g x); simpl; [destruct (f x)|]; now rewrite IH.
Qed.

Lemma fold_del_filter (ks : list K) d :
  fold_left (fun d key => Dict.del d key) ks d
  = filter (fun kv => negb (existsb (fun key => keqb key (fst kv)) ks)) d.
Proof.
  revert d. induction ks as [|k ks IH]; intros d; simpl.
  - induction d as [|x r IHd]; simpl; [reflexivity | now rewrite <- IHd].
  - rewrite IH, del_filter, filter_andb. apply filter_ext.
    intros kv. now rewrite negb_orb.
Qed.

Lemma filter_all {A} (f : A -> bool) (l : list A) :
  (forall x, In x l -> f x = true) -> filter f l = l.
Proof.
  induction l as [|x r IH]; simpl; intros Hall; [reflexivity|].
  rewrite (Hall x (or_introl eq_refl)). f_equal. apply IH. auto.
Qed.
End DictFilter.

(** The counters a cleanup at [now] keeps: those of today or a later day. *)
Lemma rate_limits_cleanup now S :
  _rate_limits (cleanup now S)
  = filter (fun kv => negb (snd (fst kv) <? date_of now)) (_rate_limits S).
Proof.
  unfold cleanup, Storage.cleanup_rate_limits; simpl.
  rewrite fold_del_filter. apply filter_ext_in.
  intros [[c d] x] Hin. simpl. f_equal.
  destruct (d <? date_of now) eqn:L.
  - apply existsb_exists. exists (c, d). split; [|exact (keqb_refl (c, d))].
    apply filter_In. split; [|exact L].
    apply (in_map fst) in Hin. exact Hin.
  - destruct (existsb _ _) eqn:E; [|reflexivity].
    apply existsb_exists in E. destruct E as [k0 [Hk Hq]].
    assert (Hk0 : k0 = (c, d)) by (apply keqb_true; exact Hq). subst k0.
    apply filter_In in Hk. simpl in Hk. destruct Hk as [_ Hk]. congruence.
Qed.

Lemma cleanup_eq now S :
  cleanup now S
  = mk_storage (_tours S) (_idempotency S)
      (filter (fun kv => negb (snd (fst kv) <? date_of now)) (_rate_limits S)).
Proof.
  rewrite <- rate_limits_cleanup. reflexivity.
Qed.

Lemma cleanup_noop now S :
  (forall kv, In kv (_rate_limits S) -> date_of now <= snd (fst kv)) ->
  cleanup now S = S.
Proof.
  intros Hall. rewrite cleanup_eq, filter_all; [apply storage_eta|].
  intros kv Hin. apply negb_true_iff, Z.ltb_ge. auto.
Qed.

(** X4.  [cleanup_rate_limits] returns normally, leaves tours and idempotency
    records alone, and keeps exactly the counters of today or a later day, in
    their order; a cleanup for the same or an earlier day then changes
    nothing, and a cleanup for a later day gives what it would have given
    without the first one. *)
Theorem cleanup_rate_limits_keeps_from_today :
  forall now S,
    fst (Storage.cleanup_rate_limits now S) = Ok tt
    /\ snd (Storage.cleanup_rate_limits now S)
       = mk_storage (_tours S) (_idempotency S)
           (filter (fun kv => negb (snd (fst kv) <? date_of now))
                   (_rate_limits S))
    /\ (forall now', date_of now' <= date_of now ->
          snd (Storage.cleanup_rate_limits now'
                 (snd (Storage.cleanup_rate_limits now S)))
          = snd (Storage.cleanup_rate_limits now S))
    /\ (forall now', date_of now <= date_of now' ->
          snd (Storage.cleanup_rate_limits now'
                 (snd (Storage.cleanup_rate_limits now S)))
          = snd (Storage.cleanup_rate_limits now' S)).
Proof.
  intros now S. split; [reflexivity|].
  change (snd (Storage.cleanup_rate_limits now S)) with (cleanup now S).
  split; [apply cleanup_eq|]. split.
  - intros now' Hle.
    change (snd (Storage.cleanup_rate_limits now' (cleanup now S)))
      with (cleanup now' (cleanup now S)).
    apply cleanup_noop. intros kv Hin.
    rewrite rate_limits_cleanup in Hin. apply filter_In in Hin.
    destruct Hin as [_ Hk]. apply negb_true_iff, Z.ltb_ge in Hk. lia.
  - intros now' Hle.
    change (snd (Storage.cleanup_rate_limits now' (cleanup now S)))
      with (cleanup now' (cleanup now S)).
    change (snd (Storage.cleanup_rate_limits now' S)) with (cleanup now' S).
    rewrite !cleanup_eq. simpl. f_equal.
    rewrite filter_andb. apply filter_ext.
    intros kv. destruct (snd (fst kv) <? date_of now) eqn:L; simpl; [|reflexivity].
    apply Z.ltb_lt in L. symmetry. apply negb_false_iff, Z.ltb_lt. lia.
Qed.

(** ** Cancelling makes room *)

Lemma rate_limits_cancel_tour k clock S :
  _rate_limits (snd (Service.cancel_tour k clock S)) = _rate_limits S.
Proof.
  rewrite cancel_tour_spec. now destruct (Dict.get (_tours S) k).
Qed.

(** After the cancel of a stored tour, the tours of the store are the old
    ones with that tour cancelled. *)
Lemma values_after_cancel S k t clock t' :
  wf S -> NoDup (Dict.keys (_tours S)) ->
  Dict.get (_tours S) k = Some t ->
  In t' (Dict.values (_tours (snd (Service.cancel_tour k clock S)))) ->
  t' = Tour.cancel t clock \/ (In t' (Dict.values (_tours S)) /\ t' <> t).
Proof.
  intros W N G. rewrite cancel_tour_spec, G; simpl.
  rewrite id_cancel, (wf_tours S W _ _ G).
  intros Hin. apply In_values_get in Hin; [|now apply nodup_keys_set].
  destruct Hin as [k' Hk']. rewrite get_set in Hk'.
  destruct (keqb k k') eqn:E.
  - left. congruence.
  - right. split; [exact (get_In_values _ _ _ Hk')|].
    intros ->. apply (wf_tours S W) in Hk'. apply (wf_tours S W) in G.
    subst k'. rewrite G, keqb_refl in E. discriminate.
Qed.

(** X5.  On a reachable store, once a stored tour is cancelled, a keyless
    request of a customer with quota left for an interval that no other
    stored tour blocks is booked: the cancelled tour no longer stands in the
    way. *)
Theorem cancel_frees_the_slot :
  forall S k t clock pid cid sa ea s e now nl uuid,
    reachable S ->
    Dict.get (_tours S) k = Some t ->
    ensure_utc sa "start_at" = Ok s ->
    ensure_utc ea "end_at" = Ok e ->
    s < e ->
    (forall t', In t' (Dict.values (_tours S)) -> t' <> t -> ~ blocks pid s e t') ->
    rl_count S cid (date_of now) < 3 ->
    fst (Service.create_tour pid cid sa ea None now nl uuid
           (snd (Service.cancel_tour k clock S)))
    = Ok (Tour.mk (Service._generate_tour_id uuid) pid cid s e BOOKED now now,
          true).
Proof.
  intros S k t clock pid cid sa ea s e now nl uuid R G Es Ee Hse Hfree Hq.
  assert (W := reachable_wf S R). assert (N := reachable_nodup S R).
  rewrite (create_tour_fresh pid cid sa ea None now nl uuid s e _ Es Ee Hse eq_refl).
  simpl purged. rewrite commit_phase_spec. cbv zeta. rewrite count_today.
  unfold rl_count at 1. rewrite rate_limits_cancel_tour.
  fold (rl_count S cid (date_of now)).
  destruct (rl_count S cid (date_of now) >=? 3) eqn:Hge.
  { rewrite Z.geb_leb in Hge. apply Z.leb_le in Hge. lia. }
  destruct (ensure_no_overlap_loop_cases
              (Dict.values (_tours (snd (Service.cancel_tour k clock S))))
              pid s e) as [[_ [t' [Hin Hb]]]|[E _]].
  - exfalso.
    destruct (values_after_cancel S k t clock t' W N G Hin) as [->|[Hin' Hne]].
    + destruct Hb as (_ & Hst & _). rewrite status_cancel in Hst. discriminate.
    + exact (Hfree t' Hin' Hne Hb).
  - rewrite E. reflexivity.
Qed.

Lemma cancel_frees_the_slot_witness :
  let S := snd (run [keyed_request T0 T0 "0123456789abcdef0123456789abcdef"]
                    new_storage) in
  reachable S
  /\ fst (Service.create_tour "P1" "C2" (utc (T0 + minutes 610))
            (utc (T0 + minutes 640)) None (T0 + minutes 9) (T0 + minutes 9)
            "fedcba9876543210fedcba9876543210"
            (snd (Service.cancel_tour "tour_0123456789ab" (T0 + minutes 5) S)))
     = Ok (Tour.mk "tour_fedcba987654" "P1" "C2" (T0 + minutes 610)
                   (T0 + minutes 640) BOOKED (T0 + minutes 9) (T0 + minutes 9),
           true).
Proof.
  intros S.
  assert (R : reachable S)
    by (exists [keyed_request T0 T0 "0123456789abcdef0123456789abcdef"];
        reflexivity).
  split; [exact R|].
  apply (cancel_frees_the_slot S "tour_0123456789ab" keyed_tour (T0 + minutes 5)
           "P1" "C2" (utc (T0 + minutes 610)) (utc (T0 + minutes 640))
           (T0 + minutes 610) (T0 + minutes 640) (T0 + minutes 9)
           (T0 + minutes 9) "fedcba9876543210fedcba9876543210" R).
  - reflexivity.
  - reflexivity.
  - reflexivity.
  - reflexivity.
  - intros t' Hin Hne. vm_compute in Hin. destruct Hin as [<-|[]].
    now elim Hne.
  - vm_compute. reflexivity.
Defined.

(** ** A failed create, tried again *)

Lemma purged_idem S key : purged (purged S key) key = purged S key.
Proof.
  destruct key as [[|c0 k]|]; try reflexivity.
  unfold purged; simpl. f_equal.
  apply del_absent. apply get_del_same.
Qed.

Lemma purged_prepared now c S key :
  purged (prepared now c S) key = prepared now c (purged S key).
Proof.
  destruct key as [[|c0 k]|]; try reflexivity.
  unfold purged, prepared, ensure_counter, cleanup, Storage.cleanup_rate_limits;
    simpl.
  now destruct (Dict.get _ _).
Qed.

Lemma live_record_after_purge S key nl : live_record (purged S key) key nl = None.
Proof.
  destruct key as [[|c0 k]|]; try reflexivity.
  unfold live_record, purged; simpl. now rewrite get_del_same.
Qed.

Lemma prepared_idem now c S : prepared now c (prepared now c S) = prepared now c S.
Proof.
  assert (Hc : cleanup now (prepared now c S) = prepared now c S).
  { apply cleanup_noop. intros kv Hin.
    unfold prepared, ensure_counter in Hin.
    assert (Hk : forall kv0, In kv0 (_rate_limits (cleanup now S)) ->
                             date_of now <= snd (fst kv0)).
    { intros kv0 H0. rewrite rate_limits_cleanup in H0.
      apply filter_In in H0. destruct H0 as [_ H0].
      apply negb_true_iff, Z.ltb_ge in H0. exact H0. }
    destruct (Dict.get (_rate_limits (cleanup now S)) (c, date_of now)) eqn:G.
    - auto.
    - simpl in Hin. apply In_set in Hin. destruct Hin as [->|Hin]; [|auto].
      simpl. lia. }
  unfold prepared at 1. rewrite Hc.
  unfold ensure_counter at 1.
  destruct (Dict.get (_rate_limits (prepared now c S)) (c, date_of now)) eqn:G;
    [reflexivity|].
  exfalso. revert G. unfold prepared, ensure_counter.
  destruct (Dict.get (_rate_limits (cleanup now S)) (c, date_of now)) eqn:G0.
  - congruence.
  - simpl. now rewrite get_set_same.
Qed.

(** The commit stage that failed with one of the service's errors fails the
    same way on the store it left, and leaves it as it is. *)
Lemma commit_phase_retry pid cid s e key fp now uuid uuid' S err S1 :
  commit_phase pid cid s e key fp now uuid S = (Raise err, S1) ->
  err <> OverflowError ->
  S1 = prepared now cid S
  /\ commit_phase pid cid s e key fp now uuid' S1 = (Raise err, S1).
Proof.
  intros E Hne.
  apply commit_phase_Raise in E.
  destruct E as [(-> & Hq & ->)|[(-> & Hq & Hex & ->)|(-> & _)]];
    [| |congruence]; (split; [reflexivity|]);
    rewrite commit_phase_spec; cbv zeta;
    rewrite count_today, prepared_idem, rl_count_prepared, Z.ltb_irrefl.
  - destruct (rl_count S cid (date_of now) >=? 3) eqn:Hge; [reflexivity|].
    rewrite Z.geb_leb in Hge. apply Z.leb_gt in Hge. lia.
  - destruct (rl_count S cid (date_of now) >=? 3) eqn:Hge.
    { rewrite Z.geb_leb in Hge. apply Z.leb_le in Hge. lia. }
    rewrite tours_prepared.
    destruct (ensure_no_overlap_loop_cases (Dict.values (_tours S)) pid s e)
      as [[E _]|[_ Hall]].
    + now rewrite E.
    + destruct Hex as [t [Hin Hb]]. elim (Hall t Hin Hb).
Qed.

(** X6.  A create call that failed with one of the service's errors, made
    again with the same arguments and clock readings on the store it left,
    fails with the same error and changes nothing more: the housekeeping a
    failing create does is done once. *)
Theorem failed_create_retry :
  forall S pid cid sa ea key now nl uuid err S1,
    Service.create_tour pid cid sa ea key now nl uuid S = (Raise err, S1) ->
    err <> OverflowError ->
    forall uuid',
      Service.create_tour pid cid sa ea key now nl uuid' S1 = (Raise err, S1).
Proof.
  intros S pid cid sa ea key now nl uuid err S1 E Hne uuid'.
  rewrite create_tour_spec in E. rewrite create_tour_spec.
  destruct (ensure_utc sa "start_at") as [s|err0]; [|congruence].
  destruct (ensure_utc ea "end_at") as [e|err0]; [|congruence].
  destruct (s >=? e); [congruence|].
  cbv zeta in E |- *.
  destruct (live_record S key nl) as [r|] eqn:L.
  - destruct (negb (IdempotencyRecord.fingerprint r
                    =? Service._fingerprint pid cid s e)%string) eqn:F.
    + injection E as <- <-. now rewrite L, F.
    + destruct (Dict.get (_tours S) (IdempotencyRecord.tour_id r)) eqn:G;
        [discriminate|].
      destruct (commit_phase_retry _ _ _ _ _ _ _ _ uuid' _ _ _ E Hne) as [-> E'].
      rewrite (live_record_ext _ S key nl (idempotency_prepared now cid S)), L, F.
      rewrite tours_prepared, G. exact E'.
  - destruct (commit_phase_retry _ _ _ _ _ _ _ _ uuid' _ _ _ E Hne) as [-> E'].
    rewrite (live_record_ext _ (purged S key) key nl
               (idempotency_prepared now cid (purged S key))).
    rewrite live_record_after_purge.
    rewrite purged_prepared, purged_idem. exact E'.
Qed.

Lemma failed_create_retry_witness :
  Service.create_tour "P1" "C3" (utc (T0 + minutes 610)) (utc (T0 + minutes 640))
    None T0 T0 "60000000000000000000000000000000"
    (snd (handle blocked_request busy_store))
  = (Raise (ConflictError "overlapping tour for property"),
     snd (handle blocked_request busy_store)).
Proof.
  apply (failed_create_retry busy_store "P1" "C3" (utc (T0 + minutes 610))
           (utc (T0 + minutes 640)) None T0 T0
           "50000000000000000000000000000000"
           (ConflictError "overlapping tour for property")
           (snd (handle blocked_request busy_store))).
  - vm_compute. reflexivity.
  - discriminate.
Defined.

(** ** Validation comes first *)

(** X7.  Whatever the store holds and whatever key is sent, a create call
    with a naive [start_at] fails with a bad request naming [start_at]; with
    an aware [start_at] and a naive [end_at], with one naming [end_at]; and
    with an end that is not after the start (an empty interval included),
    with the bad request [end_at must be after start_at].  None of them
    touches the store. *)
Theorem create_tour_validates_first :
  forall S pid cid sa ea key now nl uuid,
    (tzinfo sa = None ->
     Service.create_tour pid cid sa ea key now nl uuid S
     = (Raise (BadRequestError "timestamp must be timezone-aware"
                               (Some "start_at")), S))
    /\ (forall s, ensure_utc sa "start_at" = Ok s -> tzinfo ea = None ->
          Service.create_tour pid cid sa ea key now nl uuid S
          = (Raise (BadRequestError "timestamp must be timezone-aware"
                                    (Some "end_at")), S))
    /\ (forall s e, ensure_utc sa "start_at" = Ok s ->
          ensure_utc ea "end_at" = Ok e -> e <= s ->
          Service.create_tour pid cid sa ea key now nl uuid S
          = (Raise (BadRequestError "end_at must be after start_at"
                                    (Some "end_at")), S)).
Proof.
  intros S pid cid sa ea key now nl uuid. rewrite create_tour_spec.
  split; [|split].
  - intros Hz. unfold ensure_utc at 1. now rewrite Hz.
  - intros s Es Hz. rewrite Es. unfold ensure_utc at 1. now rewrite Hz.
  - intros s e Es Ee Hle. rewrite Es, Ee.
    destruct (s >=? e) eqn:Hge; [reflexivity|].
    rewrite Z.geb_leb in Hge. apply Z.leb_gt in Hge. lia.
Qed.

(** ** Listings: ties, pages *)

Lemma list_tours_slice pid df reverse page size S :
  (forall d, df = Some d -> before_last_day d) ->
  Service.list_tours pid df (sort_text reverse) page size S
  = (Ok (slice (listing pid df reverse S) ((page - 1) * size)
               ((page - 1) * size + size),
         Z.of_nat (List.length (listing pid df reverse S))), S).
Proof.
  intros Hd. rewrite list_tours_spec, (filter_tours_keeps _ pid df Hd).
  unfold sort_text, listing.
  destruct reverse; cbn [negb String.eqb Ascii.eqb Bool.eqb]; reflexivity.
Qed.

Section Stability.
Context {A : Type} (key : A -> Z) (reverse : bool) (k : Z).

Lemma insert_by_filter_key x l :
  filter (fun y => key y =? k) (insert_by (key_le key reverse) x l)
  = filter (fun y => key y =? k) (x :: l).
Proof.
  induction l as [|y r IH]; [reflexivity|].
  cbn [insert_by].
  destruct (key_le key reverse x y) eqn:E; [reflexivity|].
  cbn [filter] in IH |- *. rewrite IH.
  destruct (key x =? k) eqn:Ex; [|reflexivity].
  destruct (key y =? k) eqn:Ey; [|reflexivity].
  exfalso. apply Z.eqb_eq in Ex, Ey.
  unfold key_le in E. destruct reverse; apply Z.leb_gt in E; lia.
Qed.

Lemma list_sort_stable l :
  filter (fun y => key y =? k) (list_sort key reverse l)
  = filter (fun y => key y =? k) l.
Proof.
  induction l as [|x r IH]; [reflexivity|].
  change (list_sort key reverse (x :: r))
    with (insert_by (key_le key reverse) x (list_sort key reverse r)).
  rewrite insert_by_filter_key. cbn [filter]. now rewrite IH.
Qed.
End Stability.

Lemma slice_whole {A} (l : list A) (size : Z) :
  Z.of_nat (List.length l) <= size -> slice l 0 size = l.
Proof.
  intros Hle. unfold slice, clamp_index.
  assert (H0 : 0 <= Z.of_nat (List.length l)) by lia.
  destruct (0 <? 0) eqn:E0; [discriminate|].
  destruct (size <? 0) eqn:E1; [apply Z.ltb_lt in E1; lia|].
  rewrite (Z.min_l 0), (Z.min_r size) by lia. simpl skipn.
  rewrite Z.sub_0_r, Nat2Z.id. apply firstn_all.
Qed.

(** X8.  A listing that fits on its first page gives the tours of equal
    [start_at] in the order the store holds them, which is the order of their
    creation, in ascending and in descending sort alike: the sort is stable
    and [reverse] does not turn ties around. *)
Theorem list_tours_keeps_ties_in_order :
  forall S pid df reverse size items total,
    (forall d, df = Some d -> before_last_day d) ->
    fst (Service.list_tours pid df (sort_text reverse) 1 size S)
    = Ok (items, total) ->
    total <= size ->
    forall k,
      filter (fun t => Tour.start_at t =? k) items
      = filter (fun t => Tour.start_at t =? k)
               (filter (keeps pid df) (Dict.values (_tours S))).
Proof.
  intros S pid df reverse size items total Hd E Hle k.
  rewrite (list_tours_slice pid df reverse 1 size S Hd) in E.
  cbn [fst] in E. injection E as <- <-.
  replace ((1 - 1) * size + size) with size by lia.
  change ((1 - 1) * size) with 0.
  rewrite slice_whole by exact Hle.
  apply list_sort_stable.
Qed.

Lemma list_tours_keeps_ties_in_order_witness :
  map Tour.id (page_items None None "-start_at" 1 20 busy_store)
  = ["tour_100000000000"; "tour_200000000000"; "tour_300000000000";
     "tour_400000000000"]
  /\ filter (fun t => Tour.start_at t =? T0 + minutes 600)
            (page_items None None "-start_at" 1 20 busy_store)
     = filter (fun t => Tour.start_at t =? T0 + minutes 600)
              (filter (keeps None None) (Dict.values (_tours busy_store))).
Proof.
  split; [vm_compute; reflexivity|].
  apply (list_tours_keeps_ties_in_order busy_store None None true 20
           (page_items None None "-start_at" 1 20 busy_store) 4).
  - intros d [=].
  - vm_compute. reflexivity.
  - lia.
Defined.

Lemma firstn_skipn_add {A} (a b : nat) (l : list A) :
  firstn a l ++ firstn b (skipn a l) = firstn (a + b) l.
Proof.
  revert l. induction a as [|a IH]; intros l; [reflexivity|].
  destruct l as [|x r]; simpl.
  - now destruct b.
  - now rewrite IH.
Qed.

Lemma page_items_page pid df reverse page size S :
  (forall d, df = Some d -> before_last_day d) ->
  1 <= page -> 1 <= size ->
  page_items pid df (sort_text reverse) page size S
  = firstn (Z.to_nat size)
           (skipn (Z.to_nat ((page - 1) * size)) (listing pid df reverse S)).
Proof.
  intros Hd Hp Hs. unfold page_items.
  rewrite (list_tours_slice pid df reverse page size S Hd). cbn [fst].
  now apply slice_page.
Qed.

(** X9.  For a page size of at least 1, the pages 1, 2, ..., n of a listing,
    put one after the other, are the first [n * page_size] tours of the
    sorted listing: no tour is skipped and none comes twice, and enough pages
    give the whole listing.  A page holds at most [page_size] tours, a page
    past the end is empty, and so is page 0. *)
Theorem pages_partition_the_listing :
  forall S pid df reverse size,
    1 <= size ->
    (forall d, df = Some d -> before_last_day d) ->
    (forall n,
        flat_map (fun p => page_items pid df (sort_text reverse) (Z.of_nat p)
                                      size S) (seq 1 n)
        = firstn (n * Z.to_nat size) (listing pid df reverse S))
    /\ (forall n,
          (List.length (listing pid df reverse S) <= n * Z.to_nat size)%nat ->
          flat_map (fun p => page_items pid df (sort_text reverse) (Z.of_nat p)
                                        size S) (seq 1 n)
          = listing pid df reverse S)
    /\ (forall page, 1 <= page ->
          Z.of_nat (List.length (page_items pid df (sort_text reverse) page
                                            size S)) <= size
          /\ (Z.of_nat (List.length (listing pid df reverse S))
              <= (page - 1) * size ->
              page_items pid df (sort_text reverse) page size S = []))
    /\ page_items pid df (sort_text reverse) 0 size S = [].
Proof.
  intros S pid df reverse size Hs Hd.
  assert (Hcat : forall n,
             flat_map (fun p => page_items pid df (sort_text reverse)
                                           (Z.of_nat p) size S) (seq 1 n)
             = firstn (n * Z.to_nat size) (listing pid df reverse S)).
  { induction n as [|n IH]; [reflexivity|].
    rewrite seq_S, flat_map_app, IH. cbn [flat_map]. rewrite app_nil_r.
    rewrite (page_items_page pid df reverse _ size S Hd) by lia.
    replace (Z.to_nat ((Z.of_nat (1 + n) - 1) * size))
      with (n * Z.to_nat size)%nat by nia.
    rewrite firstn_skipn_add. f_equal. lia. }
  split; [exact Hcat|]. split; [|split].
  - intros n Hn. rewrite Hcat. now apply firstn_all2.
  - intros page Hp.
    rewrite (page_items_page pid df reverse page size S Hd Hp Hs). split.
    + rewrite length_firstn. lia.
    + intros Hend. rewrite skipn_all_Z by lia. now destruct (Z.to_nat size).
  - unfold page_items.
    rewrite (list_tours_slice pid df reverse 0 size S Hd). cbn [fst].
    unfold slice, clamp_index.
    destruct ((0 - 1) * size <? 0) eqn:E1; [|apply Z.ltb_ge in E1; lia].
    replace ((0 - 1) * size + size) with 0 by lia.
    cbn [Z.ltb Z.compare]. rewrite Z.min_l by lia.
    replace (Z.to_nat (0 - _)) with 0%nat by lia. reflexivity.
Qed.

Lemma pages_partition_the_listing_witness :
  map Tour.id (flat_map (fun p => page_items None None "start_at" (Z.of_nat p)
                                             3 busy_store) (seq 1 2))
  = map Tour.id (listing None None false busy_store).
Proof.
  apply (f_equal (map Tour.id)).
  apply (proj1 (proj2 (pages_partition_the_listing busy_store None None false 3
                         ltac:(lia) ltac:(intros d [=]))) 2%nat).
  vm_compute. lia.
Defined.

(** ** The replies of the endpoints *)



Lemma matches_filters_Raise t pid df err :
  Service._matches_filters t pid df = Raise err -> err = OverflowError.
Proof.
  unfold Service._matches_filters.
  destruct (match pid with
            | Some (String _ _ as p) => negb (Tour.property_id t =? p)%string
            | _ => false
            end); [discriminate|].
  destruct df as [d|]; [|discriminate].
  destruct (timedelta_add (combine_min d) (timedelta_days 1)) as [x|e] eqn:E.
  - now destruct (negb _).
  - intros [= <-]. now apply timedelta_add_Raise in E.
Qed.

Lemma filter_tours_Raise tours pid df err :
  Service.filter_tours tours pid df = Raise err -> err = OverflowError.
Proof.
  induction tours as [|t r IH]; simpl; [discriminate|].
  destruct (Service._matches_filters t pid df) as [keep|e] eqn:E.
  - destruct (Service.filter_tours r pid df); [discriminate | exact IH].
  - intros [= <-]. now apply matches_filters_Raise in E.
Qed.

(** The comprehension keeps tours of the list, in their order. *)
Lemma filter_tours_Ok tours pid df kept :
  Service.filter_tours tours pid df = Ok kept ->
  (forall t, In t kept -> In t tours)
  /\ (List.length kept <= List.length tours)%nat.
Proof.
  revert kept. induction tours as [|t r IH]; simpl; intros kept.
  - intros [= <-]. split; [auto | simpl; lia].
  - destruct (Service._matches_filters t pid df) as [keep|e]; [|discriminate].
    destruct (Service.filter_tours r pid df) as [kept0|e]; [|discriminate].
    intros [= <-]. destruct (IH kept0 eq_refl) as [Hin Hlen].
    destruct keep; simpl; split; try lia; intros t0 H0; intuition.
Qed.


Lemma In_firstn {A} (x : A) n l : In x (firstn n l) -> In x l.
Proof.
  intros H. rewrite <- (firstn_skipn n l). apply in_or_app. now left.
Qed.

Lemma In_skipn {A} (x : A) n l : In x (skipn n l) -> In x l.
Proof.
  intros H. rewrite <- (firstn_skipn n l). apply in_or_app. now right.
Qed.

(** X12.  A 200 reply of [GET /v1/tours] to a query within the bounds of
    its fields leaves the store as it is, repeats the page and page size
    asked for, and carries at most [page_size], hence at most 100, items;
    every item is the rendering of a stored tour, and [total] lies between
    the number of items and the number of stored tours. *)
Theorem list_endpoint_page_bound :
  forall S q body S',
    TourListQuery.valid q = true ->
    Endpoint.list_tours q S = (Response 200 (ListContent body), S') ->
    S' = S
    /\ ToursListResponse.page body = TourListQuery.page q
    /\ ToursListResponse.page_size body = TourListQuery.page_size q
    /\ Z.of_nat (List.length (ToursListResponse.items body))
       <= TourListQuery.page_size q <= 100
    /\ Z.of_nat (List.length (ToursListResponse.items body))
       <= ToursListResponse.total body
       <= Z.of_nat (List.length (Dict.values (_tours S)))
    /\ (forall r, In r (ToursListResponse.items body) ->
          exists t, In t (Dict.values (_tours S))
                    /\ r = TourResponse.from_domain t).
Proof.
  intros S [pid df page size sort] body S'. unfold TourListQuery.valid.
  cbn [TourListQuery.page TourListQuery.page_size].
  rewrite !andb_true_iff, !Z.leb_le. intros [[Hp Hs] Hs100].
  unfold Endpoint.list_tours.
  cbn [TourListQuery.property_id TourListQuery.date TourListQuery.sort
       TourListQuery.page TourListQuery.page_size].
  rewrite list_tours_spec.
  destruct (Service.filter_tours (Dict.values (_tours S)) pid df)
    as [kept|err] eqn:F.
  2:{ cbn [respond]. destruct (as_app_error err) as [exc|] eqn:Ea;
        [|discriminate].
      apply filter_tours_Raise in F. subst err. discriminate Ea. }
  destruct (match sort with
            | String "-" rest => (true, rest)
            | _ => (false, sort)
            end) as [reverse sf].
  destruct (negb (sf =? "start_at")%string); [discriminate|].
  cbv zeta. cbn [respond]. rewrite slice_page by assumption.
  intros [= <- <-]. cbn [ToursListResponse.page ToursListResponse.page_size
                          ToursListResponse.items ToursListResponse.total].
  destruct (filter_tours_Ok _ _ _ _ F) as [Hin Hlen].
  assert (Hperm := list_sort_perm Tour.start_at reverse kept).
  assert (Hl := Permutation_length Hperm).
  do 3 (split; [reflexivity|]).
  rewrite length_map, length_firstn, length_skipn.
  split; [lia|]. split; [lia|].
  intros r Hr. apply in_map_iff in Hr. destruct Hr as [t [<- Ht]].
  exists t. split; [|reflexivity].
  apply Hin. apply (Permutation_in _ Hperm).
  apply In_firstn in Ht. now apply In_skipn in Ht.
Qed.

Lemma list_endpoint_page_bound_witness :
  exists body,
    Endpoint.list_tours (TourListQuery.mk (Some "P1") None 1 20 "start_at")
                        busy_store
    = (Response 200 (ListContent body), busy_store)
    /\ Z.of_nat (List.length (ToursListResponse.items body)) <= 20 <= 100
    /\ ToursListResponse.total body = 1.
Proof.
  eexists. split; [vm_compute; reflexivity|].
  split; [|reflexivity].
  apply (list_endpoint_page_bound busy_store
           (TourListQuery.mk (Some "P1") None 1 20 "start_at") _ busy_store).
  - reflexivity.
  - vm_compute. reflexivity.
Defined.

Lemma post_created pid cid sa ea key now nl uuid S body S1 :
  Endpoint.create_tour (TourCreateRequest.mk pid cid sa ea) key now nl uuid S
  = (Response 201 body, S1) ->
  exists t,
    Service.create_tour pid cid sa ea key now nl uuid S = (Ok (t, true), S1)
    /\ body = TourContent (TourResponse.from_domain t).
Proof.
  unfold Endpoint.create_tour.
  cbn [TourCreateRequest.property_id TourCreateRequest.customer_id
       TourCreateRequest.start_at TourCreateRequest.end_at].
  destruct (Service.create_tour pid cid sa ea key now nl uuid S)
    as [[[t b]|err] S0]; cbn [respond].
  - destruct b; cbn [negb]; [|discriminate].
    intros [= <- <-]. exists t. auto.
  - destruct err; cbn; discriminate.
Qed.

(** X13.  When [POST /v1/tours] with an idempotency key answered 201, the
    same request with the same key, looked up less than 24 hours after the
    first call's clock reading, answers 200 with the very same body and
    leaves the store as it is, whatever identifier it would have minted. *)
Theorem post_twice_same_body :
  forall S payload c0 k now nl uuid body S1 now' nl' uuid',
    Endpoint.create_tour payload (Some (String c0 k)) now nl uuid S
    = (Response 201 body, S1) ->
    nl' < now + timedelta_hours 24 ->
    Endpoint.create_tour payload (Some (String c0 k)) now' nl' uuid' S1
    = (Response 200 body, S1).
Proof.
  intros S [pid cid sa ea] c0 k now nl uuid body S1 now' nl' uuid' E Hlt.
  apply post_created in E. destruct E as [t [E ->]].
  unfold Endpoint.create_tour.
  cbn [TourCreateRequest.property_id TourCreateRequest.customer_id
       TourCreateRequest.start_at TourCreateRequest.end_at].
  rewrite (replay_once pid cid sa ea c0 k now nl uuid S t S1 now' nl' uuid' E Hlt).
  reflexivity.
Qed.

Lemma post_twice_same_body_witness :
  let payload := TourCreateRequest.mk "P1" "C1" (utc (T0 + minutes 600))
                                      (utc (T0 + minutes 630)) in
  let S1 := snd (Endpoint.create_tour payload (Some "K") T0 T0
                   "0123456789abcdef0123456789abcdef" new_storage) in
  Endpoint.create_tour payload (Some "K") (T0 + minutes 3) (T0 + minutes 3)
                       "fedcba9876543210fedcba9876543210" S1
  = (Response 200 (TourContent (TourResponse.from_domain keyed_tour)), S1).
Proof.
  intros payload S1.
  apply (post_twice_same_body new_storage payload "K"%char EmptyString T0 T0
           "0123456789abcdef0123456789abcdef" _ S1).
  - vm_compute. reflexivity.
  - vm_compute. reflexivity.
Defined.



(** ** Instants, not notations *)

Lemma same_instant_ensure_utc a b field :
  same_instant a b -> ensure_utc b field = ensure_utc a field.
Proof.
  unfold same_instant, ensure_utc.
  destruct (tzinfo a) as [oa|]; [|intros []].
  destruct (tzinfo b) as [ob|]; [|intros []].
  now intros ->.
Qed.

(** X15.  [create_tour] reads its two datetimes only through the UTC
    instants they denote: with a start and an end written at other offsets
    for the same instants, the call returns the same outcome and leaves the
    same store.  So a retry under the same key that writes the times in
    another zone is a replay of the first call. *)
Theorem same_instants_same_request :
  forall S pid cid sa ea sa' ea' key now nl uuid,
    same_instant sa sa' -> same_instant ea ea' ->
    Service.create_tour pid cid sa' ea' key now nl uuid S
    = Service.create_tour pid cid sa ea key now nl uuid S
    /\ (forall c0 k t S1 now' nl' uuid',
          key = Some (String c0 k) ->
          Service.create_tour pid cid sa ea key now nl uuid S
          = (Ok (t, true), S1) ->
          nl' < now + timedelta_hours 24 ->
          Service.create_tour pid cid sa' ea' key now' nl' uuid' S1
          = (Ok (t, false), S1)).
Proof.
  intros S pid cid sa ea sa' ea' key now nl uuid Hs He.
  assert (Heq : forall now0 nl0 uuid0 S0,
             Service.create_tour pid cid sa' ea' key now0 nl0 uuid0 S0
             = Service.create_tour pid cid sa ea key now0 nl0 uuid0 S0).
  { intros. rewrite !create_tour_spec.
    now rewrite (same_instant_ensure_utc sa sa' _ Hs),
      (same_instant_ensure_utc ea ea' _ He). }
  split; [apply Heq|].
  intros c0 k t S1 now' nl' uuid' -> E Hlt. rewrite Heq.
  exact (replay_once pid cid sa ea c0 k now nl uuid S t S1 now' nl' uuid' E Hlt).
Qed.

Lemma same_instants_same_request_witness :
  let sa := utc (T0 + minutes 600) in
  let ea := utc (T0 + minutes 630) in
  let sa' := mk_datetime (T0 + minutes 720) (Some (minutes 120)) in
  let ea' := mk_datetime (T0 + minutes 570) (Some (minutes (-60))) in
  (same_instant sa sa' /\ same_instant ea ea')
  /\ Service.create_tour "P1" "C1" sa' ea' (Some "K") T0 T0
       "0123456789abcdef0123456789abcdef" new_storage
     = Service.create_tour "P1" "C1" sa ea (Some "K") T0 T0
         "0123456789abcdef0123456789abcdef" new_storage.
Proof.
  intros sa ea sa' ea'.
  assert (Hs : same_instant sa sa') by reflexivity.
  assert (He : same_instant ea ea') by reflexivity.
  split; [split; assumption|].
  exact (proj1 (same_instants_same_request new_storage "P1" "C1" sa ea sa' ea'
                  (Some "K") T0 T0 "0123456789abcdef0123456789abcdef" Hs He)).
Defined.

(** ** The order of the stored tours *)

Lemma keys_handle q S :
  wf S ->
  Dict.keys (_tours (snd (handle q S))) = Dict.keys (_tours S)
  \/ exists pid cid sa ea key now nl uuid,
       q = Create pid cid sa ea key now nl uuid
       /\ Dict.get (_tours S) (Service._generate_tour_id uuid) = None
       /\ Dict.keys (_tours (snd (handle q S)))
          = Dict.keys (_tours S) ++ [Service._generate_tour_id uuid].
Proof.
  intros W. rewrite snd_handle.
  destruct q as [pid cid sa ea key now nl uuid| | |tid clock]; auto.
  - destruct (create_tour_tours pid cid sa ea key now nl uuid S) as [E|[s [e E]]];
      rewrite E; [now left|].
    rewrite keys_set.
    destruct (Dict.get (_tours S) (Service._generate_tour_id uuid)) eqn:G;
      [now left|].
    right. exists pid, cid, sa, ea, key, now, nl, uuid. auto.
  - left. rewrite cancel_tour_spec.
    destruct (Dict.get (_tours S) tid) as [t|] eqn:G; [|reflexivity].
    simpl. rewrite keys_set, id_cancel, (wf_tours S W _ _ G), G. reflexivity.
Qed.

Lemma keys_run qs : forall S,
  reachable S ->
  exists more,
    Dict.keys (_tours (snd (run qs S))) = Dict.keys (_tours S) ++ more.
Proof.
  induction qs as [|q qs IH]; intros S R.
  - exists []. simpl. now rewrite app_nil_r.
  - rewrite snd_run_cons.
    destruct (IH _ (reachable_handle q S R)) as [more E]. rewrite E.
    destruct (keys_handle q S (reachable_wf S R))
      as [->|(pid & cid & sa & ea & key & now & nl & uuid & _ & _ & ->)].
    + now exists more.
    + rewrite <- app_assoc. now eexists.
Qed.

(** X16.  On a reachable store no request removes or moves a stored tour:
    a request leaves the sequence of stored ids as it is, or, when it is a
    create that mints an id not in use, adds that id at the end; so after
    any further requests the old sequence is still the beginning of the new
    one.  The store lists its tours in that sequence, each under its own
    id. *)
Theorem tour_ids_only_append :
  forall S, reachable S ->
    (forall q,
        Dict.keys (_tours (snd (handle q S))) = Dict.keys (_tours S)
        \/ exists pid cid sa ea key now nl uuid,
             q = Create pid cid sa ea key now nl uuid
             /\ Dict.get (_tours S) (Service._generate_tour_id uuid) = None
             /\ Dict.keys (_tours (snd (handle q S)))
                = Dict.keys (_tours S) ++ [Service._generate_tour_id uuid])
    /\ (forall qs, exists more,
           Dict.keys (_tours (snd (run qs S))) = Dict.keys (_tours S) ++ more)
    /\ (fst (Storage.list_tours S) = Ok (Dict.values (_tours S))
        /\ map Tour.id (Dict.values (_tours S)) = Dict.keys (_tours S)).
Proof.
  intros S R. assert (W := reachable_wf S R). split; [|split; [|split]].
  - intros q. now apply keys_handle.
  - intros qs. now apply keys_run.
  - reflexivity.
  - assert (N := reachable_nodup S R).
    unfold Dict.values, Dict.keys. rewrite map_map.
    apply map_ext_in. intros [k t] Hin. simpl.
    apply (wf_tours S W). now apply In_get.
Qed.

Lemma tour_ids_only_append_witness :
  reachable busy_store
  /\ (exists more,
         Dict.keys (_tours (snd (run [blocked_request] busy_store)))
         = Dict.keys (_tours busy_store) ++ more)
  /\ map Tour.id (Dict.values (_tours busy_store))
     = ["tour_100000000000"; "tour_200000000000"; "tour_300000000000";
        "tour_400000000000"].
Proof.
  assert (R : reachable busy_store) by (exists busy_day; reflexivity).
  split; [exact R|]. split.
  - exact (proj1 (proj2 (tour_ids_only_append busy_store R)) [blocked_request]).
  - reflexivity.
Defined.

(** ** What a replay answers with *)

Lemma idempotency_created_store_sub key fp now t c S k r :
  Dict.get (_idempotency (created_store key fp now t c S)) k = Some r ->
  Dict.get (_idempotency S) k = Some r
  \/ r = IdempotencyRecord.mk k (Tour.id t) fp now (now + timedelta_hours 24).
Proof.
  destruct key as [[|c0 k0]|].
  - unfold created_store, committed; simpl. rewrite idempotency_prepared. auto.
  - rewrite idempotency_created_store, get_set.
    destruct (keqb (String c0 k0) k) eqn:E; [|auto].
    apply keqb_true in E. subst k. intros [= <-]. auto.
  - unfold created_store, committed; simpl. rewrite idempotency_prepared. auto.
Qed.

(** What a create call does to the tours and the idempotency records: no
    record changes and none is added, except the record of the tour the call
    stores. *)
Lemma create_tour_effect pid cid sa ea key now nl uuid S :
  (_tours (snd (Service.create_tour pid cid sa ea key now nl uuid S)) = _tours S
   /\ forall k r,
        Dict.get (_idempotency
                    (snd (Service.create_tour pid cid sa ea key now nl uuid S)))
                 k = Some r ->
        Dict.get (_idempotency S) k = Some r)
  \/ exists s e,
       _tours (snd (Service.create_tour pid cid sa ea key now nl uuid S))
       = Dict.set (_tours S) (Service._generate_tour_id uuid)
                  (Tour.mk (Service._generate_tour_id uuid) pid cid s e
                           BOOKED now now)
       /\ forall k r,
            Dict.get (_idempotency
                        (snd (Service.create_tour pid cid sa ea key now nl
                                                  uuid S)))
                     k = Some r ->
            Dict.get (_idempotency S) k = Some r
            \/ r = IdempotencyRecord.mk k (Service._generate_tour_id uuid)
                     (Service._fingerprint pid cid s e) now
                     (now + timedelta_hours 24).
Proof.
  assert (Hsub : forall S0,
             S0 = S \/ (S0 = purged S key /\ live_record S key nl = None) ->
             _tours S0 = _tours S
             /\ forall k r, Dict.get (_idempotency S0) k = Some r ->
                            Dict.get (_idempotency S) k = Some r).
  { intros S0 [->|[-> _]]; [auto|].
    split; [apply tours_purged | apply idempotency_purged_sub]. }
  destruct (Service.create_tour pid cid sa ea key now nl uuid S)
    as [[[t b]|err] S1] eqn:E; cbn [snd].
  - apply create_tour_Ok in E.
    destruct E as (s & e & _ & _ & _ & [(_ & -> & _)
                                       |(_ & -> & _ & _ & S0 & HS0 & ->)]);
      [now left|].
    destruct (Hsub S0 HS0) as [Ht Hi].
    right. exists s, e. rewrite tours_created_store, Ht. split; [reflexivity|].
    intros k r G. apply idempotency_created_store_sub in G.
    destruct G as [G|G]; auto.
  - apply create_tour_Raise in E.
    destruct E as [[-> _]|(s & e & S0 & HS0 & E)]; [now left|].
    destruct (Hsub S0 HS0) as [Ht Hi].
    apply commit_phase_Raise in E.
    destruct E as [(_ & _ & ->)|[(_ & _ & _ & ->)|(_ & _ & _ & ->)]].
    + left. rewrite tours_prepared, idempotency_prepared. auto.
    + left. rewrite tours_prepared, idempotency_prepared. auto.
    + right. exists s, e. unfold committed; simpl.
      rewrite tours_prepared, idempotency_prepared, Ht. auto.
Qed.

Lemma records_match_handle q S :
  wf S -> fresh_id q S -> records_match S -> records_match (snd (handle q S)).
Proof.
  intros W Hf Hm. rewrite snd_handle.
  destruct q as [pid cid sa ea key now nl uuid| | |tid clock]; try exact Hm.
  - simpl in Hf.
    destruct (create_tour_effect pid cid sa ea key now nl uuid S)
      as [[Ht Hi]|(s & e & Ht & Hi)]; intros k r G; rewrite Ht.
    + apply Hm with k. now apply Hi.
    + destruct (Hi k r G) as [G0| ->].
      * destruct (Hm k r G0) as (t0 & Gt & Hfp). exists t0. split; [|exact Hfp].
        rewrite get_set_other; [exact Gt|]. intros Heq.
        rewrite <- Heq in Gt. congruence.
      * eexists. cbn [IdempotencyRecord.tour_id IdempotencyRecord.fingerprint].
        rewrite get_set_same. split; reflexivity.
  - rewrite cancel_tour_spec.
    destruct (Dict.get (_tours S) tid) as [t|] eqn:G; [|exact Hm].
    intros k r Gr. cbn [snd _tours _idempotency] in *.
    destruct (Hm k r Gr) as (t0 & Gt & Hfp).
    rewrite id_cancel, (wf_tours S W _ _ G), get_set.
    destruct (keqb tid (IdempotencyRecord.tour_id r)) eqn:E.
    + apply keqb_true in E. rewrite <- E in Gt.
      assert (t0 = t) by congruence. subst t0.
      exists (Tour.cancel t clock). split; [reflexivity|].
      destruct (cancel_fields t clock) as (-> & -> & -> & -> & _). exact Hfp.
    + exists t0. auto.
Qed.

Lemma records_match_run qs : forall S,
  wf S -> fresh_ids qs S -> records_match S -> records_match (snd (run qs S)).
Proof.
  induction qs as [|q qs IH]; intros S W Hf Hm; [exact Hm|].
  destruct Hf as [Hq Hrest]. rewrite snd_run_cons.
  apply IH; [now apply wf_handle | exact Hrest | now apply records_match_handle].
Qed.

(** X17.  After any requests from the empty store that minted no id twice,
    the tour a replay answers with has the fingerprint of the request: so,
    when the property and customer ids of request and tour hold no pipe
    character, it is a tour of exactly the requested property and customer
    for exactly the requested interval. *)
Theorem replay_answers_the_request :
  forall qs pid cid sa ea key now nl uuid t s e,
    fresh_ids qs new_storage ->
    fst (Service.create_tour pid cid sa ea key now nl uuid
           (snd (run qs new_storage))) = Ok (t, false) ->
    ensure_utc sa "start_at" = Ok s ->
    ensure_utc ea "end_at" = Ok e ->
    Service._fingerprint (Tour.property_id t) (Tour.customer_id t)
                         (Tour.start_at t) (Tour.end_at t)
    = Service._fingerprint pid cid s e
    /\ (no_pipe pid = true -> no_pipe cid = true ->
        no_pipe (Tour.property_id t) = true ->
        no_pipe (Tour.customer_id t) = true ->
        Tour.property_id t = pid /\ Tour.customer_id t = cid
        /\ Tour.start_at t = s /\ Tour.end_at t = e).
Proof.
  intros qs pid cid sa ea key now nl uuid t s e Hf E Es Ee.
  set (S := snd (run qs new_storage)) in *.
  assert (R : reachable S) by (exists qs; reflexivity).
  assert (Hm : records_match S).
  { apply records_match_run; [apply wf_new_storage | exact Hf|].
    intros k r G. discriminate G. }
  destruct (Service.create_tour pid cid sa ea key now nl uuid S)
    as [o S1] eqn:E0. cbn [fst] in E. subst o.
  apply create_tour_Ok in E0.
  destruct E0 as (s0 & e0 & Es0 & Ee0 & _ & [(_ & _ & r & L & Hfp & G)
                                            |(Hb & _)]); [|discriminate].
  assert (s0 = s) by congruence. assert (e0 = e) by congruence. subst s0 e0.
  assert (Gr : exists k, Dict.get (_idempotency S) k = Some r).
  { unfold live_record in L. destruct key as [[|c0 k]|]; try discriminate.
    exists (String c0 k).
    destruct (Dict.get (_idempotency S) (String c0 k)) as [r0|]; [|discriminate].
    destruct (IdempotencyRecord.expires_at r0 <=? nl); congruence. }
  destruct Gr as [k Gr]. destruct (Hm k r Gr) as (t0 & Gt & Hfp0).
  assert (t0 = t) by congruence. subst t0.
  assert (Heq : Service._fingerprint (Tour.property_id t) (Tour.customer_id t)
                  (Tour.start_at t) (Tour.end_at t)
                = Service._fingerprint pid cid s e) by congruence.
  split; [exact Heq|].
  intros P1 P2 P3 P4.
  destruct (reachable_sound S _ t R G) as (_ & R1 & R2 & _).
  assert (H := fingerprint_inj_instants _ _ _ _ _ _ _ _ P3 P4 P1 P2 R1 R2
                 (ensure_utc_in_range _ _ _ Es) (ensure_utc_in_range _ _ _ Ee)
                 Heq).
  injection H as -> -> -> ->. auto.
Qed.

Lemma replay_answers_the_request_witness :
  let qs := [keyed_request T0 T0 "0123456789abcdef0123456789abcdef"] in
  fresh_ids qs new_storage
  /\ Service._fingerprint (Tour.property_id keyed_tour)
       (Tour.customer_id keyed_tour) (Tour.start_at keyed_tour)
       (Tour.end_at keyed_tour)
     = Service._fingerprint "P1" "C1" (T0 + minutes 600) (T0 + minutes 630).
Proof.
  intros qs.
  assert (Hf : fresh_ids qs new_storage) by (simpl; auto).
  split; [exact Hf|].
  exact (proj1 (replay_answers_the_request qs "P1" "C1"
                  (utc (T0 + minutes 600)) (utc (T0 + minutes 630)) (Some "K")
                  (T0 + minutes 1) (T0 + minutes 1)
                  "fedcba9876543210fedcba9876543210" keyed_tour
                  (T0 + minutes 600) (T0 + minutes 630) Hf
                  ltac:(vm_compute; reflexivity) eq_refl eq_refl)).
Defined.

(** ** Half-open intervals *)

(** X18.  [overlaps] does not depend on the order of the two intervals; for
    two non-empty intervals it holds exactly when some instant lies in both,
    each taken closed at its start and open at its end; an interval that
    starts where another ends does not overlap it, and a non-empty interval
    overlaps itself. *)
Theorem overlaps_common_instant :
  forall a b c d,
    overlaps a b c d = overlaps c d a b
    /\ ((a < b /\ c < d) ->
        (overlaps a b c d = true <-> exists t, (a <= t < b) /\ (c <= t < d)))
    /\ overlaps a b b d = false
    /\ ((a < b) -> overlaps a b a b = true).
Proof.
  intros a b c d. split; [|split; [|split]].
  - unfold overlaps. apply andb_comm.
  - intros [Hab Hcd]. rewrite overlaps_iff. split.
    + intros [H1 H2]. exists (Z.max a c). lia.
    + intros [t Ht]. lia.
  - unfold overlaps. rewrite Z.ltb_irrefl. apply andb_false_r.
  - intros Hab. apply overlaps_iff. lia.
Qed.

(** ** Deleting twice *)

(** X19.  On a reachable store, once [DELETE /v1/tours/{id}] answered 204,
    a second delete of the same id answers 204 again and changes nothing,
    and [GET /v1/tours/{id}] answers 200 with the tour under that id, whose
    status reads [CANCELLED]. *)
Theorem delete_twice_then_get :
  forall S k clock clock',
    reachable S ->
    fst (Endpoint.cancel_tour k clock S) = Response 204 NoContent ->
    Endpoint.cancel_tour k clock' (snd (Endpoint.cancel_tour k clock S))
    = (Response 204 NoContent, snd (Endpoint.cancel_tour k clock S))
    /\ exists r,
         Endpoint.get_tour k (snd (Endpoint.cancel_tour k clock S))
         = (Response 200 (TourContent r), snd (Endpoint.cancel_tour k clock S))
         /\ TourResponse.id r = k
         /\ TourResponse.status r = "CANCELLED".
Proof.
  intros S k clock clock' R. assert (W := reachable_wf S R).
  destruct (Dict.get (_tours S) k) as [t|] eqn:G.
  2:{ unfold Endpoint.cancel_tour. rewrite cancel_tour_spec, G. discriminate. }
  intros _.
  set (S1 := mk_storage (Dict.set (_tours S) k (Tour.cancel t clock))
                        (_idempotency S) (_rate_limits S)).
  assert (E1 : Endpoint.cancel_tour k clock S = (Response 204 NoContent, S1)).
  { unfold Endpoint.cancel_tour.
    rewrite cancel_tour_spec, G, id_cancel, (wf_tours S W _ _ G). reflexivity. }
  rewrite E1. cbn [snd].
  assert (G1 : Dict.get (_tours S1) k = Some (Tour.cancel t clock))
    by apply get_set_same.
  split.
  - unfold Endpoint.cancel_tour. rewrite cancel_tour_spec, G1.
    rewrite (cancel_cancelled _ clock' (status_cancel t clock)).
    rewrite id_cancel, (wf_tours S W _ _ G), (set_get_noop _ _ _ G1), storage_eta.
    reflexivity.
  - exists (TourResponse.from_domain (Tour.cancel t clock)).
    unfold Endpoint.get_tour. rewrite get_tour_spec, G1. cbn [respond].
    split; [reflexivity|].
    cbn [TourResponse.from_domain TourResponse.id TourResponse.status].
    rewrite id_cancel, (wf_tours S W _ _ G), status_cancel. auto.
Qed.

Lemma delete_twice_then_get_witness :
  let S := snd (run [keyed_request T0 T0 "0123456789abcdef0123456789abcdef"]
                    new_storage) in
  reachable S
  /\ Endpoint.cancel_tour "tour_0123456789ab" (T0 + minutes 9)
       (snd (Endpoint.cancel_tour "tour_0123456789ab" (T0 + minutes 5) S))
     = (Response 204 NoContent,
        snd (Endpoint.cancel_tour "tour_0123456789ab" (T0 + minutes 5) S)).
Proof.
  intros S.
  assert (R : reachable S)
    by (exists [keyed_request T0 T0 "0123456789abcdef0123456789abcdef"];
        reflexivity).
  split; [exact R|].
  apply (proj1 (delete_twice_then_get S "tour_0123456789ab" (T0 + minutes 5)
                  (T0 + minutes 9) R ltac:(vm_compute; reflexivity))).
Defined.
